(** * LegiScan bulk-data pipeline: archive extraction, dataset discovery,
      per-bill aggregation and corpus building

    A shallow embedding of
      - datasources/cleaning/concat_with_join_legiscan.py
      - datasources/cleaning/concat_bills.py
      - scripts/join_legiscan_csvs.py
      - scripts/concat_legiscan_combined.py
    and the properties of the specification proved (or refuted) on it.

    Conventions of the embedding.
      - A file system is a finite map from resolved absolute paths (the
        list of their components, the root being the empty list) to
        nodes.  There are no symbolic links, so [Path.resolve] is the
        lexical normalisation of [os.path.realpath].
        [exists], [stat], [mkdir] and [rmtree] act on the resolved path:
        the walk of the operating system agrees with it when the path
        has no [..] component or the directories on the way exist.  A
        path that ends in [.] names a directory: [exists] and [rmtree]
        treat it as the operating system does.
      - Python exceptions are values of [error]; code that can raise
        runs in a state-and-error monad over the file system.
      - What a library reads from or writes to the bytes of a file (zip
        archives, CSV) is a variable of the section that uses it, and so
        is the frame that [pd.concat] builds.
      - A pandas cell that may be missing (NaN) is an [option].  Counts
        and vote totals are integers; [int64] writes out the wrap-around
        of a 64-bit column, and sums are specified in the range that
        float64 holds exactly as well. *)

From Stdlib Require Import ZArith Lia Ascii String.
From stdpp Require Import gmap strings list fin_maps sorting.

Open Scope string_scope.
Open Scope list_scope.

(** ** pathlib *)

Module Pathlib.

(** A [PurePosixPath]: whether it has a root, and its name components.
    A leading double slash is a root like the single one: [resolve]
    (through [os.path.realpath]) collapses it. *)
Record PurePath := mkPath { absolute : bool; parts : list string }.

(** [s.split(sep)] for a separator of one character *)
Fixpoint split_on (sep : ascii) (s : string) : list string :=
  match s with
  | EmptyString => [EmptyString]
  | String c s' =>
      if Ascii.eqb c sep then EmptyString :: split_on sep s'
      else match split_on sep s' with
           | [] => [String c EmptyString]
           | w :: ws => String c w :: ws
           end
  end.

Definition starts_with_slash (s : string) : bool :=
  match s with
  | String c _ => Ascii.eqb c "/"%char
  | EmptyString => false
  end.

(** [Path(s)]: the components are the non-empty pieces between slashes
    that are not ["."]; [".."] is kept. *)
Definition Path (s : string) : PurePath :=
  {| absolute := starts_with_slash s;
     parts := filter (λ x, x ≠ "" ∧ x ≠ ".") (split_on "/"%char s) |}.

(** [a / b] *)
Definition joinpath (a b : PurePath) : PurePath :=
  if absolute b then b
  else {| absolute := absolute a; parts := parts a ++ parts b |}.

(** Lexical normalisation of the components of an absolute path:
    [".."] pops a component, and stays at the root; ["."] names the
    directory it is reached in.  [Path] never keeps a ["."], but
    [with_suffix] makes one of the name ["..zip"]. *)
Fixpoint normalize (acc : list string) (ps : list string) : list string :=
  match ps with
  | [] => acc
  | p :: ps' =>
      if String.eqb p ".." then normalize (removelast acc) ps'
      else if String.eqb p "." then normalize acc ps'
      else normalize (acc ++ [p]) ps'
  end.

(** The directories in which the components [ps] are looked up, one
    after the other, by a walk that starts in [acc]. *)
Fixpoint visited (acc : list string) (ps : list string) : list (list string) :=
  match ps with
  | [] => []
  | p :: ps' => acc :: visited (normalize acc [p]) ps'
  end.

(** [p.resolve()] in the working directory [cwd] (itself resolved). *)
Definition resolve (cwd : list string) (p : PurePath) : list string :=
  if absolute p then normalize [] (parts p)
  else normalize cwd (parts p).

(** [p.parent] of a resolved path; the root is its own parent. *)
Definition parent (p : list string) : list string := removelast p.

(** [s.endswith(suffix)] *)
Definition endswith (s suffix : string) : bool :=
  let n := String.length s in
  let m := String.length suffix in
  if (m <=? n)%nat then String.eqb (substring (n - m) m s) suffix else false.

(** [str.rfind(".")]: the index of the last dot, if there is one. *)
Fixpoint rfind_dot (s : string) : option nat :=
  match s with
  | EmptyString => None
  | String c s' =>
      match rfind_dot s' with
      | Some i => Some (S i)
      | None => if Ascii.eqb c "."%char then Some 0%nat else None
      end
  end.

(** [PurePath.suffix] of a file name: from the last dot on, when that dot
    is neither the first nor the last character. *)
Definition suffix_of_name (nm : string) : string :=
  match rfind_dot nm with
  | Some i =>
      if ((0 <? i) && (i <? String.length nm - 1))%nat
      then substring i (String.length nm - i) nm
      else ""
  | None => ""
  end.

Definition path_name (p : PurePath) : string := List.last (parts p) "".

Definition path_suffix (p : PurePath) : string := suffix_of_name (path_name p).

(** [p.parent] of a path object. *)
Definition path_parent (p : PurePath) : PurePath :=
  {| absolute := absolute p; parts := removelast (parts p) |}.

(** [p.with_suffix(sfx)] for [sfx] the empty string or [".zip"];
    [None] is the [ValueError] raised for a path with an empty name. *)
Definition with_suffix (p : PurePath) (sfx : string) : option PurePath :=
  let nm := path_name p in
  if String.eqb nm "" then None
  else
    let old := suffix_of_name nm in
    let stem := substring 0 (String.length nm - String.length old) nm in
    Some {| absolute := absolute p;
            parts := removelast (parts p) ++ [String.append stem sfx] |}.

End Pathlib.

Import Pathlib.

(** ** The file system and the exceptions *)

Inductive node :=
  | Dir
  | File (data : list Byte.byte).

#[global] Instance byte_eq_dec : EqDecision Byte.byte := Byte.byte_eq_dec.

#[global] Instance node_eq_dec : EqDecision node.
Proof. solve_decision. Defined.

Abbreviation filesystem := (gmap (list string) node).

Inductive error :=
  | UnsafeEntry (filename : string)   (* RuntimeError("Unsafe path detected in zip (zip-slip): ...") *)
  | FileNotFoundError
  | OSError                           (* FileExistsError, NotADirectoryError, IsADirectoryError *)
  | BadZipFile
  | ValueError
  | KeyError (column : string)        (* a table lacks a column *)
  | ParserError                       (* pandas.errors.ParserError, csv.Error, UnicodeDecodeError *)
  | IndexError
  | StopIteration.

#[global] Instance error_eq_dec : EqDecision error.
Proof. solve_decision. Defined.

(** State-and-error monad: a computation either returns or raises, and
    leaves a file system behind in both cases. *)
Definition M (A : Type) : Type := filesystem → (A + error) * filesystem.

Definition ret {A} (a : A) : M A := λ fs, (inl a, fs).
Definition raise {A} (e : error) : M A := λ fs, (inr e, fs).
Definition bind {A B} (k : A → M B) (m : M A) : M B :=
  λ fs, match m fs with
        | (inl a, fs') => k a fs'
        | (inr e, fs') => (inr e, fs')
        end.

#[global] Instance M_ret : MRet M := @ret.
#[global] Instance M_bind : MBind M := @bind.

Definition exists_ (p : list string) (fs : filesystem) : bool :=
  bool_decide (is_Some (fs !! p)).
Definition is_dir (p : list string) (fs : filesystem) : bool :=
  bool_decide (fs !! p = Some Dir).
Definition is_file (p : list string) (fs : filesystem) : bool :=
  match fs !! p with Some (File _) => true | _ => false end.

(** [p.mkdir(parents=True, exist_ok=True)], from the root downwards: an
    existing directory is kept, a missing one is created, and a file in
    the way raises before anything is created. *)
Fixpoint mkdir_chain (pre rest : list string) (fs : filesystem) : option filesystem :=
  match rest with
  | [] => Some fs
  | x :: rest' =>
      let q := pre ++ [x] in
      match fs !! q with
      | Some Dir => mkdir_chain q rest' fs
      | Some (File _) => None
      | None => mkdir_chain q rest' (<[q := Dir]> fs)
      end
  end.

Definition mkdir_parents (p : list string) : M unit :=
  λ fs, match mkdir_chain [] p fs with
        | Some fs' => (inl tt, fs')
        | None => (inr OSError, fs)
        end.

(** [open(p, "wb")] followed by [shutil.copyfileobj]. *)
Definition write_file (p : list string) (data : list Byte.byte) : M unit :=
  λ fs, match fs !! p with
        | Some Dir => (inr OSError, fs)
        | _ => (inl tt, <[p := File data]> fs)
        end.

(** [p.exists()]: [stat] of a path that ends in ["."] succeeds on a
    directory only. *)
Definition path_exists (cwd : list string) (p : PurePath) (fs : filesystem) : bool :=
  if String.eqb (path_name p) "." then is_dir (resolve cwd p) fs
  else exists_ (resolve cwd p) fs.

(** [os.rmdir(p)], the last step of [shutil.rmtree(p)], once everything
    below the directory [r] that [p] names is deleted: the walk of [p]
    fails in a directory that is gone ([ENOENT]), and a path that does
    not end in a name is refused ([EINVAL] for ["."], [ENOTEMPTY] for
    [".."], [EBUSY] for the root). *)
Definition rmdir_error (cwd : list string) (p : PurePath) : option error :=
  let r := resolve cwd p in
  let nm := path_name p in
  if bool_decide (Exists (λ d, r `prefix_of` d ∧ d ≠ r)
                         (visited (if absolute p then [] else cwd) (parts p)))
  then Some FileNotFoundError
  else if bool_decide (nm = "" ∨ nm = "." ∨ nm = "..") then Some OSError
  else None.

(** [shutil.rmtree(p)]: what is below the directory is deleted, then
    the directory itself. *)
Definition rmtree (cwd : list string) (p : PurePath) : M unit :=
  λ fs,
    let r := resolve cwd p in
    match fs !! r with
    | Some Dir =>
        match rmdir_error cwd p with
        | Some e => (inr e, filter (λ kv, ¬ (r `prefix_of` kv.1 ∧ kv.1 ≠ r)) fs)
        | None => (inl tt, filter (λ kv, ¬ (r `prefix_of` kv.1)) fs)
        end
    | Some (File _) => (inr OSError, fs)
    | None => (inr FileNotFoundError, fs)
    end.

(** ** Safe Extractor *)

(** A [ZipInfo] with the bytes [ZipFile.open] yields for it. *)
Record ZipInfo := mkZipInfo { filename : string; content : list Byte.byte }.

Definition ZipInfo_is_dir (m : ZipInfo) : bool := endswith (filename m) "/".

Section Extractor.

(** The working directory of the process. *)
Variable cwd : list string.

(** [is_within_directory(base, target)]: [relative_to] succeeds when
    the resolved base is a prefix of the resolved target. *)
Definition is_within_directory (base : PurePath) (target : list string) : bool :=
  bool_decide (resolve cwd base `prefix_of` target).

(** The two tests of "Skip macOS junk". *)
Definition is_junk (m : ZipInfo) : bool :=
  bool_decide ("__MACOSX" ∈ parts (Path (filename m)))
  || endswith (filename m) ".DS_Store".

(** [(dest_dir / member_path).resolve()] *)
Definition out_path (dest_dir : PurePath) (m : ZipInfo) : list string :=
  resolve cwd (joinpath dest_dir (Path (filename m))).

(** The body of the loop of [safe_extract_zip] for one member. *)
Definition extract_member (dest_dir : PurePath) (m : ZipInfo) : M unit :=
  if is_junk m then ret tt
  else
    let out := out_path dest_dir m in
    if negb (is_within_directory dest_dir out)
    then raise (UnsafeEntry (filename m))
    else if ZipInfo_is_dir m then mkdir_parents out
    else (mkdir_parents (parent out) ;; write_file out (content m)).

(** [for member in z.infolist(): ...] *)
Fixpoint extract_members (dest_dir : PurePath) (ms : list ZipInfo) : M unit :=
  match ms with
  | [] => ret tt
  | m :: ms' => extract_member dest_dir m ;; extract_members dest_dir ms'
  end.

(** What [zipfile.ZipFile] reads from the bytes of an archive: its
    members, or nothing for bytes that are not a zip archive. *)
Variable infolist : list Byte.byte → option (list ZipInfo).

(** [safe_extract_zip(zip_path, dest_dir)] *)
Definition safe_extract_zip (zip_path dest_dir : PurePath) : M unit :=
  λ fs, match fs !! resolve cwd zip_path with
        | None => (inr FileNotFoundError, fs)
        | Some Dir => (inr OSError, fs)
        | Some (File bytes) =>
            match infolist bytes with
            | None => (inr BadZipFile, fs)
            | Some ms => extract_members dest_dir ms fs
            end
        end.

End Extractor.

(** ** Archive Resolver *)

Section Resolver.

Variable cwd : list string.
Variable infolist : list Byte.byte → option (list ZipInfo).

(** [st_mtime] of the node at a resolved path, as [stat] reports it
    when [resolve_root_dir] is entered.  Only the order of two such
    times is used. *)
Variable st_mtime : list string → Z.

(** The first statement of [resolve_root_dir]: the archive path and
    the directory path named by the input. *)
Definition zip_and_dir (input_path : PurePath) : option (PurePath * PurePath) :=
  if String.eqb (path_suffix input_path) ".zip"
  then dir_path ← with_suffix input_path ""; Some (input_path, dir_path)
  else zip_path ← with_suffix input_path ".zip"; Some (zip_path, input_path).

(** "create directory, extract" *)
Definition extract_into (zip_path dir_path : PurePath) : M unit :=
  mkdir_parents (resolve cwd dir_path) ;;
  safe_extract_zip cwd infolist zip_path dir_path.

(** [resolve_root_dir(input_path)] *)
Definition resolve_root_dir (input_path : PurePath) : M PurePath :=
  match zip_and_dir input_path with
  | None => raise ValueError
  | Some (zip_path, dir_path) =>
      λ fs,
        if path_exists cwd zip_path fs then
          ((if path_exists cwd dir_path fs then
              if (st_mtime (resolve cwd zip_path) >? st_mtime (resolve cwd dir_path))%Z
              then rmtree cwd dir_path ;; extract_into zip_path dir_path
              else ret tt
            else extract_into zip_path dir_path) ;;
           ret dir_path) fs
        else if path_exists cwd dir_path fs then ret dir_path fs
        else raise FileNotFoundError fs
  end.

End Resolver.

(** Outside the destination nothing is written: a path that is not
    below [dest] keeps its node, except that a missing ancestor
    directory of [dest] may have been created. *)
Definition untouched_outside (dest : list string) (fs fs' : filesystem) : Prop :=
  ∀ p, ¬ dest `prefix_of` p →
       fs' !! p = fs !! p ∨
       (fs !! p = None ∧ fs' !! p = Some Dir ∧ p `prefix_of` dest).

(** *** Example data: an archive next to its extracted directory *)

Module ExampleArchive.

Definition cwd : list string := ["home"; "user"].

Definition zip_bytes : list Byte.byte := [Byte.x50; Byte.x4b; Byte.x03; Byte.x04].

Definition bills_csv : list Byte.byte := [Byte.x62; Byte.x69; Byte.x6c; Byte.x6c].

Definition junk_escaping : ZipInfo := mkZipInfo "../../__MACOSX/._evil" [Byte.x21].
Definition ds_store_escaping : ZipInfo := mkZipInfo "../.DS_Store" [Byte.x21].
Definition good_file : ZipInfo := mkZipInfo "AK/2021-2022_32nd_Legislature/csv/bills.csv" bills_csv.
Definition good_dir : ZipInfo := mkZipInfo "AK/" [].
Definition evil : ZipInfo := mkZipInfo "AK/../../evil.csv" [Byte.x21].

(** A decoder that reads the members [ms] from [zip_bytes]. *)
Definition infolist_of (ms : list ZipInfo) (bytes : list Byte.byte) : option (list ZipInfo) :=
  if decide (bytes = zip_bytes) then Some ms else None.

Definition zip_path : PurePath := Path "/data/2021-2022.zip".
Definition dir_path : PurePath := Path "/data/2021-2022".

(** Only the archive is there. *)
Definition fs_zip_only : filesystem :=
  {[ [] := Dir; ["data"] := Dir; ["data"; "2021-2022.zip"] := File zip_bytes ]}.

(** The archive and a directory extracted earlier, with a stale file. *)
Definition fs_both : filesystem :=
  <[ ["data"; "2021-2022"] := Dir ]>
    (<[ ["data"; "2021-2022"; "stale.csv"] := File [Byte.x30] ]> fs_zip_only).

Definition mtime_zip_newer (p : list string) : Z :=
  if decide (p = ["data"; "2021-2022.zip"]) then 200 else 100.

Definition mtime_zip_older (p : list string) : Z :=
  if decide (p = ["data"; "2021-2022.zip"]) then 100 else 200.

End ExampleArchive.

(** ** Dataset Discovery *)

Definition REQUIRED_FILES : list string :=
  ["bills.csv"; "people.csv"; "sponsors.csv"; "history.csv"; "documents.csv"; "rollcalls.csv"].

(** Comparison of two sequences, element by element, the way Python
    compares lists: the first difference decides, a proper prefix is
    smaller. *)
Fixpoint lex_compare {A} (cmp : A → A → comparison) (l1 l2 : list A) : comparison :=
  match l1, l2 with
  | [], [] => Eq
  | [], _ :: _ => Lt
  | _ :: _, [] => Gt
  | x :: l1', y :: l2' =>
      match cmp x y with
      | Eq => lex_compare cmp l1' l2'
      | c => c
      end
  end.

(** The order of [Path] objects: their components compared as lists of
    strings, strings by code point. *)
Definition path_compare : list string → list string → comparison :=
  lex_compare String.compare.

Definition path_le (p q : list string) : Prop := path_compare p q ≠ Gt.

#[global] Instance path_le_dec : RelDecision path_le.
Proof. intros p q. unfold path_le. apply _. Defined.

(** The directories between [pre] and [pre ++ rest], [pre] included and
    [pre ++ rest] excluded, are all directories: the walk reaches
    [pre ++ rest]. *)
Fixpoint walk_dirs (pre rest : list string) (fs : filesystem) : bool :=
  match rest with
  | [] => true
  | x :: rest' => is_dir pre fs && walk_dirs (pre ++ [x]) rest' fs
  end.

(** [root.rglob("*")]: every entry strictly below [root] that the walk
    reaches, in the order the file system lists them. *)
Definition rglob_star (root : list string) (fs : filesystem) : list (list string) :=
  filter (λ p, root `prefix_of` p ∧ p ≠ root ∧
               walk_dirs root (drop (length root) p) fs = true)
         (map_to_list fs).*1.

(** [all((dirpath / f).is_file() for f in REQUIRED_FILES)] *)
Definition has_required_files (dirpath : list string) (fs : filesystem) : bool :=
  forallb (λ f, is_file (dirpath ++ [f]) fs) REQUIRED_FILES.

(** [discover_csv_dirs(root)] *)
Definition discover_csv_dirs (root : list string) (fs : filesystem) : list (list string) :=
  merge_sort path_le
    (filter (λ dirpath, is_dir dirpath fs = true ∧ has_required_files dirpath fs = true)
            (rglob_star root fs)).

(** What "a subdirectory of [root]" means: a directory strictly below
    [root], every directory on the way from [root] being a directory. *)
Definition subdirectory_of (root : list string) (fs : filesystem) (d : list string) : Prop :=
  ∃ k, k ≠ [] ∧ d = root ++ k ∧
       (∀ j, j < length k → fs !! (root ++ take j k) = Some Dir) ∧
       fs !! d = Some Dir.

(** What "directly contains all six required table files" means. *)
Definition contains_required_files (fs : filesystem) (d : list string) : Prop :=
  ∀ f, f ∈ REQUIRED_FILES → ∃ data, fs !! (d ++ [f]) = Some (File data).

(** *** Example data: a tree with two datasets and an incomplete one *)

Module ExampleTree.

Definition dataset_at (d : list string) (fs : filesystem) : filesystem :=
  foldr (λ f acc, <[ d ++ [f] := File [] ]> acc) (<[ d := Dir ]> fs) REQUIRED_FILES.

Definition fs : filesystem :=
  dataset_at ["d"; "WY"; "s1"; "csv"]
    (dataset_at ["d"; "AK"; "s1"; "csv"]
       (<[ ["d"; "AK"; "s2"; "csv"; "bills.csv"] := File [] ]>
          (list_to_map
             (map (λ p, (p, Dir))
                [ []; ["d"]; ["d"; "AK"]; ["d"; "WY"]; ["d"; "AK"; "s1"];
                  ["d"; "AK"; "s2"]; ["d"; "AK"; "s2"; "csv"]; ["d"; "WY"; "s1"] ])))).

End ExampleTree.

(** ** Per-Bill Aggregator *)

Definition is_ascii_letter (c : ascii) : bool :=
  let n := nat_of_ascii c in
  ((65 <=? n) && (n <=? 90) || (97 <=? n) && (n <=? 122))%nat.

(** [re.sub(r"[^A-Za-z]", "", s)] *)
Fixpoint letters_only (s : string) : string :=
  match s with
  | EmptyString => EmptyString
  | String c s' =>
      if is_ascii_letter c then String c (letters_only s') else letters_only s'
  end.

(** The character class [A-Za-z], by the codes of its two ranges. *)
Definition A_Za_z (c : ascii) : Prop :=
  (nat_of_ascii "A" ≤ nat_of_ascii c ≤ nat_of_ascii "Z")%nat ∨
  (nat_of_ascii "a" ≤ nat_of_ascii c ≤ nat_of_ascii "z")%nat.

#[global] Instance A_Za_z_dec (c : ascii) : Decision (A_Za_z c).
Proof. unfold A_Za_z. apply _. Defined.

(** [sep.join(l)] *)
Fixpoint join (sep : string) (l : list string) : string :=
  match l with
  | [] => ""
  | [x] => x
  | x :: l' => String.append x (String.append sep (join sep l'))
  end.

(** Addition in an [int64] column wraps around. *)
Definition int64 (z : Z) : Z := ((z + 2 ^ 63) `mod` 2 ^ 64 - 2 ^ 63)%Z.

(** The integers that [int64] and [float64] both hold exactly. *)
Definition exact_range (vals : list Z) : Prop :=
  (foldr Z.add 0 (map Z.abs vals) < 2 ^ 53)%Z.

(** [Series.unique()] and the order of the groups of
    [groupby(sort=False)]: first occurrences, in order. *)
Fixpoint unique {A} `{EqDecision A} (l : list A) : list A :=
  match l with
  | [] => []
  | x :: l' => x :: filter (λ y, y ≠ x) (unique l')
  end.

(** [sort_values] on several columns is a stable sort; [leb] is the
    order of the key columns. *)
Fixpoint insert_sorted {A} (leb : A → A → bool) (x : A) (l : list A) : list A :=
  match l with
  | [] => [x]
  | y :: l' => if leb x y then x :: l else y :: insert_sorted leb x l'
  end.

Definition sort_values {A} (leb : A → A → bool) (l : list A) : list A :=
  foldr (insert_sorted leb) [] l.

(** Missing values sort last ([na_position="last"]). *)
Definition nan_last {K} (cmp : K → K → comparison) (a b : option K) : comparison :=
  match a, b with
  | Some x, Some y => cmp x y
  | Some _, None => Lt
  | None, Some _ => Gt
  | None, None => Eq
  end.

(** Lookup of a key in the rows of an aggregate, which has one row per key. *)
Fixpoint assoc {K B} `{EqDecision K} (k : K) (rows : list (K * B)) : option B :=
  match rows with
  | [] => None
  | (k', b) :: rows' => if decide (k' = k) then Some b else assoc k rows'
  end.

Section Aggregator.

(** Identifiers ([bill_id], [people_id], [roll_call_id]): any values
    that can be compared, not necessarily numbers. *)
Context {ident : Type} `{EqDecision ident}.
Variable ident_compare : ident → ident → comparison.

(** The columns of the six tables that the aggregation reads.  A cell
    is [None] when [read_csv] found it empty (NaN). *)
Record bill := { bill_id : option ident; bill_columns : list string }.
Record person :=
  { people_id : option ident; name : option string; party : option string }.
Record sponsorship :=
  { sp_bill_id : option ident; sp_people_id : option ident; position : option Z }.
Record history_event :=
  { h_bill_id : option ident; date : option string; sequence : option Z;
    action : option string }.
Record document :=
  { d_bill_id : option ident; document_type : option string; url : option string }.
Record rollcall :=
  { r_bill_id : option ident; roll_call_id : option ident;
    yea : option Z; nay : option Z }.

Record dataset :=
  { bills : list bill; people : list person; sponsors : list sponsorship;
    history : list history_event; documents : list document;
    rollcalls : list rollcall }.

(** [groupby(key, sort=False)]: one group per key value, in order of
    first appearance, rows in their order; rows without a key are
    dropped. *)
Definition groupby {R} (key : R → option ident) (rows : list R) : list (ident * list R) :=
  map (λ k, (k, filter (λ r, key r = Some k) rows)) (unique (omap key rows)).

(** [groupby(...).apply(_agg, include_groups=False).reset_index()]:
    one row per group.  When there is no group [_agg] is never called
    and the frame comes back without the columns [_agg] would make:
    [None]. *)
Definition groupby_apply {R B} (key : R → option ident) (agg : list R → B)
    (rows : list R) : option (list (ident * B)) :=
  match groupby key rows with
  | [] => None
  | gs => Some (map (λ kg, (kg.1, agg kg.2)) gs)
  end.

(** *** aggregate_sponsors *)

(** A row of [sponsors.merge(people[...], on="people_id", how="left")]. *)
Record sponsor_row :=
  { m_bill_id : option ident; m_people_id : option ident; m_position : option Z;
    m_name : option string; m_party : option string }.

Definition with_person (s : sponsorship) (nm pa : option string) : sponsor_row :=
  {| m_bill_id := sp_bill_id s; m_people_id := sp_people_id s;
     m_position := position s; m_name := nm; m_party := pa |}.

(** Left join, for one sponsorship row: the row once per person row
    with its [people_id], or once with blank name and party when
    there is none. *)
Definition joined_rows (s : sponsorship) (ps : list person) : list sponsor_row :=
  match filter (λ p, people_id p = sp_people_id s) ps with
  | [] => [with_person s None None]
  | matches => map (λ p, with_person s (name p) (party p)) matches
  end.

Definition merge_people (sps : list sponsorship) (ps : list person) : list sponsor_row :=
  flat_map (λ s, joined_rows s ps) sps.

Definition sponsor_row_leb (a b : sponsor_row) : bool :=
  match nan_last ident_compare (m_bill_id a) (m_bill_id b) with
  | Lt => true
  | Gt => false
  | Eq => match nan_last Z.compare (m_position a) (m_position b) with
          | Gt => false
          | _ => true
          end
  end.

Record sponsor_agg :=
  { sponsor_names : string; sponsor_parties : string;
    primary_sponsor : option string; sponsor_count : Z }.

Definition sponsors_agg_group (group : list sponsor_row) : sponsor_agg :=
  let primary := map m_name (filter (λ r, m_position r = Some 1%Z) group) in
  {| sponsor_names := join " | " (omap m_name group);
     sponsor_parties := join " | " (omap m_party group);
     primary_sponsor := match primary with
                        | first :: _ => first
                        | [] => Some ""
                        end;
     sponsor_count := Z.of_nat (length group) |}.

Definition sorted_sponsors (sps : list sponsorship) (ps : list person) : list sponsor_row :=
  sort_values sponsor_row_leb (merge_people sps ps).

Definition aggregate_sponsors (sps : list sponsorship) (ps : list person)
    : option (list (ident * sponsor_agg)) :=
  groupby_apply m_bill_id sponsors_agg_group (sorted_sponsors sps ps).

(** *** aggregate_history *)

Definition history_leb (a b : history_event) : bool :=
  match nan_last ident_compare (h_bill_id a) (h_bill_id b) with
  | Lt => true
  | Gt => false
  | Eq => match nan_last String.compare (date a) (date b) with
          | Lt => true
          | Gt => false
          | Eq => match nan_last Z.compare (sequence a) (sequence b) with
                  | Gt => false
                  | _ => true
                  end
          end
  end.

Record history_agg := { action_count : Z; last_history_action : option string }.

Definition history_agg_group (group : list history_event) : history_agg :=
  {| action_count := Z.of_nat (length group);
     last_history_action := List.last (map action group) None |}.

Definition aggregate_history (hs : list history_event)
    : option (list (ident * history_agg)) :=
  groupby_apply h_bill_id history_agg_group (sort_values history_leb hs).

(** *** aggregate_documents *)

Record documents_agg :=
  { document_count : Z; document_types : string; document_urls : string }.

Definition documents_agg_group (group : list document) : documents_agg :=
  {| document_count := Z.of_nat (length group);
     document_types := join " | " (unique (omap document_type group));
     document_urls := join " | " (omap url group) |}.

Definition aggregate_documents (ds : list document)
    : option (list (ident * documents_agg)) :=
  groupby_apply d_bill_id documents_agg_group ds.

(** *** aggregate_rollcalls *)

Record rollcalls_agg := { rollcall_count : Z; total_yea : Z; total_nay : Z }.

(** ["count"] counts the cells of the column that are not missing;
    ["sum"] adds those that are not missing. *)
Definition rollcalls_agg_group (group : list rollcall) : rollcalls_agg :=
  {| rollcall_count := Z.of_nat (length (omap roll_call_id group));
     total_yea := int64 (foldr Z.add 0%Z (omap yea group));
     total_nay := int64 (foldr Z.add 0%Z (omap nay group)) |}.

(** [groupby(...).agg(...)] names its columns itself: they are there
    also when there is no group. *)
Definition aggregate_rollcalls (rs : list rollcall) : list (ident * rollcalls_agg) :=
  map (λ kg, (kg.1, rollcalls_agg_group kg.2)) (groupby r_bill_id rs).

(** *** process_csv_dir *)

(** The columns [result.merge(agg, on="bill_id", how="left")] adds for
    one bill: [None] when the aggregate does not have the columns,
    [Some None] (NaN in each of them) when no row of the aggregate has
    the bill's id. *)
Definition merge_left {B} (k : option ident) (agg : option (list (ident * B)))
    : option (option B) :=
  match agg with
  | None => None
  | Some rows => Some (k' ← k; assoc k' rows)
  end.

(** The loop over [count_cols]: a column that is in the frame gets
    [fillna(0).astype(int)], a column that is not is left out. *)
Definition count_col {B} (col : B → Z) (merged : option (option B)) : option Z :=
  match merged with
  | None => None
  | Some cell => Some (default 0%Z (col <$> cell))
  end.

(** The other columns of an aggregate: absent, or a cell that may be
    NaN. *)
Definition text_col {B C} (col : B → C) (merged : option (option B)) : option (option C) :=
  match merged with
  | None => None
  | Some cell => Some (col <$> cell)
  end.

(** The same for a column whose cells the aggregate itself may have
    left NaN. *)
Definition nan_col {B C} (col : B → option C) (merged : option (option B))
    : option (option C) :=
  match merged with
  | None => None
  | Some cell => Some (cell ≫= col)
  end.

(** A row of the output frame.  For a column, [None] says the frame
    does not have it. *)
Record output_row :=
  { out_state : string;
    out_bill : bill;
    out_sponsor_names : option (option string);
    out_sponsor_parties : option (option string);
    out_primary_sponsor : option (option string);
    out_sponsor_count : option Z;
    out_action_count : option Z;
    out_last_history_action : option (option string);
    out_document_count : option Z;
    out_document_types : option (option string);
    out_document_urls : option (option string);
    out_rollcall_count : option Z;
    out_total_yea : option Z;
    out_total_nay : option Z }.

(** The part of [process_csv_dir] between reading the tables and
    writing the result. *)
Definition join_tables (state_code : string) (ds : dataset) : list output_row :=
  let sponsors_agg := aggregate_sponsors (sponsors ds) (people ds) in
  let history_agg := aggregate_history (history ds) in
  let documents_agg := aggregate_documents (documents ds) in
  let rollcalls_agg := Some (aggregate_rollcalls (rollcalls ds)) in
  map (λ b,
    let s := merge_left (bill_id b) sponsors_agg in
    let h := merge_left (bill_id b) history_agg in
    let d := merge_left (bill_id b) documents_agg in
    let r := merge_left (bill_id b) rollcalls_agg in
    {| out_state := state_code;
       out_bill := b;
       out_sponsor_names := text_col sponsor_names s;
       out_sponsor_parties := text_col sponsor_parties s;
       out_primary_sponsor := nan_col primary_sponsor s;
       out_sponsor_count := count_col sponsor_count s;
       out_action_count := count_col action_count h;
       out_last_history_action := nan_col last_history_action h;
       out_document_count := count_col document_count d;
       out_document_types := text_col document_types d;
       out_document_urls := text_col document_urls d;
       out_rollcall_count := count_col rollcall_count r;
       out_total_yea := count_col total_yea r;
       out_total_nay := count_col total_nay r |}) (bills ds).

(** The child rows that reference a bill: those whose [bill_id] is
    the bill's, a missing [bill_id] referencing nothing. *)
Definition referencing {R} (key : R → option ident) (b : bill) (rows : list R) : list R :=
  filter (λ r, is_Some (bill_id b) ∧ key r = bill_id b) rows.

(** A table has a row that carries a key. *)
Definition has_key {R} (key : R → option ident) (rows : list R) : Prop :=
  ∃ r, r ∈ rows ∧ is_Some (key r).

End Aggregator.

(** *** The two implementations of [process_csv_dir] and of the loop of
    [main] over the discovered datasets *)

(** [csv_dir.parent.parent.name] and [csv_dir.parent.name] *)
Definition state_folder (csv_dir : list string) : string :=
  List.last (parent (parent csv_dir)) "".
Definition session_folder (csv_dir : list string) : string :=
  List.last (parent csv_dir) "".

(** [f"{state_code}_{session_folder}.csv"] *)
Definition output_name (state_code session : string) : string :=
  String.append state_code (String.append "_" (String.append session ".csv")).

(** What a run prints, line by line. *)
Inductive log_line :=
  | Progress (i n : nat) (csv_dir : list string)   (* "[i/n] csv_dir" *)
  | Wrote (out_path : list string) (rows : nat)    (* "  -> out_path (rows rows)" *)
  | WroteTo (out_path : list string)               (* "  -> out_path" *)
  | Failed (e : error).                            (* "  ERROR: e", on stderr *)

(** datasources/cleaning/concat_with_join_legiscan.py *)
Module ConcatWithJoin.
Section Implementation.

Context {ident : Type} `{EqDecision ident}.
Variable ident_compare : ident → ident → comparison.

(** The six [pd.read_csv] calls on the files of a dataset directory:
    the typed tables, or the exception raised for a file that does
    not parse or lacks a column the aggregation reads. *)
Variable read_tables : list string → filesystem → @dataset ident + error.

(** [result.to_csv(out_path, index=False)]: the bytes written. *)
Variable to_csv : list (@output_row ident) → list Byte.byte.

Variable OUTPUT_DIR : list string.

(** [letters_only(csv_dir.parent.parent.name)] *)
Definition state_code (csv_dir : list string) : string :=
  letters_only (state_folder csv_dir).

(** [derive_output_path(csv_dir)] *)
Definition derive_output_path (csv_dir : list string) : list string :=
  OUTPUT_DIR ++ [output_name (state_code csv_dir) (session_folder csv_dir)].

(** [process_csv_dir(csv_dir, out_path)]: the row count. *)
Definition process_csv_dir (csv_dir out_path : list string) : M nat :=
  λ fs, match read_tables csv_dir fs with
        | inr e => (inr e, fs)
        | inl ds =>
            let result := join_tables ident_compare (state_code csv_dir) ds in
            (mkdir_parents (parent out_path) ;;
             write_file out_path (to_csv result) ;;
             mret (length result)) fs
        end.

(** [for i, csv_dir in enumerate(csv_dirs, 1): ...] of [main], from
    index [i] on, [n] being [len(csv_dirs)]: the lines printed, the
    rows counted and the file system left. *)
Fixpoint main_loop (n i : nat) (csv_dirs : list (list string))
    (total_rows : nat) (fs : filesystem) : list log_line * nat * filesystem :=
  match csv_dirs with
  | [] => ([], total_rows, fs)
  | csv_dir :: rest =>
      let out_path := derive_output_path csv_dir in
      match process_csv_dir csv_dir out_path fs with
      | (inl rows, fs') =>
          let '(log, total, fs'') := main_loop n (S i) rest (total_rows + rows) fs' in
          (Progress i n csv_dir :: Wrote out_path rows :: log, total, fs'')
      | (inr e, fs') =>
          let '(log, total, fs'') := main_loop n (S i) rest total_rows fs' in
          (Progress i n csv_dir :: Failed e :: log, total, fs'')
      end
  end.

End Implementation.
End ConcatWithJoin.

(** scripts/join_legiscan_csvs.py *)
Module JoinCsvs.
Section Implementation.

Context {ident : Type} `{EqDecision ident}.
Variable ident_compare : ident → ident → comparison.
Variable read_tables : list string → filesystem → @dataset ident + error.
Variable to_csv : list (@output_row ident) → list Byte.byte.

(** [csv_dir.parent.parent.name] *)
Definition state_code (csv_dir : list string) : string :=
  state_folder csv_dir.

(** [process_csv_dir(csv_dir, out_dir)]: the output path. *)
Definition process_csv_dir (csv_dir out_dir : list string) : M (list string) :=
  let out_path :=
    out_dir ++ [output_name (state_code csv_dir) (session_folder csv_dir)] in
  λ fs, match read_tables csv_dir fs with
        | inr e => (inr e, fs)
        | inl ds =>
            let result := join_tables ident_compare (state_code csv_dir) ds in
            (mkdir_parents out_dir ;;
             write_file out_path (to_csv result) ;;
             mret out_path) fs
        end.

(** [for i, csv_dir in enumerate(csv_dirs, 1): ...] of [main] *)
Fixpoint main_loop (out_dir : list string) (n i : nat)
    (csv_dirs : list (list string)) (fs : filesystem) : list log_line * filesystem :=
  match csv_dirs with
  | [] => ([], fs)
  | csv_dir :: rest =>
      match process_csv_dir csv_dir out_dir fs with
      | (inl out_path, fs') =>
          let '(log, fs'') := main_loop out_dir n (S i) rest fs' in
          (Progress i n csv_dir :: WroteTo out_path :: log, fs'')
      | (inr e, fs') =>
          let '(log, fs'') := main_loop out_dir n (S i) rest fs' in
          (Progress i n csv_dir :: Failed e :: log, fs'')
      end
  end.

End Implementation.
End JoinCsvs.

(** [to_csv] writes a NaN cell as the empty field. *)
Definition csv_field (cell : option string) : string := default "" cell.

(** *** Example data: the scenario of the specification

    Two bills; three sponsorship rows (bill 1: positions 1 and 2, bill 2:
    position 2 only); one document row for bill 1; no roll call for
    bill 2. *)

Module ExampleDataset.

Definition bill_A : @bill Z := {| bill_id := Some 1%Z; bill_columns := ["HB 1"] |}.
Definition bill_B : @bill Z := {| bill_id := Some 2%Z; bill_columns := ["SB 7"] |}.

Definition ann : @person Z :=
  {| people_id := Some 10%Z; name := Some "Ann Lee"; party := Some "D" |}.
Definition bob : @person Z :=
  {| people_id := Some 11%Z; name := Some "Bob Ray"; party := Some "R" |}.

Definition scenario : @dataset Z :=
  {| bills := [bill_A; bill_B];
     people := [ann; bob];
     sponsors :=
       [ {| sp_bill_id := Some 2%Z; sp_people_id := Some 11%Z; position := Some 2%Z |};
         {| sp_bill_id := Some 1%Z; sp_people_id := Some 11%Z; position := Some 2%Z |};
         {| sp_bill_id := Some 1%Z; sp_people_id := Some 10%Z; position := Some 1%Z |} ];
     history :=
       [ {| h_bill_id := Some 1%Z; date := Some "2021-02-01"; sequence := Some 2%Z;
            action := Some "Passed" |};
         {| h_bill_id := Some 1%Z; date := Some "2021-01-05"; sequence := Some 1%Z;
            action := Some "Filed" |};
         {| h_bill_id := Some 2%Z; date := Some "2021-01-07"; sequence := Some 1%Z;
            action := Some "Filed" |} ];
     documents :=
       [ {| d_bill_id := Some 1%Z; document_type := Some "Introduced";
            url := Some "https://legiscan.com/AK/text/HB1" |} ];
     rollcalls :=
       [ {| r_bill_id := Some 1%Z; roll_call_id := Some 100%Z;
            yea := Some 30%Z; nay := Some 5%Z |};
         {| r_bill_id := Some 1%Z; roll_call_id := Some 101%Z;
            yea := Some 21%Z; nay := Some 14%Z |} ] |}.

(** The same dataset with a header-only [sponsors.csv] and
    [documents.csv], and a roll call of bill 2 without [roll_call_id]. *)
Definition sparse : @dataset Z :=
  {| bills := [bill_A; bill_B];
     people := [ann; bob];
     sponsors := [];
     history := history scenario;
     documents := [];
     rollcalls :=
       rollcalls scenario ++
       [ {| r_bill_id := Some 2%Z; roll_call_id := None;
            yea := Some 3%Z; nay := Some 1%Z |} ] |}.

(** The scenario with a second row in [people.csv] for Ann's
    [people_id]. *)
Definition duplicated_person : @dataset Z :=
  {| bills := bills scenario;
     people := [ann; {| people_id := Some 10%Z; name := Some "A. Lee"; party := Some "D" |}; bob];
     sponsors := sponsors scenario;
     history := history scenario;
     documents := documents scenario;
     rollcalls := rollcalls scenario |}.

(** The scenario with vote counts that do not fit 64 bits together. *)
Definition overflowing : @dataset Z :=
  {| bills := bills scenario;
     people := people scenario;
     sponsors := sponsors scenario;
     history := history scenario;
     documents := documents scenario;
     rollcalls :=
       [ {| r_bill_id := Some 1%Z; roll_call_id := Some 100%Z;
            yea := Some (2 ^ 62)%Z; nay := Some 0%Z |};
         {| r_bill_id := Some 1%Z; roll_call_id := Some 101%Z;
            yea := Some (2 ^ 62)%Z; nay := Some 0%Z |};
         {| r_bill_id := Some 2%Z; roll_call_id := Some 102%Z;
            yea := Some 1%Z; nay := Some 1%Z |} ] |}.

(** Two dataset directories, the second below a state folder whose name
    is not letters only. *)
Definition csv_dir_AK : list string := ["d"; "AK"; "2021-2022_32nd_Legislature"; "csv"].
Definition csv_dir_odd : list string := ["d"; "AK-2021"; "32nd_Legislature"; "csv"].

End ExampleDataset.

(** The datasets a run attempted: the directories of its progress lines. *)
Definition attempted (log : list log_line) : list (list string) :=
  omap (λ line, match line with Progress _ _ csv_dir => Some csv_dir | _ => None end) log.

(** *** Example data: a run over three datasets, the second of which
    does not parse *)

Module ExampleRun.

Definition dir_AK : list string := ["d"; "AK"; "s1"; "csv"].
Definition dir_CO : list string := ["d"; "CO"; "s1"; "csv"].
Definition dir_WY : list string := ["d"; "WY"; "s1"; "csv"].

Definition read_tables (csv_dir : list string) (fs : filesystem) : @dataset Z + error :=
  if decide (csv_dir = dir_CO) then inr ParserError
  else inl ExampleDataset.scenario.

(** A rendering that writes the [state] column only, one line per row. *)
Definition state_lines (states : list string) : list Byte.byte :=
  list_byte_of_string
    (join "" (map (λ st, String.append st (String "010"%char "")) states)).

Definition to_csv (rows : list (@output_row Z)) : list Byte.byte :=
  state_lines (map out_state rows).

Definition OUTPUT_DIR : list string := ["out"].

Definition fs : filesystem := {[ [] := Dir ]}.

End ExampleRun.

(** ** Corpus Builder, raw streaming mode (concat_bills.py) *)

(** What [stream_concat] prints at its end. *)
Inductive stream_report :=
  | NoBillsFound                                        (* "No bills.csv files found" *)
  | Done (total_rows : nat) (errors : list (list string * error)).
                                                        (* "Error processing ...", "Done. Wrote ..." *)

(** The state of the loop of [stream_concat]. *)
Record writer_state :=
  { header_written : bool;
    written : list (list string);      (* the rows given to [writer.writerow] *)
    total_rows : nat;
    errors : list (list string * error) }.

Definition writer_start : writer_state :=
  {| header_written := false; written := []; total_rows := 0; errors := [] |}.

Definition with_error (st : writer_state) (k : list string) (e : error) : writer_state :=
  {| header_written := header_written st; written := written st;
     total_rows := total_rows st; errors := errors st ++ [(k, e)] |}.

(** [letters_only(bills_path.parents[2].name)], from the components of
    the path object, of which there are at least three. *)
Definition state_of_path (bills_path : list string) : string :=
  letters_only (List.last (take (length bills_path - 3) bills_path) "").

(** The same with the [IndexError] that [parents[2]] raises for a path
    with fewer than three components: [None]. *)
Definition parents_2_state (bills_path : list string) : option string :=
  if (length bills_path <? 3)%nat then None
  else Some (state_of_path bills_path).

(** The state code of an input file as the specification derives it:
    the name of the directory two levels above the table subfolder
    that holds the file, with every character outside [A-Za-z]
    stripped. *)
Definition derived_state_code (bills_path : list string) : string :=
  let table_subfolder := removelast bills_path in
  let state_directory := removelast (removelast table_subfolder) in
  string_of_list_ascii
    (filter A_Za_z (list_ascii_of_string (List.last state_directory ""))).

Section StreamConcat.

Variable cwd : list string.

(** [csv.reader] over the bytes of a file: the rows it yields, and
    whether it raises after the last of them. *)
Variable csv_reader : list Byte.byte → list (list string) * bool.

(** What [csv.writer] leaves in the output file for the rows written. *)
Variable csv_writer : list (list string) → list Byte.byte.

(** [root_dir.rglob("CSV/bills.csv")], each path relative to the root. *)
Definition rglob_csv_bills (root : list string) (fs : filesystem) : list (list string) :=
  filter (λ k, ["CSV"; "bills.csv"] `suffix_of` k)
         (map (drop (length root)) (rglob_star root fs)).

(** [sorted(...)]: the paths share the root, so their order is that of
    the relative paths. *)
Definition bills_paths (root : list string) (fs : filesystem) : list (list string) :=
  merge_sort path_le (rglob_csv_bills root fs).

(** The body of the loop for the input file at [root_dir / k]. *)
Definition concat_file (root_dir : PurePath) (fs : filesystem)
    (st : writer_state) (k : list string) : writer_state :=
  match parents_2_state (parts root_dir ++ k) with
  | None => with_error st k IndexError
  | Some state_clean =>
      match fs !! (resolve cwd root_dir ++ k) with
      | None => with_error st k FileNotFoundError
      | Some Dir => with_error st k OSError
      | Some (File bytes) =>
          let '(rows, raises) := csv_reader bytes in
          match rows with
          | [] => with_error st k (if raises then ParserError else StopIteration)
          | header :: data =>
              {| header_written := true;
                 written :=
                   written st
                   ++ (if header_written st then [] else [header ++ ["state"]])
                   ++ map (λ row, row ++ [state_clean]) data;
                 total_rows := total_rows st + length data;
                 errors := if raises then errors st ++ [(k, ParserError)]
                           else errors st |}
          end
      end
  end.

(** The loop over the input files, once the output file is open, and
    what the output file holds when it is closed. *)
Definition copy_inputs (root_dir output_path : PurePath) (inputs : list (list string))
    : M stream_report :=
  λ fs,
    let st := foldl (concat_file root_dir fs) writer_start inputs in
    (inl (Done (total_rows st) (errors st)),
     <[ resolve cwd output_path := File (csv_writer (written st)) ]> fs).

(** [stream_concat(root_dir, output_path)] *)
Definition stream_concat (root_dir output_path : PurePath) : M stream_report :=
  λ fs,
    match bills_paths (resolve cwd root_dir) fs with
    | [] => (inl NoBillsFound, fs)
    | inputs =>
        (mkdir_parents (resolve cwd (path_parent output_path)) ;;
         write_file (resolve cwd output_path) [] ;;
         copy_inputs root_dir output_path inputs) fs
    end.

(** The data rows of the input file at [root / k]: what [csv.reader]
    yields after the header. *)
Definition data_rows (root : list string) (fs : filesystem) (k : list string)
    : list (list string) :=
  match fs !! (root ++ k) with
  | Some (File bytes) => tail (csv_reader bytes).1
  | _ => []
  end.

(** An input file that reads without error and starts with [header]. *)
Definition reads_with_header (root_dir : PurePath) (header : list string)
    (fs : filesystem) (k : list string) : Prop :=
  ∃ bytes rows, fs !! (resolve cwd root_dir ++ k) = Some (File bytes) ∧
                csv_reader bytes = (header :: rows, false).

(** The rows of one input file, tagged with its state code. *)
Definition tagged_rows (root_dir : PurePath) (fs : filesystem) (k : list string)
    : list (list string) :=
  map (λ row, row ++ [state_of_path (parts root_dir ++ k)])
      (data_rows (resolve cwd root_dir) fs k).

End StreamConcat.

(** *** Example data: two bills files below an extracted archive, one
    of them in a state folder named with a year *)

Module ExampleStream.

(** A reader and a writer for CSV without quoted fields. *)
Definition simple_csv_reader (bytes : list Byte.byte) : list (list string) * bool :=
  (map (split_on ","%char)
     (filter (λ line, line ≠ "") (split_on "010"%char (string_of_list_byte bytes))),
   false).

Definition simple_csv_writer (rows : list (list string)) : list Byte.byte :=
  list_byte_of_string
    (join "" (map (λ row, String.append (join "," row) (String "010"%char "")) rows)).

Definition file (rows : list (list string)) : node := File (simple_csv_writer rows).

Definition root_dir : PurePath := Path "/data/2021-2022".
Definition output_path : PurePath := Path "/data/concatenated-2021-2022/all-bills.csv".

Definition fs : filesystem :=
  list_to_map
    ([ (["data"; "2021-2022"; "WY"; "s1"; "CSV"; "bills.csv"],
        file [["bill_id"; "title"]; ["7"; "Water"]]);
       (["data"; "2021-2022"; "AK-2021"; "s1"; "CSV"; "bills.csv"],
        file [["bill_id"; "title"]; ["1"; "Roads"]; ["2"; "Fish"]]) ]
     ++ map (λ p, (p, Dir))
          [ []; ["data"]; ["data"; "2021-2022"];
            ["data"; "2021-2022"; "AK-2021"]; ["data"; "2021-2022"; "AK-2021"; "s1"];
            ["data"; "2021-2022"; "AK-2021"; "s1"; "CSV"];
            ["data"; "2021-2022"; "WY"]; ["data"; "2021-2022"; "WY"; "s1"];
            ["data"; "2021-2022"; "WY"; "s1"; "CSV"] ]).

End ExampleStream.

(** ** Corpus Builder, aggregate mode (concat_legiscan_combined.py) *)

(** What the script prints at its end. *)
Inductive combined_report :=
  | NoCsvFiles                                   (* "No CSV files to concatenate" *)
  | WrittenCombined (before after removed : Z).  (* "(before → after rows, removed duplicates removed)" *)

Section Combined.

(** The cells of a frame: any values with an equality; two missing
    values (NaN) are equal cells, as [duplicated] takes them. *)
Context {cell : Type} `{EqDecision cell}.

Record DataFrame := { columns : list string; rows : list (list cell) }.

(** [pd.concat(all_bills, ignore_index=True)]: the frame pandas builds
    from the frames read.  Which cell it puts under a column that a
    frame lacks, and to which type it brings the cells of a column
    (an integer column becomes a float column next to a missing
    value), is pandas' own: the script is embedded for whatever frame
    [pd.concat] returns. *)
Variable concat : list DataFrame → DataFrame.

(** [DataFrame.duplicated()], [keep="first"]: the mask that is true at
    a row equal, in every column, to a row before it; [seen] holds the
    rows before. *)
Fixpoint duplicated_from (seen rest : list (list cell)) : list bool :=
  match rest with
  | [] => []
  | row :: rest' => bool_decide (row ∈ seen) :: duplicated_from (seen ++ [row]) rest'
  end.

Definition duplicated (rs : list (list cell)) : list bool := duplicated_from [] rs.

(** The rows where the mask is false, in order. *)
Definition unmasked (rs : list (list cell)) (mask : list bool) : list (list cell) :=
  (filter (λ rb, rb.2 = false) (zip rs mask)).*1.

(** [combined.drop_duplicates()] *)
Definition drop_duplicates (df : DataFrame) : DataFrame :=
  {| columns := columns df; rows := unmasked (rows df) (duplicated (rows df)) |}.

Variable to_csv : DataFrame → list Byte.byte.
Variable SAVE_PATH : list string.

(** The frames that [pd.read_csv] returned; a file that does not read
    is reported and left out. *)
Definition all_bills (reads : list (DataFrame + error)) : list DataFrame :=
  omap (λ r, match r with inl df => Some df | inr _ => None end) reads.

(** The script, from the results of reading the per-dataset files. *)
Definition concat_legiscan_combined (reads : list (DataFrame + error))
    : M combined_report :=
  match all_bills reads with
  | [] => mret NoCsvFiles
  | frames =>
      let combined := concat frames in
      let before := Z.of_nat (length (rows combined)) in
      let deduplicated := drop_duplicates combined in
      let after := Z.of_nat (length (rows deduplicated)) in
      mkdir_parents (parent SAVE_PATH) ;;
      write_file SAVE_PATH (to_csv deduplicated) ;;
      mret (WrittenCombined before after (before - after)%Z)
  end.

(** A row that is equal, in every column, to a row before it. *)
Definition duplicate_of_earlier (rs : list (list cell)) (i : nat) : Prop :=
  ∃ j row, j < i ∧ rs !! j = Some row ∧ rs !! i = Some row.

End Combined.

#[global] Instance duplicate_of_earlier_dec {cell : Type} `{EqDecision cell}
    (rs : list (list cell)) (i : nat) : Decision (duplicate_of_earlier rs i).
Proof.
  destruct (rs !! i) as [row |] eqn:Hi.
  - destruct (decide (row ∈ take i rs)) as [Hin | Hnin].
    + left. apply list_elem_of_lookup in Hin as [j Hj].
      apply lookup_take_Some in Hj as [Hj Hlt]. by exists j, row.
    + right. intros (j & row' & Hlt & Hj & Hi'). apply Hnin.
      assert (row' = row) as -> by congruence.
      apply list_elem_of_lookup. exists j. by apply lookup_take_Some.
  - right. intros (j & row & _ & _ & Hi'). congruence.
Defined.

(** *** Example data: two per-dataset files that share a row *)

Module ExampleCombined.

Definition ak : @DataFrame (option string) :=
  {| columns := ["state"; "bill_id"; "sponsor_count"];
     rows := [ [Some "AK"; Some "1"; Some "2"]; [Some "AK"; Some "2"; Some "1"] ] |}.

Definition ak_again : @DataFrame (option string) :=
  {| columns := ["state"; "bill_id"; "sponsor_count"];
     rows := [ [Some "AK"; Some "2"; Some "1"]; [Some "AK"; Some "2"; Some "3"];
               [Some "AK"; Some "1"; Some "2"] ] |}.

Definition to_csv (df : @DataFrame (option string)) : list Byte.byte :=
  list_byte_of_string
    (join "" (map (λ row, String.append (join "," (map csv_field row)) (String "010"%char ""))
                (map (map Some) [columns df] ++ rows df))).

Definition SAVE_PATH : list string := ["out"; "all_bills_2021_2026.csv"].

(** What [pd.concat] returns for frames that all have the columns of
    the first, with cells of the same type: those columns, and the
    rows of the frames in order. *)
Definition concat_same_columns (frames : list (@DataFrame (option string)))
    : @DataFrame (option string) :=
  {| columns := match frames with [] => [] | df :: _ => columns df end;
     rows := flat_map rows frames |}.

Definition fs : filesystem := {[ [] := Dir ]}.

End ExampleCombined.

(** *** What extraction leaves of the nodes that are there *)

(** A node is kept as the kind it is. *)
Definition same_kind (x y : node) : Prop :=
  match x, y with
  | Dir, Dir => True
  | File _, File _ => True
  | _, _ => False
  end.

(** The non-junk file members of an archive that are written to [p]. *)
Definition written_to (cwd : list string) (dest : PurePath) (p : list string)
    (m : ZipInfo) : Prop :=
  is_junk m = false ∧ ZipInfo_is_dir m = false ∧ out_path cwd dest m = p.



(** *** Example data: an archive that holds one dataset *)

Module ExampleDatasetArchive.

Definition members : list ZipInfo :=
  mkZipInfo "AK/" []
  :: map (λ f, mkZipInfo (String.append "AK/s1/csv/" f) [Byte.x61]) REQUIRED_FILES.

End ExampleDatasetArchive.

(** *** [main] of scripts/join_legiscan_csvs.py *)

Module JoinCsvsMain.
Section Implementation.

Context {ident : Type} `{EqDecision ident}.
Variable ident_compare : ident → ident → comparison.
Variable read_tables : list string → filesystem → @dataset ident + error.
Variable to_csv : list (@output_row ident) → list Byte.byte.
Variable out_dir : list string.

(** "If target itself is a csv dir, process just that one", else the
    directories discovered below it; [target] is resolved. *)
Definition csv_dirs (target : list string) (fs : filesystem) : list (list string) :=
  if has_required_files target fs then [target] else discover_csv_dirs target fs.

(** [main()] from the resolved target on: [None] is [sys.exit(1)],
    taken when there is no dataset. *)
Definition main (target : list string) (fs : filesystem)
    : option (list log_line * filesystem) :=
  match csv_dirs target fs with
  | [] => None
  | dirs => Some (JoinCsvs.main_loop ident_compare read_tables to_csv out_dir
                    (length dirs) 1 dirs fs)
  end.

End Implementation.
End JoinCsvsMain.

(** The rows that the lines ["  -> out_path (rows rows)"] of a log add up to. *)
Definition rows_written (log : list log_line) : nat :=
  foldr (λ line acc, match line with Wrote _ rows => rows + acc | _ => acc end) 0 log.

(** The numbers ["[i/n]"] of the progress lines of a log. *)
Definition progress_numbers (log : list log_line) : list (nat * nat) :=
  omap (λ line, match line with Progress i n _ => Some (i, n) | _ => None end) log.

(** A line of concat_with_join_legiscan.py as join_legiscan_csvs.py
    prints it: without the row count. *)
Definition without_rows (line : log_line) : log_line :=
  match line with
  | Wrote out_path _ => WroteTo out_path
  | _ => line
  end.

(** *** The order of the rows within a bill *)

(** Sorting on several columns: the first key decides, the next one
    breaks its ties. *)
Definition then_by (c1 c2 : comparison) : comparison :=
  match c1 with
  | Eq => c2
  | c => c
  end.

(** The order [sort_values] sorts by, from the comparison of the keys. *)
Definition leb_of {A} (cmp : A → A → comparison) (a b : A) : bool :=
  match cmp a b with
  | Gt => false
  | _ => true
  end.

(** A comparison of rows by their keys: rows with equal keys compare
    alike with every other row. *)
Record weak_order {A} (cmp : A → A → comparison) : Prop :=
  { wo_refl : ∀ x, cmp x x = Eq;
    wo_antisym : ∀ x y, cmp y x = CompOpp (cmp x y);
    wo_trans : ∀ o x y z, cmp x y = o → cmp y z = o → cmp x z = o;
    wo_eq_l : ∀ o x y z, cmp x y = Eq → cmp y z = o → cmp x z = o;
    wo_eq_r : ∀ o x y z, cmp x y = o → cmp y z = Eq → cmp x z = o }.

(** A comparison of identifiers that is a total order. *)
Record total_order {K} (cmp : K → K → comparison) : Prop :=
  { to_eq : ∀ x y, cmp x y = Eq ↔ x = y;
    to_antisym : ∀ x y, cmp y x = CompOpp (cmp x y);
    to_trans : ∀ o x y z, cmp x y = o → cmp y z = o → cmp x z = o }.

Section RowOrder.

Context {ident : Type}.
Variable ident_compare : ident → ident → comparison.

(** The keys of [merged.sort_values(["bill_id", "position"])]. *)
Definition sponsor_row_compare (a b : @sponsor_row ident) : comparison :=
  then_by (nan_last ident_compare (m_bill_id a) (m_bill_id b))
          (nan_last Z.compare (m_position a) (m_position b)).

(** The keys of [history.sort_values(["bill_id", "date", "sequence"])]. *)
Definition history_compare (a b : @history_event ident) : comparison :=
  then_by (nan_last ident_compare (h_bill_id a) (h_bill_id b))
          (then_by (nan_last String.compare (date a) (date b))
                   (nan_last Z.compare (sequence a) (sequence b))).

End RowOrder.

(** Within a bill: by position, rows without a position last. *)
Definition position_leb {ident} (a b : @sponsor_row ident) : bool :=
  leb_of (λ a b, nan_last Z.compare (m_position a) (m_position b)) a b.

(** Within a bill: by date, then by sequence. *)
Definition chronological_leb {ident} (a b : @history_event ident) : bool :=
  leb_of (λ a b, then_by (nan_last String.compare (date a) (date b))
                         (nan_last Z.compare (sequence a) (sequence b))) a b.

(** *** What the output of a streaming run looks like *)

Section StreamOutput.

Variable root_dir : PurePath.

(** A row that ends with the state code of one of the inputs. *)
Definition tagged_by (inputs : list (list string)) (row : list string) : Prop :=
  ∃ k state, k ∈ inputs ∧ parents_2_state (parts root_dir ++ k) = Some state ∧
             List.last row "" = state.

(** Nothing written and nothing counted before the first header; then
    one header row, the first that was read with a [state] column
    appended, followed by as many rows as were counted, each tagged. *)
Definition well_formed_output (inputs : list (list string)) (rows : list (list string))
    (total : nat) : Prop :=
  match rows with
  | [] => total = 0
  | first :: body =>
      (∃ header, first = header ++ ["state"]) ∧ length body = total ∧
      Forall (tagged_by inputs) body
  end.

End StreamOutput.

(** *** Example data: two bills files with different headers *)

Module ExampleHeaders.

Definition fs : filesystem :=
  list_to_map
    ([ (["data"; "2021-2022"; "WY"; "s1"; "CSV"; "bills.csv"],
        ExampleStream.file [["id"; "name"; "status"]; ["7"; "Water"; "1"]]);
       (["data"; "2021-2022"; "AK"; "s1"; "CSV"; "bills.csv"],
        ExampleStream.file [["bill_id"; "title"]; ["1"; "Roads"]]) ]
     ++ map (λ p, (p, Dir))
          [ []; ["data"]; ["data"; "2021-2022"];
            ["data"; "2021-2022"; "AK"]; ["data"; "2021-2022"; "AK"; "s1"];
            ["data"; "2021-2022"; "AK"; "s1"; "CSV"];
            ["data"; "2021-2022"; "WY"]; ["data"; "2021-2022"; "WY"; "s1"];
            ["data"; "2021-2022"; "WY"; "s1"; "CSV"] ]).

End ExampleHeaders.

(** ** [main] of concat_with_join_legiscan.py *)

(** What the concatenation at the end of [main] prints. *)
Inductive sessions_report :=
  | NoSessionCsvs                        (* "No session CSVs found to concatenate" *)
  | WrittenSessions (concat_rows : nat) (errors : list (list string * error)).
                                         (* "Error processing ...", "Written combined CSV to ..." *)

(** How [main] ends: with [sys.exit(1)], or after the loop over the
    datasets and the concatenation. *)
Inductive main_result :=
  | Exit1
  | Finished (log : list log_line) (total_rows : nat) (report : sessions_report).

Section ConcatSessions.

Variable csv_reader : list Byte.byte → list (list string) * bool.
Variable csv_writer : list (list string) → list Byte.byte.

(** [sorted(OUTPUT_DIR.glob("*.csv"))]: the entries of the directory
    whose name ends with [".csv"], in the order of paths. *)
Definition glob_csv (dir : list string) (fs : filesystem) : list (list string) :=
  merge_sort path_le
    (filter (λ p, is_dir dir fs = true ∧ p ≠ [] ∧ parent p = dir ∧
                  endswith (List.last p "") ".csv" = true)
            (map_to_list fs).*1).

(** The body of the loop for the file at [csv_path]: its header is
    written if none was written yet, its other rows are appended. *)
Definition concat_session_file (fs : filesystem) (st : writer_state)
    (csv_path : list string) : writer_state :=
  match fs !! csv_path with
  | None => with_error st csv_path FileNotFoundError
  | Some Dir => with_error st csv_path OSError
  | Some (File bytes) =>
      let '(rows, raises) := csv_reader bytes in
      match rows with
      | [] => with_error st csv_path (if raises then ParserError else StopIteration)
      | header :: data =>
          {| header_written := true;
             written := written st
                        ++ (if header_written st then [] else [header])
                        ++ data;
             total_rows := total_rows st + length data;
             errors := if raises then errors st ++ [(csv_path, ParserError)]
                       else errors st |}
      end
  end.

(** The loop, once [COMBINED_PATH] is open for writing. *)
Definition copy_sessions (COMBINED_PATH : list string) (csv_paths : list (list string))
    : M sessions_report :=
  λ fs,
    let st := foldl (concat_session_file fs) writer_start csv_paths in
    (inl (WrittenSessions (total_rows st) (errors st)),
     <[ COMBINED_PATH := File (csv_writer (written st)) ]> fs).

(** "Concatenate all session CSVs into a single file" *)
Definition concat_sessions (OUTPUT_DIR COMBINED_PATH : list string) : M sessions_report :=
  λ fs,
    match glob_csv OUTPUT_DIR fs with
    | [] => (inl NoSessionCsvs, fs)
    | csv_paths =>
        (mkdir_parents (parent COMBINED_PATH) ;;
         write_file COMBINED_PATH [] ;;
         copy_sessions COMBINED_PATH csv_paths) fs
    end.

(** The rows [csv.reader] yields for the file at a path. *)
Definition rows_of (fs : filesystem) (csv_path : list string) : list (list string) :=
  match fs !! csv_path with
  | Some (File bytes) => (csv_reader bytes).1
  | _ => []
  end.

(** A file that reads without error and has a header. *)
Definition reads_well (fs : filesystem) (csv_path : list string) : Prop :=
  ∃ bytes header data, fs !! csv_path = Some (File bytes) ∧
                       csv_reader bytes = (header :: data, false).

End ConcatSessions.

Module ConcatWithJoinMain.
Section Implementation.

Context {ident : Type} `{EqDecision ident}.
Variable ident_compare : ident → ident → comparison.
Variable read_tables : list string → filesystem → @dataset ident + error.
Variable to_csv : list (@output_row ident) → list Byte.byte.
Variable cwd : list string.
Variable infolist : list Byte.byte → option (list ZipInfo).
Variable csv_reader : list Byte.byte → list (list string) * bool.
Variable csv_writer : list (list string) → list Byte.byte.
Variables OUTPUT_DIR COMBINED_PATH : list string.

(** [discover_csv_dirs(root_dir)] as path objects: the directories
    found, each as [root_dir] followed by its path below the root. *)
Definition found_under (root_dir : PurePath) (fs : filesystem) : list (list string) :=
  map (λ d, parts root_dir ++ drop (length (resolve cwd root_dir)) d)
      (discover_csv_dirs (resolve cwd root_dir) fs).

(** "Gather all csv dirs across all inputs".  An input comes with the
    modification times that [stat] reports when it is resolved; its
    name does not start with a tilde. *)
Fixpoint gather (filenames : list (PurePath * (list string → Z))) (fs : filesystem)
    : (list (list string) + error) * filesystem :=
  match filenames with
  | [] => (inl [], fs)
  | (input_path, st_mtime) :: rest =>
      match resolve_root_dir cwd infolist st_mtime input_path fs with
      | (inr e, fs1) => (inr e, fs1)
      | (inl root_dir, fs1) =>
          match gather rest fs1 with
          | (inr e, fs2) => (inr e, fs2)
          | (inl more, fs2) => (inl (found_under root_dir fs1 ++ more), fs2)
          end
      end
  end.

(** [main()] *)
Definition main (filenames : list (PurePath * (list string → Z))) : M main_result :=
  λ fs,
    match gather filenames fs with
    | (inr e, fs1) => (inr e, fs1)
    | (inl [], fs1) => (inl Exit1, fs1)
    | (inl csv_dirs, fs1) =>
        let '(log, total, fs2) :=
          ConcatWithJoin.main_loop ident_compare read_tables to_csv OUTPUT_DIR
            (length csv_dirs) 1 csv_dirs 0 fs1 in
        match concat_sessions csv_reader csv_writer OUTPUT_DIR COMBINED_PATH fs2 with
        | (inl report, fs3) => (inl (Finished log total report), fs3)
        | (inr e, fs3) => (inr e, fs3)
        end
    end.

End Implementation.
End ConcatWithJoinMain.

(** ** [derive_output_path] and [main] of concat_bills.py *)

(** How [main] ends: with "Stopping." and [sys.exit(0)], or after the
    concatenation. *)
Inductive bills_result :=
  | Stopping
  | Concatenated (report : stream_report).

Module ConcatBills.
Section Implementation.

Variable cwd : list string.
Variable infolist : list Byte.byte → option (list ZipInfo).
Variable csv_reader : list Byte.byte → list (list string) * bool.
Variable csv_writer : list (list string) → list Byte.byte.

(** [input_path.with_suffix("").name] for a path with the suffix
    [".zip"], [input_path.name] otherwise. *)
Definition base_name (input_path : PurePath) : string :=
  if String.eqb (path_suffix input_path) ".zip"
  then match with_suffix input_path "" with
       | Some p => path_name p
       | None => ""
       end
  else path_name input_path.

(** [derive_output_path(input_path)]:
    [input_path.parent / f"concatenated-{base_name}" / "all-bills.csv"],
    two more components after those of the parent. *)
Definition derive_output_path (input_path : PurePath) : PurePath :=
  {| absolute := absolute input_path;
     parts := removelast (parts input_path)
              ++ [String.append "concatenated-" (base_name input_path); "all-bills.csv"] |}.

(** [main()], from the arguments: the input path (its name does not
    start with a tilde), [--overwrite], and [confirm], what the user
    answers to "Overwrite? (y/n): " once stripped and in lower case. *)
Definition main (input_path : PurePath) (overwrite : bool) (confirm : string)
    (st_mtime : list string → Z) : M bills_result :=
  λ fs,
    match resolve_root_dir cwd infolist st_mtime input_path fs with
    | (inr e, fs1) => (inr e, fs1)
    | (inl root_dir, fs1) =>
        let output_path := derive_output_path input_path in
        if exists_ (resolve cwd output_path) fs1 && negb overwrite
           && negb (String.eqb confirm "y")
        then (inl Stopping, fs1)
        else match stream_concat cwd csv_reader csv_writer root_dir output_path fs1 with
             | (inl report, fs2) => (inl (Concatenated report), fs2)
             | (inr e, fs2) => (inr e, fs2)
             end
    end.

End Implementation.
End ConcatBills.

(** * Properties *)

(** A decidable proposition about concrete data, settled by evaluation. *)
Ltac by_evaluation := apply (bool_decide_unpack _); vm_compute; reflexivity.

(** [has_key] for a concrete table whose first row carries the key. *)
Ltac first_row_has_key :=
  eexists; split; [apply list_elem_of_here | eexists; reflexivity].

(** ** The embedding on small inputs *)

Example Path_keeps_dotdot :
  Path "AK/./csv//../bills.csv" = mkPath false ["AK"; "csv"; ".."; "bills.csv"].
Proof. reflexivity. Qed.

Example resolve_pops_dotdot :
  resolve ["home"; "user"] (Path "data/AK/../../../evil.csv") = ["home"; "evil.csv"] ∧
  resolve ["home"; "user"] (Path "/../../etc/passwd") = ["etc"; "passwd"].
Proof. split; reflexivity. Qed.

Example absolute_member_replaces_destination :
  joinpath (Path "/data/2021-2022") (Path "/etc/passwd") = Path "/etc/passwd".
Proof. reflexivity. Qed.

Example with_suffix_replaces_last_suffix :
  with_suffix (Path "/data/2021-2022.zip") "" = Some (Path "/data/2021-2022") ∧
  with_suffix (Path "/data/2021-2022") ".zip" = Some (Path "/data/2021-2022.zip") ∧
  with_suffix (Path "/data/v1.2") ".zip" = Some (Path "/data/v1.zip") ∧
  with_suffix (Path "/") ".zip" = None.
Proof. split_and!; reflexivity. Qed.

Example with_suffix_can_leave_a_dot :
  with_suffix (Path "/data/..zip") "" = Some (mkPath true ["data"; "."]) ∧
  resolve ["home"] (mkPath true ["data"; "."]) = ["data"] ∧
  resolve ["home"] (joinpath (mkPath true ["data"; "."]) (Path "AK/bills.csv"))
  = ["data"; "AK"; "bills.csv"].
Proof. split_and!; reflexivity. Qed.

Example rmtree_of_a_path_that_ends_in_a_dot :
  let fs : filesystem :=
    {[ [] := Dir; ["data"] := Dir; ["data"; "..zip"] := File [];
       ["data"; "keep.txt"] := File []; ["other.txt"] := File [] ]} in
  let run := rmtree ["home"] (mkPath true ["data"; "."]) fs in
  path_exists ["home"] (mkPath true ["data"; "."]) fs = true ∧
  run.1 = inr OSError ∧
  run.2 !! ["data"] = Some Dir ∧
  run.2 !! ["data"; "..zip"] = None ∧
  run.2 !! ["data"; "keep.txt"] = None ∧
  run.2 !! ["other.txt"] = Some (File []).
Proof. split_and!; vm_compute; reflexivity. Qed.

Example rmtree_of_a_directory :
  let fs : filesystem :=
    {[ [] := Dir; ["data"] := Dir; ["data"; "old"] := Dir;
       ["data"; "old"; "a.csv"] := File []; ["data"; "old.zip"] := File [] ]} in
  let run := rmtree ["home"] (Path "/data/old") fs in
  run.1 = inl tt ∧
  run.2 !! ["data"; "old"] = None ∧
  run.2 !! ["data"; "old"; "a.csv"] = None ∧
  run.2 !! ["data"; "old.zip"] = Some (File []).
Proof. split_and!; vm_compute; reflexivity. Qed.

Example letters_only_strips :
  letters_only "AK-2021" = "AK" ∧ letters_only "2021-2022" = "" ∧ letters_only "N.Y." = "NY".
Proof. split_and!; reflexivity. Qed.

Example join_with_delimiter :
  join " | " ["Ann Lee"; "Bob Ray"] = "Ann Lee | Bob Ray" ∧ join " | " [] = "".
Proof. split; reflexivity. Qed.

Example sort_values_is_stable :
  sort_values (λ a b : nat * string, a.1 <=? b.1)%nat [(2, "x"); (1, "y"); (2, "z"); (1, "w")]
  = [(1, "y"); (1, "w"); (2, "x"); (2, "z")].
Proof. reflexivity. Qed.

Example unique_keeps_first_occurrences :
  unique ["Introduced"; "Amended"; "Introduced"; "Enrolled"; "Amended"]
  = ["Introduced"; "Amended"; "Enrolled"].
Proof. vm_compute. reflexivity. Qed.

Example int64_wraps :
  int64 (2 ^ 63) = (- 2 ^ 63)%Z ∧ int64 51 = 51%Z ∧ int64 (- 1) = (- 1)%Z.
Proof. split_and!; reflexivity. Qed.

Example path_order_is_by_component :
  path_compare ["a"; "b"] ["a-b"] = Lt ∧ path_compare ["AK"; "s1"] ["AK"] = Gt.
Proof. split; reflexivity. Qed.

(** ** Safe Extractor *)

Lemma untouched_outside_refl dest fs : untouched_outside dest fs fs.
Proof. intros p _. by left. Qed.

Lemma untouched_outside_trans dest fs1 fs2 fs3 :
  untouched_outside dest fs1 fs2 →
  untouched_outside dest fs2 fs3 →
  untouched_outside dest fs1 fs3.
Proof.
  intros H12 H23 p Hp.
  destruct (H12 p Hp) as [E12 | (N1 & D2 & Hpre)];
    destruct (H23 p Hp) as [E23 | (N2 & D3 & Hpre')].
  - left. congruence.
  - right. split_and!; [congruence | done | done].
  - right. split_and!; [done | congruence | done].
  - congruence.
Qed.

(** No file outside the destination is created, changed or removed. *)
Lemma untouched_outside_files dest fs fs' p data :
  untouched_outside dest fs fs' →
  ¬ dest `prefix_of` p →
  fs' !! p = Some (File data) ↔ fs !! p = Some (File data).
Proof.
  intros H Hp. destruct (H p Hp) as [E | (N & D & _)].
  - by rewrite E.
  - rewrite N, D. split; intros; discriminate.
Qed.

Lemma mkdir_chain_changes rest : ∀ pre fs fs',
  mkdir_chain pre rest fs = Some fs' →
  ∀ p, fs' !! p = fs !! p ∨
       (fs !! p = None ∧ fs' !! p = Some Dir ∧ p `prefix_of` pre ++ rest).
Proof.
  induction rest as [| x rest IH]; intros pre fs fs' Hmk p; simpl in Hmk.
  - left. congruence.
  - destruct (fs !! (pre ++ [x])) as [[| data] |] eqn:Hq; [ | done | ].
    + destruct (IH _ _ _ Hmk p) as [E | (N & D & Hpre)]; [by left |].
      right. by rewrite <- (assoc_L (++)) in Hpre.
    + destruct (IH _ _ _ Hmk p) as [E | (N & D & Hpre)].
      * destruct (decide (p = pre ++ [x])) as [-> | Hne].
        -- right. rewrite E, lookup_insert_eq. split_and!; [done | done |].
           replace (pre ++ x :: rest) with ((pre ++ [x]) ++ rest)
             by (by rewrite <- (assoc_L (++))).
           by apply prefix_app_r.
        -- left. by rewrite E, lookup_insert_ne.
      * rewrite <- (assoc_L (++)) in Hpre.
        destruct (decide (p = pre ++ [x])) as [-> | Hne].
        -- by rewrite lookup_insert_eq in N.
        -- rewrite lookup_insert_ne in N by done. by right.
Qed.

Lemma prefix_removelast {A} (l : list A) : removelast l `prefix_of` l.
Proof.
  induction l as [| a [| b l] IH]; simpl; [done | apply prefix_nil |].
  by apply prefix_cons.
Qed.

Lemma mkdir_parents_untouched dest q out fs r fs' :
  dest `prefix_of` out → q `prefix_of` out →
  mkdir_parents q fs = (r, fs') →
  untouched_outside dest fs fs'.
Proof.
  unfold mkdir_parents. intros Hd Hq Hmk.
  destruct (mkdir_chain [] q fs) as [fs1 |] eqn:Hc; simplify_eq;
    [| apply untouched_outside_refl].
  intros p Hp. destruct (mkdir_chain_changes _ _ _ _ Hc p) as [E | (N & D & Hpre)];
    [by left | right]. split_and!; [done | done |].
  simpl in Hpre.
  destruct (prefix_weak_total p dest out) as [? | ?];
    [by etrans | done | done | done].
Qed.

Lemma write_file_untouched dest out data fs r fs' :
  dest `prefix_of` out →
  write_file out data fs = (r, fs') →
  untouched_outside dest fs fs'.
Proof.
  unfold write_file. intros Hd Hw.
  destruct (fs !! out) as [[| d] |] eqn:Ho; simplify_eq;
    try apply untouched_outside_refl;
    intros p Hp; left; apply lookup_insert_ne; congruence.
Qed.

Lemma extract_member_untouched cwd dest m fs :
  untouched_outside (resolve cwd dest) fs (extract_member cwd dest m fs).2.
Proof.
  unfold extract_member.
  destruct (is_junk m); [apply untouched_outside_refl |].
  destruct (is_within_directory cwd dest (out_path cwd dest m)) eqn:Hw; simpl;
    [| apply untouched_outside_refl].
  unfold is_within_directory in Hw. apply bool_decide_eq_true in Hw.
  destruct (ZipInfo_is_dir m).
  - destruct (mkdir_parents (out_path cwd dest m) fs) as [r fs'] eqn:Hmk.
    eapply mkdir_parents_untouched; [exact Hw | reflexivity | exact Hmk].
  - unfold mbind, M_bind, bind.
    destruct (mkdir_parents (parent (out_path cwd dest m)) fs) as [[[] | e] fs1] eqn:Hmk.
    + eapply untouched_outside_trans.
      * eapply mkdir_parents_untouched; [exact Hw | apply prefix_removelast | exact Hmk].
      * destruct (write_file _ _ fs1) as [r fs'] eqn:Hwr.
        by eapply write_file_untouched.
    + eapply mkdir_parents_untouched; [exact Hw | apply prefix_removelast | exact Hmk].
Qed.

Lemma extract_members_untouched cwd dest ms : ∀ fs,
  untouched_outside (resolve cwd dest) fs (extract_members cwd dest ms fs).2.
Proof.
  induction ms as [| m ms IH]; intros fs; simpl; [apply untouched_outside_refl |].
  unfold mbind, M_bind, bind.
  pose proof (extract_member_untouched cwd dest m fs) as H1.
  destruct (extract_member cwd dest m fs) as [[[] | e] fs1]; simpl in *; [| done].
  eapply untouched_outside_trans; [exact H1 | apply IH].
Qed.

Lemma extract_members_app cwd dest pre post fs :
  extract_members cwd dest (pre ++ post) fs =
  match extract_members cwd dest pre fs with
  | (inl _, fs1) => extract_members cwd dest post fs1
  | (inr e, fs1) => (inr e, fs1)
  end.
Proof.
  revert fs. induction pre as [| m pre IH]; intros fs; simpl; [done |].
  unfold mbind, M_bind, bind.
  destruct (extract_member cwd dest m fs) as [[[] | e] fs1]; [apply IH | done].
Qed.

(** C1 (as the code has it).  An archive holds an entry [m] that is not
    skipped as macOS junk and whose resolved target lies outside the
    destination.  Then safe extraction never completes: when the entries
    before [m] extract, it raises the unsafe-entry error naming [m], with
    the file system as those entries left it, whatever follows [m] in the
    archive; and outside the destination no file is created, changed or
    removed. *)
Theorem safe_extract_zip_unsafe_entry
    (cwd : list string) (infolist : list Byte.byte → option (list ZipInfo))
    (zip_path dest_dir : PurePath) (bytes : list Byte.byte)
    (pre : list ZipInfo) (m : ZipInfo) (post : list ZipInfo) (fs : filesystem) :
  fs !! resolve cwd zip_path = Some (File bytes) →
  infolist bytes = Some (pre ++ m :: post) →
  is_junk m = false →
  is_within_directory cwd dest_dir (out_path cwd dest_dir m) = false →
  (safe_extract_zip cwd infolist zip_path dest_dir fs).1 ≠ inl tt ∧
  ((extract_members cwd dest_dir pre fs).1 = inl tt →
   safe_extract_zip cwd infolist zip_path dest_dir fs
   = (inr (UnsafeEntry (filename m)), (extract_members cwd dest_dir pre fs).2)) ∧
  untouched_outside (resolve cwd dest_dir) fs
    (safe_extract_zip cwd infolist zip_path dest_dir fs).2.
Proof.
  intros Hzip Hms Hjunk Hout. unfold safe_extract_zip. rewrite Hzip, Hms.
  assert (Hm : ∀ fs1, extract_members cwd dest_dir (m :: post) fs1
                      = (inr (UnsafeEntry (filename m)), fs1)).
  { intros fs1. simpl. unfold mbind, M_bind, bind, extract_member.
    by rewrite Hjunk, Hout. }
  split_and!.
  - rewrite extract_members_app.
    destruct (extract_members cwd dest_dir pre fs) as [[[] | e] fs1]; [| done].
    by rewrite Hm.
  - rewrite extract_members_app.
    destruct (extract_members cwd dest_dir pre fs) as [[[] | e] fs1]; [| done].
    intros _. by rewrite Hm.
  - apply extract_members_untouched.
Qed.

Lemma safe_extract_zip_unsafe_entry_witness :
  let fs := ExampleArchive.fs_zip_only in
  let r := safe_extract_zip ExampleArchive.cwd
             (ExampleArchive.infolist_of
                [ExampleArchive.good_dir; ExampleArchive.good_file;
                 ExampleArchive.evil; ExampleArchive.good_file])
             ExampleArchive.zip_path ExampleArchive.dir_path fs in
  r.1 = inr (UnsafeEntry "AK/../../evil.csv") ∧
  r.2 !! ["data"; "evil.csv"] = None ∧
  is_file ["data"; "2021-2022"; "AK"; "2021-2022_32nd_Legislature"; "csv"; "bills.csv"] r.2 = true.
Proof.
  intros fs r.
  destruct (safe_extract_zip_unsafe_entry ExampleArchive.cwd
              (ExampleArchive.infolist_of
                 [ExampleArchive.good_dir; ExampleArchive.good_file;
                  ExampleArchive.evil; ExampleArchive.good_file])
              ExampleArchive.zip_path ExampleArchive.dir_path
              ExampleArchive.zip_bytes
              [ExampleArchive.good_dir; ExampleArchive.good_file]
              ExampleArchive.evil [ExampleArchive.good_file] fs)
    as (_ & Hr & _); [vm_compute; reflexivity .. |].
  subst r fs. rewrite Hr by (vm_compute; reflexivity).
  split_and!; vm_compute; reflexivity.
Defined.

(** C1 as the specification words it fails: an entry with a traversal
    sequence that is also macOS junk escapes the destination, and
    extraction completes without any error. *)
Lemma unsafe_junk_entry_raises_nothing :
  is_within_directory ExampleArchive.cwd ExampleArchive.dir_path
    (out_path ExampleArchive.cwd ExampleArchive.dir_path ExampleArchive.ds_store_escaping)
  = false ∧
  (safe_extract_zip ExampleArchive.cwd
     (ExampleArchive.infolist_of [ExampleArchive.ds_store_escaping])
     ExampleArchive.zip_path ExampleArchive.dir_path ExampleArchive.fs_both).1
  = inl tt.
Proof. split; vm_compute; reflexivity. Qed.

(** C10.  An entry with ["__MACOSX"] among its path components, or whose
    file name ends with [".DS_Store"], is skipped before the containment
    check: processing it raises nothing and leaves the file system as it
    was, so the archive extracts as if the entry were not in it -- also
    when the entry's resolved target is outside the destination. *)
Theorem junk_entry_skipped
    (cwd : list string) (dest_dir : PurePath)
    (pre : list ZipInfo) (m : ZipInfo) (post : list ZipInfo) (fs : filesystem) :
  "__MACOSX" ∈ parts (Path (filename m)) ∨ endswith (filename m) ".DS_Store" = true →
  extract_member cwd dest_dir m fs = (inl tt, fs) ∧
  extract_members cwd dest_dir (pre ++ m :: post) fs
  = extract_members cwd dest_dir (pre ++ post) fs.
Proof.
  intros Hjunk.
  assert (Hj : is_junk m = true).
  { unfold is_junk. destruct Hjunk as [Hin | Hds].
    - by rewrite bool_decide_eq_true_2.
    - rewrite Hds. apply orb_true_r. }
  assert (Hm : ∀ fs1, extract_member cwd dest_dir m fs1 = (inl tt, fs1)).
  { intros fs1. unfold extract_member. by rewrite Hj. }
  split; [apply Hm |].
  rewrite !extract_members_app.
  destruct (extract_members cwd dest_dir pre fs) as [[[] | e] fs1]; [| done].
  simpl. unfold mbind, M_bind, bind. by rewrite Hm.
Qed.

Lemma junk_entry_skipped_witness :
  is_within_directory ExampleArchive.cwd ExampleArchive.dir_path
    (out_path ExampleArchive.cwd ExampleArchive.dir_path ExampleArchive.junk_escaping)
  = false ∧
  extract_member ExampleArchive.cwd ExampleArchive.dir_path
    ExampleArchive.junk_escaping ExampleArchive.fs_both
  = (inl tt, ExampleArchive.fs_both) ∧
  extract_members ExampleArchive.cwd ExampleArchive.dir_path
    ([ExampleArchive.good_dir] ++ ExampleArchive.junk_escaping :: [ExampleArchive.good_file])
    ExampleArchive.fs_both
  = extract_members ExampleArchive.cwd ExampleArchive.dir_path
      ([ExampleArchive.good_dir] ++ [ExampleArchive.good_file]) ExampleArchive.fs_both.
Proof.
  split; [vm_compute; reflexivity |].
  apply (junk_entry_skipped ExampleArchive.cwd ExampleArchive.dir_path
           [ExampleArchive.good_dir] ExampleArchive.junk_escaping
           [ExampleArchive.good_file] ExampleArchive.fs_both).
  left. by_evaluation.
Defined.

(** ** Dataset Discovery *)

Lemma ascii_compare_trans a b c o :
  Ascii.compare a b = o → Ascii.compare b c = o → Ascii.compare a c = o.
Proof.
  unfold Ascii.compare. intros <-.
  destruct (N.compare_spec (Ascii.N_of_ascii a) (Ascii.N_of_ascii b)) as [E | L | G]; intros H.
  - by rewrite E.
  - exact (N.lt_trans _ _ _ L H).
  - apply N.compare_gt_iff. apply N.compare_gt_iff in H.
    exact (N.lt_trans _ _ _ H G).
Qed.

Lemma ascii_compare_eq a b : Ascii.compare a b = Eq ↔ a = b.
Proof.
  split; [apply Ascii.compare_eq_iff |].
  intros ->. unfold Ascii.compare. apply N.compare_refl.
Qed.

Lemma string_compare_trans o : ∀ s1 s2 s3,
  String.compare s1 s2 = o → String.compare s2 s3 = o → String.compare s1 s3 = o.
Proof.
  induction s1 as [| a s1 IH]; intros [| b s2] [| c s3]; simpl; try congruence.
  destruct (Ascii.compare a b) eqn:Hab, (Ascii.compare b c) eqn:Hbc;
    try congruence.
  - apply ascii_compare_eq in Hab, Hbc. subst.
    rewrite (proj2 (ascii_compare_eq c c) eq_refl). apply IH.
  - apply ascii_compare_eq in Hab. subst. by rewrite Hbc.
  - apply ascii_compare_eq in Hab. subst. by rewrite Hbc.
  - apply ascii_compare_eq in Hbc. subst. by rewrite Hab.
  - by rewrite (ascii_compare_trans _ _ _ _ Hab Hbc).
  - apply ascii_compare_eq in Hbc. subst. by rewrite Hab.
  - by rewrite (ascii_compare_trans _ _ _ _ Hab Hbc).
Qed.

Lemma string_compare_eq s1 s2 : String.compare s1 s2 = Eq ↔ s1 = s2.
Proof.
  split; [apply String.compare_eq_iff |].
  intros ->. induction s2 as [| a s IH]; simpl; [done |].
  by rewrite (proj2 (ascii_compare_eq a a) eq_refl).
Qed.

Section LexCompare.

Context {A : Type} (cmp : A → A → comparison).
Hypothesis cmp_eq : ∀ x y, cmp x y = Eq ↔ x = y.
Hypothesis cmp_antisym : ∀ x y, cmp x y = CompOpp (cmp y x).
Hypothesis cmp_trans : ∀ o x y z, cmp x y = o → cmp y z = o → cmp x z = o.

Lemma lex_compare_antisym : ∀ l1 l2,
  lex_compare cmp l1 l2 = CompOpp (lex_compare cmp l2 l1).
Proof.
  induction l1 as [| x l1 IH]; intros [| y l2]; simpl; try done.
  rewrite (cmp_antisym x y). destruct (cmp y x); simpl; [apply IH | done | done].
Qed.

Lemma lex_compare_eq : ∀ l1 l2, lex_compare cmp l1 l2 = Eq ↔ l1 = l2.
Proof.
  induction l1 as [| x l1 IH]; intros [| y l2]; simpl; try done.
  destruct (cmp x y) eqn:Hxy.
  - apply cmp_eq in Hxy as ->. rewrite IH. split; congruence.
  - split; [done |]. intros [= -> _]. by rewrite (proj2 (cmp_eq y y)) in Hxy.
  - split; [done |]. intros [= -> _]. by rewrite (proj2 (cmp_eq y y)) in Hxy.
Qed.

Lemma lex_compare_trans o : ∀ l1 l2 l3,
  lex_compare cmp l1 l2 = o → lex_compare cmp l2 l3 = o → lex_compare cmp l1 l3 = o.
Proof.
  induction l1 as [| x l1 IH]; intros [| y l2] [| z l3]; simpl; try congruence.
  destruct (cmp x y) eqn:Hxy, (cmp y z) eqn:Hyz; try congruence.
  - apply cmp_eq in Hxy, Hyz. subst. rewrite (proj2 (cmp_eq z z) eq_refl). apply IH.
  - apply cmp_eq in Hxy. subst. by rewrite Hyz.
  - apply cmp_eq in Hxy. subst. by rewrite Hyz.
  - apply cmp_eq in Hyz. subst. by rewrite Hxy.
  - by rewrite (cmp_trans _ _ _ _ Hxy Hyz).
  - apply cmp_eq in Hyz. subst. by rewrite Hxy.
  - by rewrite (cmp_trans _ _ _ _ Hxy Hyz).
Qed.

End LexCompare.

#[global] Instance path_le_total : Total path_le.
Proof.
  intros p q. unfold path_le, path_compare.
  rewrite (lex_compare_antisym _ String.compare_antisym q p).
  destruct (lex_compare String.compare p q); simpl; auto.
Qed.

#[global] Instance path_le_trans : Transitive path_le.
Proof.
  intros p q r. unfold path_le, path_compare. intros Hpq Hqr.
  destruct (lex_compare String.compare p q) eqn:E1; [| | done].
  - apply (lex_compare_eq _ string_compare_eq) in E1. by subst.
  - destruct (lex_compare String.compare q r) eqn:E2; [| | done].
    + apply (lex_compare_eq _ string_compare_eq) in E2. subst. by rewrite E1.
    + by rewrite (lex_compare_trans _ string_compare_eq string_compare_trans
                    _ _ _ _ E1 E2).
Qed.

Lemma walk_dirs_spec (fs : filesystem) (rest : list string) : ∀ pre : list string,
  walk_dirs pre rest fs = true ↔
  ∀ j, j < length rest → fs !! (pre ++ take j rest) = Some Dir.
Proof.
  induction rest as [| x rest IH]; intros pre; simpl.
  - split; [intros _ j Hj; lia | done].
  - rewrite andb_true_iff, IH. unfold is_dir. rewrite bool_decide_eq_true. split.
    + intros [H0 Hrest] [| j] Hj; simpl.
      * by rewrite app_nil_r.
      * rewrite (cons_middle x), (assoc_L (++)). apply Hrest. lia.
    + intros H. split.
      * assert (H0 : 0 < S (length rest)) by lia.
        apply H in H0. simpl in H0. by rewrite app_nil_r in H0.
      * intros j Hj. assert (HS : S j < S (length rest)) by lia.
        apply H in HS. simpl in HS.
        by rewrite (cons_middle x), (assoc_L (++)) in HS.
Qed.

Lemma elem_of_rglob_star (root : list string) (fs : filesystem) (p : list string) :
  p ∈ rglob_star root fs ↔
  is_Some (fs !! p) ∧
  ∃ k, k ≠ [] ∧ p = root ++ k ∧
       ∀ j, j < length k → fs !! (root ++ take j k) = Some Dir.
Proof.
  unfold rglob_star. rewrite list_elem_of_filter, list_elem_of_fmap. split.
  - intros [([k Hk] & Hne & Hwalk) ([p' x] & Hp & Hin)].
    apply elem_of_map_to_list in Hin. simpl in *. subst p' p.
    rewrite drop_app_length in Hwalk. split; [by eexists |].
    exists k. split_and!; [| done | by apply walk_dirs_spec].
    intros ->. by rewrite app_nil_r in Hne.
  - intros [[x Hx] (k & Hk & -> & Hwalk)]. split.
    + split_and!; [by apply prefix_app_r | |].
      * intros H. apply Hk. rewrite <- (app_nil_r root) in H at 2.
        by apply (inj (app root)) in H.
      * rewrite drop_app_length. by apply walk_dirs_spec.
    + exists (root ++ k, x). split; [done |]. by apply elem_of_map_to_list.
Qed.

Lemma has_required_files_spec (fs : filesystem) (d : list string) :
  has_required_files d fs = true ↔ contains_required_files fs d.
Proof.
  unfold has_required_files, contains_required_files.
  rewrite forallb_forall. split.
  - intros H f Hf. apply list_elem_of_In in Hf. specialize (H f Hf).
    unfold is_file in H. destruct (fs !! (d ++ [f])) as [[| data] |]; try done.
    by exists data.
  - intros H f Hf. apply list_elem_of_In in Hf. destruct (H f Hf) as [data Hd].
    unfold is_file. by rewrite Hd.
Qed.

(** C6 (as the code has it).  Dataset Discovery returns a directory
    exactly when it is a subdirectory of the root that directly
    contains each of the six required files as a file; the result is
    sorted in the order of paths (component by component) and lists no
    directory twice.  The root itself is not visited, so it is never in
    the result. *)
Theorem discover_csv_dirs_spec (root : list string) (fs : filesystem) :
  (∀ d, d ∈ discover_csv_dirs root fs ↔
        subdirectory_of root fs d ∧ contains_required_files fs d) ∧
  (root ∉ discover_csv_dirs root fs) ∧
  StronglySorted path_le (discover_csv_dirs root fs) ∧
  NoDup (discover_csv_dirs root fs).
Proof.
  assert (Hiff : ∀ d, d ∈ discover_csv_dirs root fs ↔
                      subdirectory_of root fs d ∧ contains_required_files fs d).
  { intros d. unfold discover_csv_dirs.
    rewrite merge_sort_Permutation, list_elem_of_filter,
      elem_of_rglob_star, has_required_files_spec.
    unfold is_dir, subdirectory_of. rewrite bool_decide_eq_true. split.
    - intros [[Hd Hreq] [_ (k & Hk & -> & Hwalk)]]. split; [| done].
      by exists k.
    - intros [(k & Hk & -> & Hwalk & Hd) Hreq]. split_and!; [done | done | by eexists |].
      by exists k. }
  split_and!.
  - exact Hiff.
  - intros [(k & Hk & Heq & _) _]%Hiff. apply Hk.
    rewrite <- (app_nil_r root) in Heq at 1. by apply (inj (app root)) in Heq.
  - apply (StronglySorted_merge_sort _).
  - unfold discover_csv_dirs. rewrite merge_sort_Permutation. apply NoDup_filter.
    unfold rglob_star. apply NoDup_filter, NoDup_fst_map_to_list.
Qed.

Lemma discover_csv_dirs_spec_witness :
  discover_csv_dirs ["d"] ExampleTree.fs
  = [["d"; "AK"; "s1"; "csv"]; ["d"; "WY"; "s1"; "csv"]] ∧
  subdirectory_of ["d"] ExampleTree.fs ["d"; "AK"; "s1"; "csv"] ∧
  contains_required_files ExampleTree.fs ["d"; "AK"; "s1"; "csv"] ∧
  ¬ contains_required_files ExampleTree.fs ["d"; "AK"; "s2"; "csv"].
Proof.
  destruct (discover_csv_dirs_spec ["d"] ExampleTree.fs) as (Hiff & _ & _ & _).
  split; [vm_compute; reflexivity |].
  split_and!.
  - apply (proj1 (Hiff ["d"; "AK"; "s1"; "csv"])).
    by_evaluation.
  - apply (proj1 (Hiff ["d"; "AK"; "s1"; "csv"])).
    by_evaluation.
  - intros Hreq.
    assert (Hin : ["d"; "AK"; "s2"; "csv"] ∈ discover_csv_dirs ["d"] ExampleTree.fs).
    { apply (proj2 (Hiff ["d"; "AK"; "s2"; "csv"])). split; [| exact Hreq].
      exists ["AK"; "s2"; "csv"]. split_and!.
      - discriminate.
      - reflexivity.
      - intros j Hj. simpl in Hj.
        destruct j as [| [| [| j]]]; [vm_compute; reflexivity .. | lia].
      - vm_compute. reflexivity. }
    apply (bool_decide_pack _) in Hin. vm_compute in Hin. exact Hin.
Defined.

(** C6 as the specification words it fails: a root directory that
    itself holds the six required files is a directory that directly
    contains them, and Dataset Discovery run on it returns nothing. *)
Lemma discover_csv_dirs_leaves_out_root :
  let fs := ExampleTree.dataset_at ["d"] {[ [] := Dir ]} in
  fs !! ["d"] = Some Dir ∧
  contains_required_files fs ["d"] ∧
  discover_csv_dirs ["d"] fs = [].
Proof.
  intros fs. split_and!.
  - vm_compute. reflexivity.
  - apply has_required_files_spec. vm_compute. reflexivity.
  - vm_compute. reflexivity.
Qed.

(** ** Per-Bill Aggregator *)

Lemma insert_sorted_Permutation {A} (leb : A → A → bool) x l :
  insert_sorted leb x l ≡ₚ x :: l.
Proof.
  induction l as [| y l IH]; simpl; [done |].
  destruct (leb x y); [done |]. rewrite IH. apply Permutation_swap.
Qed.

Lemma sort_values_Permutation {A} (leb : A → A → bool) l :
  sort_values leb l ≡ₚ l.
Proof.
  induction l as [| x l IH]; simpl; [done |].
  unfold sort_values in IH. by rewrite insert_sorted_Permutation, IH.
Qed.

Lemma elem_of_unique {A} `{EqDecision A} (l : list A) x : x ∈ unique l ↔ x ∈ l.
Proof.
  induction l as [| y l IH]; simpl; [done |].
  rewrite !elem_of_cons, list_elem_of_filter, IH.
  destruct (decide (x = y)); tauto.
Qed.

Lemma NoDup_unique {A} `{EqDecision A} (l : list A) : NoDup (unique l).
Proof.
  induction l as [| y l IH]; simpl; constructor.
  - rewrite list_elem_of_filter. tauto.
  - by apply NoDup_filter.
Qed.

Lemma assoc_map_key {K B} `{EqDecision K} (g : K → B) (k : K) (l : list K) :
  assoc k (map (λ k', (k', g k')) l) = if decide (k ∈ l) then Some (g k) else None.
Proof.
  induction l as [| k' l IH].
  - by rewrite decide_False by apply not_elem_of_nil.
  - cbn [map assoc]. destruct (decide (k' = k)) as [-> | Hne].
    + by rewrite (decide_True (P := k ∈ k :: l)) by apply list_elem_of_here.
    + rewrite IH. destruct (decide (k ∈ l)) as [Hin | Hnin].
      * by rewrite decide_True by (by apply list_elem_of_further).
      * rewrite decide_False; [done |]. rewrite elem_of_cons. intuition congruence.
Qed.

Section AggregatorProperties.

Context {ident : Type} `{EqDecision ident}.

Lemma has_key_omap {R} (key : R → option ident) (rows : list R) :
  has_key key rows ↔ omap key rows ≠ [].
Proof.
  unfold has_key. split.
  - intros (r & Hin & [k Hk]) Hnil.
    assert (k ∈ omap key rows) as Hk' by (apply list_elem_of_omap; eauto).
    rewrite Hnil in Hk'. by apply not_elem_of_nil in Hk'.
  - destruct (omap key rows) as [| k l] eqn:E; [done |]. intros _.
    assert (k ∈ omap key rows) as Hk by (rewrite E; apply list_elem_of_here).
    apply list_elem_of_omap in Hk as (r & Hin & Hk). eauto.
Qed.

Lemma has_key_Permutation {R} (key : R → option ident) (l1 l2 : list R) :
  l1 ≡ₚ l2 → has_key key l1 → has_key key l2.
Proof. intros HP (r & Hin & Hk). exists r. by rewrite <- HP. Qed.

(** The row of an aggregate for a key: the aggregation of the rows
    with that key, when there is one. *)
Lemma assoc_groupby {R B} (key : R → option ident) (agg : list R → B) rows k :
  assoc k (map (λ kg, (kg.1, agg kg.2)) (groupby key rows))
  = if decide (Some k ∈ map key rows)
    then Some (agg (filter (λ r, key r = Some k) rows)) else None.
Proof.
  unfold groupby. rewrite map_map. simpl.
  rewrite (assoc_map_key (λ k', agg (filter (λ r, key r = Some k') rows))).
  assert (k ∈ unique (omap key rows) ↔ Some k ∈ map key rows) as Hiff.
  { rewrite elem_of_unique, list_elem_of_omap, list_elem_of_fmap.
    split; intros (r & ? & ?); exists r; done. }
  destruct (decide (k ∈ unique (omap key rows))), (decide (Some k ∈ map key rows));
    tauto.
Qed.

Lemma groupby_nil {R} (key : R → option ident) rows :
  groupby key rows = [] ↔ ¬ has_key key rows.
Proof.
  rewrite has_key_omap. unfold groupby.
  destruct (omap key rows) as [| k l]; simpl; split.
  - intros _ Hne. by apply Hne.
  - done.
  - discriminate.
  - intros Hn. exfalso. by apply Hn.
Qed.

Lemma filter_nil_not_elem {R} (key : R → option ident) rows k :
  Some k ∉ map key rows → filter (λ r, key r = Some k) rows = [].
Proof.
  intros Hnin. induction rows as [| r rows IH]; [done |].
  rewrite filter_cons. simpl in Hnin. rewrite not_elem_of_cons in Hnin.
  destruct Hnin as [Hne Hnin]. rewrite decide_False by done. by apply IH.
Qed.

Lemma referencing_Some {R} (key : R → option ident) (b : bill) (rows : list R) k :
  bill_id b = Some k →
  referencing key b rows = filter (λ r, key r = Some k) rows.
Proof.
  intros Hb. unfold referencing. apply list_filter_iff. intros r. rewrite Hb.
  split; [by intros [_ ?] | intros ?; split; [by eexists | done]].
Qed.

Lemma referencing_None {R} (key : R → option ident) (b : bill) (rows : list R) :
  bill_id b = None → referencing key b rows = [].
Proof.
  intros Hb. unfold referencing. induction rows as [| r rows IH]; [done |].
  rewrite filter_cons, decide_False; [done |].
  rewrite Hb. intros [[? ?] _]. discriminate.
Qed.

(** What [merge_left] finds for a bill in an aggregate: the
    aggregation of the rows that reference the bill. *)
Lemma merge_left_groupby {R B} (key : R → option ident) (agg : list R → B)
    (rows : list R) (b : bill) :
  (k' ← bill_id b; assoc k' (map (λ kg, (kg.1, agg kg.2)) (groupby key rows)))
  = if decide (referencing key b rows = []) then None
    else Some (agg (referencing key b rows)).
Proof.
  destruct (bill_id b) as [k |] eqn:Hb; cbn [mbind option_bind].
  - rewrite (referencing_Some _ _ _ _ Hb), assoc_groupby.
    destruct (decide (Some k ∈ map key rows)) as [Hin | Hnin].
    + rewrite decide_False; [done |].
      apply list_elem_of_fmap in Hin as (r & Hr & Hin).
      intros Hnil. assert (r ∈ filter (λ r, key r = Some k) rows) as Hf
        by (by apply list_elem_of_filter).
      rewrite Hnil in Hf. by apply not_elem_of_nil in Hf.
    + by rewrite decide_True by (by apply filter_nil_not_elem).
  - by rewrite (referencing_None _ _ _ Hb), decide_True.
Qed.

Lemma merge_left_groupby_apply {R B} (key : R → option ident) (agg : list R → B)
    (rows : list R) (b : bill) :
  has_key key rows →
  merge_left (bill_id b) (groupby_apply key agg rows)
  = Some (if decide (referencing key b rows = []) then None
          else Some (agg (referencing key b rows))).
Proof.
  intros Hkey. unfold groupby_apply, merge_left.
  destruct (groupby key rows) as [| g gs] eqn:Hg.
  { by apply groupby_nil in Hg. }
  rewrite <- Hg. by rewrite merge_left_groupby.
Qed.

Lemma merge_left_groupby_apply_absent {R B} (key : R → option ident)
    (agg : list R → B) (rows : list R) (b : bill) :
  ¬ has_key key rows →
  merge_left (bill_id b) (groupby_apply key agg rows) = None.
Proof.
  intros Hkey. apply groupby_nil in Hkey.
  unfold groupby_apply, merge_left. by rewrite Hkey.
Qed.

End AggregatorProperties.

Lemma abs_sum_le (vals : list Z) :
  (Z.abs (foldr Z.add 0 vals) ≤ foldr Z.add 0 (map Z.abs vals))%Z.
Proof. induction vals as [| v vals IH]; simpl; lia. Qed.

Lemma int64_exact (vals : list Z) :
  exact_range vals → int64 (foldr Z.add 0%Z vals) = foldr Z.add 0%Z vals.
Proof.
  unfold exact_range, int64. intros Hr. pose proof (abs_sum_le vals) as Ha.
  rewrite Z.mod_small; lia.
Qed.

Lemma length_omap_filter {A B} (f : A → option B) (l : list A) :
  length (omap f l) = length (filter (λ x, is_Some (f x)) l).
Proof.
  induction l as [| x l IH]; [done |]. rewrite filter_cons.
  change (omap f (x :: l)) with (match f x with Some y => y :: omap f l | None => omap f l end).
  destruct (f x) as [y |] eqn:Hx.
  - rewrite decide_True by (by eexists). simpl. by rewrite IH.
  - rewrite decide_False; [done |]. by intros [? ?].
Qed.

Lemma filter_none {A} (P : A → Prop) `{∀ x, Decision (P x)} (l : list A) :
  (∀ x, x ∈ l → ¬ P x) → filter P l = [].
Proof.
  induction l as [| a l IH]; [done |]. intros Hl. rewrite filter_cons.
  rewrite decide_False by apply Hl, list_elem_of_here.
  apply IH. intros x Hx. by apply Hl, list_elem_of_further.
Qed.

Section JoinTablesProperties.

Context {ident : Type} `{EqDecision ident}.
Variable ident_compare : ident → ident → comparison.

Implicit Types (b : @bill ident) (s : @sponsorship ident) (ds : @dataset ident).
Implicit Types (sps : list (@sponsorship ident)) (ps : list (@person ident)).
Implicit Types (r : @sponsor_row ident) (o : @output_row ident).

Lemma referencing_Permutation {R} (key : R → option ident) b (l1 l2 : list R) :
  l1 ≡ₚ l2 → referencing key b l1 ≡ₚ referencing key b l2.
Proof. intros HP. unfold referencing. by rewrite HP. Qed.

Lemma referencing_app {R} (key : R → option ident) b (l1 l2 : list R) :
  referencing key b (l1 ++ l2) = referencing key b l1 ++ referencing key b l2.
Proof. unfold referencing. apply filter_app. Qed.

(** A key of the person table selects at most one person. *)
Lemma unique_person (ps : list (@person ident)) x :
  NoDup (map people_id ps) →
  (length (filter (λ p, people_id p = x) ps) ≤ 1)%nat.
Proof.
  induction ps as [| p ps IH]; simpl; [lia |]. intros Hnd.
  apply NoDup_cons in Hnd as [Hnin Hnd]. rewrite filter_cons.
  destruct (decide (people_id p = x)) as [Hp | Hp]; [| by apply IH].
  assert (filter (λ p, people_id p = x) ps = []) as ->; [| simpl; lia].
  apply filter_none. intros q Hin Hq. apply Hnin.
  rewrite Hp, <- Hq. apply list_elem_of_fmap. by exists q.
Qed.

Lemma joined_rows_bill_id s ps r :
  r ∈ joined_rows s ps → m_bill_id r = sp_bill_id s.
Proof.
  unfold joined_rows.
  destruct (filter (λ p, people_id p = sp_people_id s) ps) as [| p l].
  - intros ->%list_elem_of_singleton. done.
  - intros (q & -> & _)%list_elem_of_fmap. done.
Qed.

Lemma joined_rows_not_nil s ps : joined_rows s ps ≠ [].
Proof.
  unfold joined_rows.
  by destruct (filter (λ p, people_id p = sp_people_id s) ps).
Qed.

Lemma joined_rows_length s ps :
  NoDup (map people_id ps) → length (joined_rows s ps) = 1.
Proof.
  intros Hnd. pose proof (unique_person ps (sp_people_id s) Hnd) as Hle.
  unfold joined_rows.
  destruct (filter (λ p, people_id p = sp_people_id s) ps) as [| p [| q l]];
    simpl in *; [done | done | lia].
Qed.

Lemma merge_people_cons s sps ps :
  merge_people (s :: sps) ps = joined_rows s ps ++ merge_people sps ps.
Proof. done. Qed.

Lemma referencing_joined_rows b s ps :
  referencing m_bill_id b (joined_rows s ps)
  = if decide (is_Some (bill_id b) ∧ sp_bill_id s = bill_id b)
    then joined_rows s ps else [].
Proof.
  pose proof (joined_rows_bill_id s ps) as Hid. unfold referencing.
  induction (joined_rows s ps) as [| r l IH].
  - by destruct (decide _).
  - rewrite filter_cons.
    assert (m_bill_id r = sp_bill_id s) as Hr by apply Hid, list_elem_of_here.
    assert (∀ r', r' ∈ l → m_bill_id r' = sp_bill_id s) as Hl
      by (intros; by apply Hid, list_elem_of_further).
    specialize (IH Hl). rewrite Hr.
    destruct (decide (is_Some (bill_id b) ∧ sp_bill_id s = bill_id b)); by rewrite IH.
Qed.

(** With one person per [people_id], the joined table has one row per
    sponsorship row: as many rows reference a bill in the one as in
    the other. *)
Lemma merge_people_referencing b sps ps :
  NoDup (map people_id ps) →
  length (referencing m_bill_id b (merge_people sps ps))
  = length (referencing sp_bill_id b sps).
Proof.
  intros Hnd. induction sps as [| s sps IH]; [done |].
  rewrite merge_people_cons, referencing_app, length_app, IH,
    referencing_joined_rows.
  unfold referencing at 2. rewrite filter_cons.
  destruct (decide (is_Some (bill_id b) ∧ sp_bill_id s = bill_id b)).
  - by rewrite joined_rows_length.
  - done.
Qed.

Lemma has_key_merge_people sps ps :
  has_key sp_bill_id sps → has_key m_bill_id (merge_people sps ps).
Proof.
  intros (s & Hin & Hk).
  destruct (joined_rows s ps) as [| r l] eqn:Hj; [by apply joined_rows_not_nil in Hj |].
  exists r. split.
  - unfold merge_people. apply list_elem_of_In, in_flat_map. exists s.
    split; [by apply list_elem_of_In |].
    rewrite Hj. by left.
  - rewrite (joined_rows_bill_id s ps r); [done |]. rewrite Hj. apply list_elem_of_here.
Qed.

Lemma has_key_merge_people_inv sps ps :
  has_key m_bill_id (merge_people sps ps) → has_key sp_bill_id sps.
Proof.
  intros (r & Hin & Hk).
  unfold merge_people in Hin. apply list_elem_of_In, in_flat_map in Hin.
  destruct Hin as (s & Hs & Hr). exists s. split; [by apply list_elem_of_In |].
  apply list_elem_of_In in Hr.
  by rewrite <- (joined_rows_bill_id s ps r).
Qed.

Lemma has_key_sorted_sponsors sps ps :
  has_key m_bill_id (sorted_sponsors ident_compare sps ps) ↔ has_key sp_bill_id sps.
Proof.
  unfold sorted_sponsors. split.
  - intros Hk. eapply has_key_merge_people_inv, has_key_Permutation; [| exact Hk].
    apply sort_values_Permutation.
  - intros Hk. eapply has_key_Permutation; [| by apply has_key_merge_people].
    symmetry. apply sort_values_Permutation.
Qed.

Lemma count_col_merged {R B} (col : B → Z) (agg : list R → B) (refs : list R) :
  col (agg []) = 0%Z →
  count_col col (Some (if decide (refs = []) then None else Some (agg refs)))
  = Some (col (agg refs)).
Proof.
  intros H0. unfold count_col. destruct (decide (refs = [])) as [-> | ?]; simpl;
    by rewrite ?H0.
Qed.

Lemma elem_of_join_tables state_code ds o :
  o ∈ join_tables ident_compare state_code ds →
  ∃ b, b ∈ bills ds ∧ out_bill o = b ∧ out_state o = state_code ∧
    out_sponsor_count o
      = count_col sponsor_count
          (merge_left (bill_id b) (aggregate_sponsors ident_compare (sponsors ds) (people ds))) ∧
    out_primary_sponsor o
      = nan_col primary_sponsor
          (merge_left (bill_id b) (aggregate_sponsors ident_compare (sponsors ds) (people ds))) ∧
    out_action_count o
      = count_col action_count
          (merge_left (bill_id b) (aggregate_history ident_compare (history ds))) ∧
    out_document_count o
      = count_col document_count
          (merge_left (bill_id b) (aggregate_documents (documents ds))) ∧
    out_rollcall_count o
      = count_col rollcall_count
          (merge_left (bill_id b) (Some (aggregate_rollcalls (rollcalls ds)))) ∧
    out_total_yea o
      = count_col total_yea
          (merge_left (bill_id b) (Some (aggregate_rollcalls (rollcalls ds)))) ∧
    out_total_nay o
      = count_col total_nay
          (merge_left (bill_id b) (Some (aggregate_rollcalls (rollcalls ds)))).
Proof.
  unfold join_tables. intros (b & -> & Hb)%list_elem_of_fmap.
  exists b. by split_and!.
Qed.

Lemma sponsor_count_spec ds b :
  NoDup (map people_id (people ds)) →
  has_key sp_bill_id (sponsors ds) →
  count_col sponsor_count
    (merge_left (bill_id b) (aggregate_sponsors ident_compare (sponsors ds) (people ds)))
  = Some (Z.of_nat (length (referencing sp_bill_id b (sponsors ds)))).
Proof.
  intros Hnd Hkey. unfold aggregate_sponsors.
  rewrite merge_left_groupby_apply by (by apply has_key_sorted_sponsors).
  rewrite count_col_merged by done. simpl. do 2 f_equal.
  rewrite <- (merge_people_referencing b _ _ Hnd).
  apply Permutation_length, referencing_Permutation, sort_values_Permutation.
Qed.

Lemma action_count_spec ds b :
  has_key h_bill_id (history ds) →
  count_col action_count
    (merge_left (bill_id b) (aggregate_history ident_compare (history ds)))
  = Some (Z.of_nat (length (referencing h_bill_id b (history ds)))).
Proof.
  intros Hkey. unfold aggregate_history.
  rewrite merge_left_groupby_apply.
  - rewrite count_col_merged by done. simpl. do 2 f_equal.
    apply Permutation_length, referencing_Permutation, sort_values_Permutation.
  - eapply has_key_Permutation; [| exact Hkey].
    symmetry. apply sort_values_Permutation.
Qed.

Lemma document_count_spec ds b :
  has_key d_bill_id (documents ds) →
  count_col document_count
    (merge_left (bill_id b) (aggregate_documents (documents ds)))
  = Some (Z.of_nat (length (referencing d_bill_id b (documents ds)))).
Proof.
  intros Hkey. unfold aggregate_documents.
  rewrite merge_left_groupby_apply by done. by rewrite count_col_merged.
Qed.

Lemma rollcall_columns_spec (col : rollcalls_agg → Z) ds b :
  col (rollcalls_agg_group ([] : list (@rollcall ident))) = 0%Z →
  count_col col (merge_left (bill_id b) (Some (aggregate_rollcalls (rollcalls ds))))
  = Some (col (rollcalls_agg_group (referencing r_bill_id b (rollcalls ds)))).
Proof.
  intros H0. unfold aggregate_rollcalls, merge_left.
  rewrite merge_left_groupby. by apply count_col_merged.
Qed.

End JoinTablesProperties.

(** C3 (as the code has it).  The output has one row per bill.  For the
    bill of an output row:
    - [sponsor_count], [action_count] and [document_count] are the
      numbers of sponsorship, history and document rows that reference
      the bill, provided the table has a row that carries a [bill_id]
      (and, for sponsors, no two persons share a [people_id]); a table
      without such a row leaves its column out of the output;
    - [rollcall_count] is the number of the bill's roll calls that carry
      a [roll_call_id];
    - [total_yea] and [total_nay] are the sums of the [yea] and [nay]
      cells of the bill's roll calls that are not missing, while these
      stay in the range where 64-bit arithmetic is exact.
    Each of these is the integer 0 when no row references the bill. *)
Theorem aggregated_counts
    {ident : Type} `{EqDecision ident} (ident_compare : ident → ident → comparison)
    (state_code : string) (ds : @dataset ident) (o : @output_row ident) :
  o ∈ join_tables ident_compare state_code ds →
  let b := out_bill o in
  let calls := referencing r_bill_id b (rollcalls ds) in
  map out_bill (join_tables ident_compare state_code ds) = bills ds ∧
  (NoDup (map people_id (people ds)) → has_key sp_bill_id (sponsors ds) →
     out_sponsor_count o
     = Some (Z.of_nat (length (referencing sp_bill_id b (sponsors ds))))) ∧
  (has_key h_bill_id (history ds) →
     out_action_count o
     = Some (Z.of_nat (length (referencing h_bill_id b (history ds))))) ∧
  (has_key d_bill_id (documents ds) →
     out_document_count o
     = Some (Z.of_nat (length (referencing d_bill_id b (documents ds))))) ∧
  (¬ has_key sp_bill_id (sponsors ds) → out_sponsor_count o = None) ∧
  (¬ has_key h_bill_id (history ds) → out_action_count o = None) ∧
  (¬ has_key d_bill_id (documents ds) → out_document_count o = None) ∧
  out_rollcall_count o
  = Some (Z.of_nat (length (filter (λ r, is_Some (roll_call_id r)) calls))) ∧
  (exact_range (omap yea calls) →
     out_total_yea o = Some (foldr Z.add 0%Z (omap yea calls))) ∧
  (exact_range (omap nay calls) →
     out_total_nay o = Some (foldr Z.add 0%Z (omap nay calls))).
Proof.
  intros Hin b calls.
  destruct (elem_of_join_tables _ _ _ _ Hin)
    as (b' & Hb & Hob & _ & Hs & _ & Hh & Hd & Hr & Hy & Hn).
  subst b'. fold b in Hs, Hh, Hd, Hr, Hy, Hn.
  split_and!.
  - unfold join_tables. rewrite map_map. simpl. apply map_id.
  - intros Hnd Hkey. rewrite Hs. by apply sponsor_count_spec.
  - intros Hkey. rewrite Hh. by apply action_count_spec.
  - intros Hkey. rewrite Hd. by apply document_count_spec.
  - intros Hkey. rewrite Hs. unfold aggregate_sponsors.
    rewrite merge_left_groupby_apply_absent; [done |].
    by rewrite has_key_sorted_sponsors.
  - intros Hkey. rewrite Hh. unfold aggregate_history.
    rewrite merge_left_groupby_apply_absent; [done |].
    intros Hk. apply Hkey. eapply has_key_Permutation; [| exact Hk].
    apply sort_values_Permutation.
  - intros Hkey. rewrite Hd. unfold aggregate_documents.
    by rewrite merge_left_groupby_apply_absent.
  - rewrite Hr, (rollcall_columns_spec rollcall_count) by done. simpl.
    by rewrite length_omap_filter.
  - intros Hrange. rewrite Hy, (rollcall_columns_spec total_yea) by done. simpl.
    by rewrite int64_exact.
  - intros Hrange. rewrite Hn, (rollcall_columns_spec total_nay) by done. simpl.
    by rewrite int64_exact.
Qed.

Lemma aggregated_counts_witness :
  ∃ o, join_tables Z.compare "AK" ExampleDataset.scenario !! 1%nat = Some o ∧
       out_bill o = ExampleDataset.bill_B ∧
       out_sponsor_count o = Some 1%Z ∧
       out_action_count o = Some 1%Z ∧
       out_document_count o = Some 0%Z ∧
       out_rollcall_count o = Some 0%Z ∧
       out_total_yea o = Some 0%Z ∧
       out_total_nay o = Some 0%Z.
Proof.
  eexists. split; [vm_compute; reflexivity |].
  match goal with |- out_bill ?row = _ ∧ _ => set (o := row) end.
  assert (Hin : o ∈ join_tables Z.compare "AK" ExampleDataset.scenario).
  { apply list_elem_of_lookup. exists 1%nat. vm_compute. reflexivity. }
  destruct (aggregated_counts Z.compare "AK" ExampleDataset.scenario o Hin)
    as (_ & Hs & Hh & Hd & _ & _ & _ & Hr & Hy & Hn).
  split; [reflexivity |]. split_and!.
  - rewrite Hs; [vm_compute; reflexivity | |].
    + by_evaluation.
    + first_row_has_key.
  - rewrite Hh; [vm_compute; reflexivity |].
    first_row_has_key.
  - rewrite Hd; [vm_compute; reflexivity |].
    first_row_has_key.
  - rewrite Hr. vm_compute. reflexivity.
  - rewrite Hy; vm_compute; reflexivity.
  - rewrite Hn; vm_compute; reflexivity.
Defined.

(** C3 as the specification words it fails on four datasets: a
    header-only [sponsors.csv] and [documents.csv] leave [sponsor_count]
    and [document_count] out of the output; a roll call without
    [roll_call_id] is not counted; a second person row for a [people_id]
    counts a sponsorship row twice; and vote counts that do not fit 64
    bits together wrap around. *)
Lemma counts_differ_from_child_rows :
  (map out_sponsor_count (join_tables Z.compare "AK" ExampleDataset.sparse) = [None; None] ∧
   map out_document_count (join_tables Z.compare "AK" ExampleDataset.sparse) = [None; None]) ∧
  (map out_rollcall_count (join_tables Z.compare "AK" ExampleDataset.sparse)
     = [Some 2%Z; Some 0%Z] ∧
   length (referencing r_bill_id ExampleDataset.bill_B (rollcalls ExampleDataset.sparse)) = 1) ∧
  (map out_sponsor_count (join_tables Z.compare "AK" ExampleDataset.duplicated_person)
     = [Some 3%Z; Some 1%Z] ∧
   length (referencing sp_bill_id ExampleDataset.bill_A
             (sponsors ExampleDataset.duplicated_person)) = 2) ∧
  (map out_total_yea (join_tables Z.compare "AK" ExampleDataset.overflowing)
     = [Some (- 2 ^ 63)%Z; Some 1%Z] ∧
   foldr Z.add 0%Z
     (omap yea (referencing r_bill_id ExampleDataset.bill_A
                  (rollcalls ExampleDataset.overflowing))) = (2 ^ 63)%Z).
Proof. split_and!; vm_compute; reflexivity. Qed.

(** C4 (as the code has it).  When the sponsorship table has a row that
    carries a [bill_id], the [primary_sponsor] cell of a bill is the
    name joined to the first row with [position == 1] among the rows of
    the bill in the joined table sorted by [(bill_id, position)], and it
    is written as the empty string when the bill has no such row.  When
    the table has no such row at all, the output has no
    [primary_sponsor] column. *)
Theorem primary_sponsor_column
    {ident : Type} `{EqDecision ident} (ident_compare : ident → ident → comparison)
    (state_code : string) (ds : @dataset ident) (o : @output_row ident) :
  o ∈ join_tables ident_compare state_code ds →
  (has_key sp_bill_id (sponsors ds) →
     match head (filter (λ r, m_position r = Some 1%Z)
                   (referencing m_bill_id (out_bill o)
                      (sorted_sponsors ident_compare (sponsors ds) (people ds)))) with
     | Some r => out_primary_sponsor o = Some (m_name r)
     | None => ∃ cell, out_primary_sponsor o = Some cell ∧ csv_field cell = ""
     end) ∧
  (¬ has_key sp_bill_id (sponsors ds) → out_primary_sponsor o = None).
Proof.
  intros Hin.
  destruct (elem_of_join_tables _ _ _ _ Hin) as (b & Hb & <- & _ & _ & Hp & _).
  rewrite Hp. unfold aggregate_sponsors. split.
  - intros Hkey.
    rewrite merge_left_groupby_apply by (by apply has_key_sorted_sponsors).
    destruct (decide (referencing m_bill_id (out_bill o)
                        (sorted_sponsors ident_compare (sponsors ds) (people ds)) = []))
      as [-> | Hne]; simpl.
    + by exists None.
    + destruct (filter _ _) as [| r l]; simpl; [by exists (Some "") | done].
  - intros Hkey. rewrite merge_left_groupby_apply_absent; [done |].
    by rewrite has_key_sorted_sponsors.
Qed.

Lemma primary_sponsor_column_witness :
  ∃ oA oB,
    join_tables Z.compare "AK" ExampleDataset.scenario = [oA; oB] ∧
    out_primary_sponsor oA = Some (Some "Ann Lee") ∧
    csv_field <$> out_primary_sponsor oB = Some "".
Proof.
  do 2 eexists. split; [vm_compute; reflexivity |].
  assert (Hkey : has_key sp_bill_id (sponsors ExampleDataset.scenario)).
  { first_row_has_key. }
  split.
  - match goal with |- out_primary_sponsor ?row = _ => set (o := row) end.
    assert (Hin : o ∈ join_tables Z.compare "AK" ExampleDataset.scenario).
    { apply list_elem_of_lookup. exists 0%nat. vm_compute. reflexivity. }
    pose proof (proj1 (primary_sponsor_column Z.compare "AK"
                         ExampleDataset.scenario o Hin) Hkey) as Hp.
    exact Hp.
  - match goal with |- _ <$> out_primary_sponsor ?row = _ => set (o := row) end.
    assert (Hin : o ∈ join_tables Z.compare "AK" ExampleDataset.scenario).
    { apply list_elem_of_lookup. exists 1%nat. vm_compute. reflexivity. }
    pose proof (proj1 (primary_sponsor_column Z.compare "AK"
                         ExampleDataset.scenario o Hin) Hkey) as Hp.
    destruct Hp as (cell & -> & Hcell). simpl. by rewrite Hcell.
Defined.

(** C4 as the specification words it fails for a dataset whose
    [sponsors.csv] has a header only: no bill has a row with
    [position == 1], and the output has no [primary_sponsor] column
    rather than one holding the empty string. *)
Lemma primary_sponsor_column_absent :
  sponsors ExampleDataset.sparse = [] ∧
  map out_primary_sponsor (join_tables Z.compare "AK" ExampleDataset.sparse)
  = [None; None].
Proof. split; vm_compute; reflexivity. Qed.

(** C5.  The state code of concat_with_join_legiscan.py is the name of
    the directory two levels above the dataset directory with every
    character that is not a letter removed; join_legiscan_csvs.py takes
    that name as it is, so for a folder named [AK-2021] the two
    implementations insert different state codes. *)
Theorem state_code_of_the_two_implementations :
  (∀ csv_dir, ConcatWithJoin.state_code csv_dir = letters_only (state_folder csv_dir)) ∧
  (ConcatWithJoin.state_code ExampleDataset.csv_dir_AK = "AK" ∧
   JoinCsvs.state_code ExampleDataset.csv_dir_AK = "AK") ∧
  (state_folder ExampleDataset.csv_dir_odd = "AK-2021" ∧
   ConcatWithJoin.state_code ExampleDataset.csv_dir_odd = "AK" ∧
   JoinCsvs.state_code ExampleDataset.csv_dir_odd = "AK-2021") ∧
  (ConcatWithJoin.process_csv_dir Z.compare ExampleRun.read_tables ExampleRun.to_csv
     ExampleDataset.csv_dir_odd
     (ConcatWithJoin.derive_output_path ExampleRun.OUTPUT_DIR ExampleDataset.csv_dir_odd)
     ExampleRun.fs).2 !! ["out"; "AK_32nd_Legislature.csv"]
  = Some (File (ExampleRun.state_lines ["AK"; "AK"])) ∧
  (JoinCsvs.process_csv_dir Z.compare ExampleRun.read_tables ExampleRun.to_csv
     ExampleDataset.csv_dir_odd ExampleRun.OUTPUT_DIR
     ExampleRun.fs).2 !! ["out"; "AK-2021_32nd_Legislature.csv"]
  = Some (File (ExampleRun.state_lines ["AK-2021"; "AK-2021"])).
Proof. split_and!; [done | vm_compute; reflexivity ..]. Qed.

(** ** The loop over the discovered datasets *)

Section MainLoopProperties.

Context {ident : Type} `{EqDecision ident}.
Variable ident_compare : ident → ident → comparison.
Variable read_tables : list string → filesystem → @dataset ident + error.
Variable to_csv : list (@output_row ident) → list Byte.byte.
Variables OUTPUT_DIR out_dir : list string.

Local Abbreviation cwj_loop :=
  (@ConcatWithJoin.main_loop ident _ ident_compare read_tables to_csv OUTPUT_DIR).
Local Abbreviation cwj_process :=
  (@ConcatWithJoin.process_csv_dir ident _ ident_compare read_tables to_csv).
Local Abbreviation jlc_loop :=
  (@JoinCsvs.main_loop ident _ ident_compare read_tables to_csv out_dir).
Local Abbreviation jlc_process :=
  (@JoinCsvs.process_csv_dir ident _ ident_compare read_tables to_csv).

Lemma cwj_loop_app n pre : ∀ i post total (fs : filesystem),
  cwj_loop n i (pre ++ post) total fs
  = let r1 := cwj_loop n i pre total fs in
    let r2 := cwj_loop n (i + length pre) post r1.1.2 r1.2 in
    (r1.1.1 ++ r2.1.1, r2.1.2, r2.2).
Proof.
  induction pre as [| d pre IH]; intros i post total fs.
  - simpl. rewrite Nat.add_0_r. by destruct (cwj_loop n i post total fs) as [[? ?] ?].
  - cbn [app length]. cbn [ConcatWithJoin.main_loop].
    destruct (ConcatWithJoin.process_csv_dir _ _ _ d _ fs) as [[rows | e] fs'];
      rewrite IH; replace (S i + length pre) with (i + S (length pre)) by lia;
      destruct (ConcatWithJoin.main_loop _ _ _ _ n (S i) pre _ fs') as [[log1 t1] fs1];
      cbn [fst snd];
      by destruct (ConcatWithJoin.main_loop _ _ _ _ n (i + S (length pre)) post t1 fs1)
        as [[log2 t2] fs2].
Qed.

Lemma jlc_loop_app n pre : ∀ i post (fs : filesystem),
  jlc_loop n i (pre ++ post) fs
  = let r1 := jlc_loop n i pre fs in
    let r2 := jlc_loop n (i + length pre) post r1.2 in
    (r1.1 ++ r2.1, r2.2).
Proof.
  induction pre as [| d pre IH]; intros i post fs.
  - simpl. rewrite Nat.add_0_r. by destruct (jlc_loop n i post fs) as [? ?].
  - cbn [app length]. cbn [JoinCsvs.main_loop].
    destruct (JoinCsvs.process_csv_dir _ _ _ d _ fs) as [[out | e] fs'];
      rewrite IH; replace (S i + length pre) with (i + S (length pre)) by lia;
      destruct (JoinCsvs.main_loop _ _ _ _ n (S i) pre fs') as [log1 fs1];
      cbn [fst snd];
      by destruct (JoinCsvs.main_loop _ _ _ _ n (i + S (length pre)) post fs1)
        as [log2 fs2].
Qed.

Lemma cwj_attempted n csv_dirs : ∀ i total (fs : filesystem),
  attempted (cwj_loop n i csv_dirs total fs).1.1 = csv_dirs.
Proof.
  induction csv_dirs as [| d rest IH]; intros i total fs; [done |].
  cbn [ConcatWithJoin.main_loop].
  destruct (ConcatWithJoin.process_csv_dir _ _ _ d _ fs) as [[rows | e] fs'].
  - specialize (IH (S i) (total + rows) fs').
    destruct (ConcatWithJoin.main_loop _ _ _ _ n (S i) rest _ fs') as [[log t] fs''].
    simpl in *. by rewrite IH.
  - specialize (IH (S i) total fs').
    destruct (ConcatWithJoin.main_loop _ _ _ _ n (S i) rest _ fs') as [[log t] fs''].
    simpl in *. by rewrite IH.
Qed.

Lemma jlc_attempted n csv_dirs : ∀ i (fs : filesystem),
  attempted (jlc_loop n i csv_dirs fs).1 = csv_dirs.
Proof.
  induction csv_dirs as [| d rest IH]; intros i fs; [done |].
  cbn [JoinCsvs.main_loop].
  destruct (JoinCsvs.process_csv_dir _ _ _ d _ fs) as [[out | e] fs'];
    specialize (IH (S i) fs');
    destruct (JoinCsvs.main_loop _ _ _ _ n (S i) rest fs') as [log fs''];
    simpl in *; by rewrite IH.
Qed.

Lemma cwj_loop_failed (n i : nat) (d : list string) (post : list (list string))
    (total : nat) (fs fs' : filesystem) (e : error) :
  cwj_process d (ConcatWithJoin.derive_output_path OUTPUT_DIR d) fs = (inr e, fs') →
  cwj_loop n i (d :: post) total fs
  = let r := cwj_loop n (S i) post total fs' in
    (Progress i n d :: Failed e :: r.1.1, r.1.2, r.2).
Proof.
  intros Hf. cbn [ConcatWithJoin.main_loop]. rewrite Hf.
  by destruct (ConcatWithJoin.main_loop _ _ _ _ n (S i) post total fs') as [[? ?] ?].
Qed.

Lemma jlc_loop_failed (n i : nat) (d : list string) (post : list (list string))
    (fs fs' : filesystem) (e : error) :
  jlc_process d out_dir fs = (inr e, fs') →
  jlc_loop n i (d :: post) fs
  = let r := jlc_loop n (S i) post fs' in
    (Progress i n d :: Failed e :: r.1, r.2).
Proof.
  intros Hf. cbn [JoinCsvs.main_loop]. rewrite Hf.
  by destruct (JoinCsvs.main_loop _ _ _ _ n (S i) post fs') as [? ?].
Qed.

(** A dataset whose processing raises gets its progress line and an
    error line, and the loop goes on with the datasets after it. *)
Lemma cwj_failure_is_skipped (n i : nat) (pre : list (list string)) (d : list string)
    (post : list (list string)) (total : nat) (fs : filesystem) (e : error) :
  let before := cwj_loop n i pre total fs in
  let failed := cwj_process d (ConcatWithJoin.derive_output_path OUTPUT_DIR d) before.2 in
  let after := cwj_loop n (S (i + length pre)) post before.1.2 failed.2 in
  failed.1 = inr e →
  cwj_loop n i (pre ++ d :: post) total fs
  = (before.1.1 ++ Progress (i + length pre) n d :: Failed e :: after.1.1,
     after.1.2, after.2).
Proof.
  intros before failed after Hfail. rewrite cwj_loop_app. cbn zeta.
  fold before.
  rewrite (cwj_loop_failed _ _ _ _ _ _ failed.2 e); [done |].
  fold failed. destruct failed as [r fs']. simpl in *. by subst.
Qed.

Lemma jlc_failure_is_skipped (n i : nat) (pre : list (list string)) (d : list string)
    (post : list (list string)) (fs : filesystem) (e : error) :
  let before := jlc_loop n i pre fs in
  let failed := jlc_process d out_dir before.2 in
  let after := jlc_loop n (S (i + length pre)) post failed.2 in
  failed.1 = inr e →
  jlc_loop n i (pre ++ d :: post) fs
  = (before.1 ++ Progress (i + length pre) n d :: Failed e :: after.1, after.2).
Proof.
  intros before failed after Hfail. rewrite jlc_loop_app. cbn zeta.
  fold before.
  rewrite (jlc_loop_failed _ _ _ _ _ failed.2 e); [done |].
  fold failed. destruct failed as [r fs']. simpl in *. by subst.
Qed.

End MainLoopProperties.

(** C9.  In both implementations the loop over the discovered datasets
    attempts every dataset of the list, in order, whatever raises.
    When the processing of a dataset raises, the exception is caught at
    that dataset: the line naming its path is followed by the error
    line, and the datasets after it are processed as they would be
    otherwise, from the file system the failed attempt left. *)
Theorem dataset_failure_does_not_abort
    {ident : Type} `{EqDecision ident} (ident_compare : ident → ident → comparison)
    (read_tables : list string → filesystem → @dataset ident + error)
    (to_csv : list (@output_row ident) → list Byte.byte)
    (OUTPUT_DIR out_dir : list string) (n i : nat)
    (pre : list (list string)) (d : list string) (post : list (list string))
    (total : nat) (fs : filesystem) :
  let cwj_loop := ConcatWithJoin.main_loop ident_compare read_tables to_csv OUTPUT_DIR n in
  let jlc_loop := JoinCsvs.main_loop ident_compare read_tables to_csv out_dir n in
  attempted (cwj_loop i (pre ++ d :: post) total fs).1.1 = pre ++ d :: post ∧
  attempted (jlc_loop i (pre ++ d :: post) fs).1 = pre ++ d :: post ∧
  (∀ e,
     let before := cwj_loop i pre total fs in
     let failed := ConcatWithJoin.process_csv_dir ident_compare read_tables to_csv d
                     (ConcatWithJoin.derive_output_path OUTPUT_DIR d) before.2 in
     let after := cwj_loop (S (i + length pre)) post before.1.2 failed.2 in
     failed.1 = inr e →
     cwj_loop i (pre ++ d :: post) total fs
     = (before.1.1 ++ Progress (i + length pre) n d :: Failed e :: after.1.1,
        after.1.2, after.2)) ∧
  (∀ e,
     let before := jlc_loop i pre fs in
     let failed := JoinCsvs.process_csv_dir ident_compare read_tables to_csv d out_dir
                     before.2 in
     let after := jlc_loop (S (i + length pre)) post failed.2 in
     failed.1 = inr e →
     jlc_loop i (pre ++ d :: post) fs
     = (before.1 ++ Progress (i + length pre) n d :: Failed e :: after.1, after.2)).
Proof.
  intros cwj_loop jlc_loop. split_and!.
  - apply cwj_attempted.
  - apply jlc_attempted.
  - intros e. apply cwj_failure_is_skipped.
  - intros e. apply jlc_failure_is_skipped.
Qed.

Lemma dataset_failure_does_not_abort_witness :
  (ConcatWithJoin.main_loop Z.compare ExampleRun.read_tables ExampleRun.to_csv ExampleRun.OUTPUT_DIR
     3 1 ([ExampleRun.dir_AK] ++ ExampleRun.dir_CO :: [ExampleRun.dir_WY]) 0
     ExampleRun.fs).1
  = ([ Progress 1 3 ExampleRun.dir_AK; Wrote ["out"; "AK_s1.csv"] 2;
       Progress 2 3 ExampleRun.dir_CO; Failed ParserError;
       Progress 3 3 ExampleRun.dir_WY; Wrote ["out"; "WY_s1.csv"] 2 ], 4).
Proof.
  destruct (dataset_failure_does_not_abort Z.compare ExampleRun.read_tables
              ExampleRun.to_csv ExampleRun.OUTPUT_DIR ExampleRun.OUTPUT_DIR 3 1
              [ExampleRun.dir_AK] ExampleRun.dir_CO [ExampleRun.dir_WY] 0
              ExampleRun.fs) as (_ & _ & Hcwj & _).
  rewrite (Hcwj ParserError) by (vm_compute; reflexivity).
  vm_compute. reflexivity.
Defined.

(** ** Corpus Builder, raw streaming mode *)

Lemma mkdir_parents_preserves (q p : list string) (fs fs0 : filesystem) (x : node) :
  mkdir_parents q fs = (inl tt, fs0) → fs !! p = Some x → fs0 !! p = Some x.
Proof.
  unfold mkdir_parents. intros Hmk Hp.
  destruct (mkdir_chain [] q fs) as [fs' |] eqn:Hc; simplify_eq.
  destruct (mkdir_chain_changes _ _ _ _ Hc p) as [E | (N & _)]; congruence.
Qed.

Section StreamConcatProperties.

Variable cwd : list string.
Variable csv_reader : list Byte.byte → list (list string) * bool.
Variable csv_writer : list (list string) → list Byte.byte.
Variable root_dir : PurePath.

Local Abbreviation root := (resolve cwd root_dir).

Lemma elem_of_bills_paths (fs : filesystem) (k : list string) :
  k ∈ bills_paths root fs ↔
  ["CSV"; "bills.csv"] `suffix_of` k ∧ root ++ k ∈ rglob_star root fs.
Proof.
  unfold bills_paths, rglob_csv_bills.
  rewrite merge_sort_Permutation, list_elem_of_filter, list_elem_of_fmap. split.
  - intros [Hsuf (p & -> & Hp)]. split; [done |].
    assert (root `prefix_of` p) as [k' ->].
    { unfold rglob_star in Hp. apply list_elem_of_filter in Hp. tauto. }
    by rewrite drop_app_length.
  - intros [Hsuf Hp]. split; [done |]. exists (root ++ k).
    by rewrite drop_app_length.
Qed.

Lemma parents_2_state_input (k : list string) :
  parts root_dir ≠ [] → ["CSV"; "bills.csv"] `suffix_of` k →
  parents_2_state (parts root_dir ++ k) = Some (state_of_path (parts root_dir ++ k)).
Proof.
  intros Hroot [k' ->]. unfold parents_2_state.
  destruct (parts root_dir) as [| x l]; [done |].
  destruct (Nat.ltb_spec (length ((x :: l) ++ k' ++ ["CSV"; "bills.csv"])) 3)
    as [Hlt | _]; [| done].
  rewrite !length_app in Hlt. simpl in Hlt. lia.
Qed.

Lemma concat_file_good (header : list string) (fs : filesystem) (st : writer_state) (k : list string) :
  parts root_dir ≠ [] → ["CSV"; "bills.csv"] `suffix_of` k →
  reads_with_header cwd csv_reader root_dir header fs k →
  concat_file cwd csv_reader root_dir fs st k
  = {| header_written := true;
       written := written st
                  ++ (if header_written st then [] else [header ++ ["state"]])
                  ++ tagged_rows cwd csv_reader root_dir fs k;
       total_rows := total_rows st + length (tagged_rows cwd csv_reader root_dir fs k);
       errors := errors st |}.
Proof.
  intros Hroot Hsuf (bytes & rows & Hfile & Hread).
  unfold concat_file, tagged_rows, data_rows.
  rewrite (parents_2_state_input k Hroot Hsuf), Hfile, Hread. simpl.
  by rewrite length_map.
Qed.

Lemma foldl_concat_file (header : list string) (fs : filesystem) (inputs : list (list string)) :
  parts root_dir ≠ [] →
  ∀ st : writer_state,
  (∀ k, k ∈ inputs → ["CSV"; "bills.csv"] `suffix_of` k ∧ reads_with_header cwd csv_reader root_dir header fs k) →
  let st' := foldl (concat_file cwd csv_reader root_dir fs) st inputs in
  written st'
  = written st
    ++ (if header_written st then []
        else match inputs with [] => [] | _ => [header ++ ["state"]] end)
    ++ flat_map (tagged_rows cwd csv_reader root_dir fs) inputs ∧
  total_rows st'
  = total_rows st + length (flat_map (tagged_rows cwd csv_reader root_dir fs) inputs) ∧
  errors st' = errors st.
Proof.
  intros Hroot. induction inputs as [| k inputs IH]; intros st Hgood; simpl.
  - split_and!; [| lia | done]. destruct (header_written st); by rewrite app_nil_r.
  - destruct (Hgood k (list_elem_of_here _ _)) as [Hsuf Hread].
    rewrite (concat_file_good header fs st k Hroot Hsuf Hread).
    destruct (IH {| header_written := true;
                    written := written st
                      ++ (if header_written st then [] else [header ++ ["state"]])
                      ++ tagged_rows cwd csv_reader root_dir fs k;
                    total_rows := total_rows st
                      + length (tagged_rows cwd csv_reader root_dir fs k);
                    errors := errors st |})
      as (Hw & Ht & He).
    { intros k' Hk'. by apply Hgood, list_elem_of_further. }
    simpl in *. rewrite Hw, Ht, He. split_and!; [| rewrite length_app; lia | done].
    destruct (header_written st); simpl; by rewrite <- !(assoc_L (++)).
Qed.

(** The input files are read as they were before the output file was
    opened. *)
Lemma tagged_rows_ext (fs fs1 : filesystem) (inputs : list (list string)) :
  (∀ k, k ∈ inputs → fs1 !! (root ++ k) = fs !! (root ++ k)) →
  flat_map (tagged_rows cwd csv_reader root_dir fs1) inputs
  = flat_map (tagged_rows cwd csv_reader root_dir fs) inputs.
Proof.
  intros Hsame. induction inputs as [| k inputs IH]; [done |]. simpl.
  rewrite IH by (intros; by apply Hsame, list_elem_of_further).
  f_equal. unfold tagged_rows, data_rows.
  by rewrite (Hsame k (list_elem_of_here _ _)).
Qed.

End StreamConcatProperties.

Lemma is_ascii_letter_spec (c : ascii) : is_ascii_letter c = true ↔ A_Za_z c.
Proof.
  unfold is_ascii_letter, A_Za_z.
  change (nat_of_ascii "A") with 65. change (nat_of_ascii "Z") with 90.
  change (nat_of_ascii "a") with 97. change (nat_of_ascii "z") with 122.
  rewrite orb_true_iff, !andb_true_iff, !Nat.leb_le. tauto.
Qed.

(** [letters_only] returns the characters of its argument that are in
    [A-Za-z], in order. *)
Lemma letters_only_filter (s : string) :
  letters_only s = string_of_list_ascii (filter A_Za_z (list_ascii_of_string s)).
Proof.
  induction s as [| c s IH]; [done |]. simpl. rewrite filter_cons.
  destruct (is_ascii_letter c) eqn:Hc.
  - rewrite decide_True by (by apply is_ascii_letter_spec). simpl. by rewrite IH.
  - rewrite decide_False; [done |]. intros Hl%is_ascii_letter_spec. congruence.
Qed.

Lemma removelast_take {A} (l : list A) : removelast l = take (length l - 1) l.
Proof.
  induction l as [| a [| b l] IH]; [done | done |].
  change (removelast (a :: b :: l)) with (a :: removelast (b :: l)).
  rewrite IH. simpl. by rewrite Nat.sub_0_r.
Qed.

(** [parents[2].name] is the name of the directory two levels above
    the table subfolder. *)
Lemma state_of_path_derived (bills_path : list string) :
  state_of_path bills_path = derived_state_code bills_path.
Proof.
  unfold state_of_path, derived_state_code. rewrite letters_only_filter.
  do 3 f_equal. rewrite !removelast_take, !length_take, !take_take. do 2 f_equal. lia.
Qed.

(** C7.  The input files of raw streaming concatenation are the files
    [CSV/bills.csv] below the root, in sorted path order.  Without any,
    it reports so and leaves the file system as it is.  With N of them,
    all read without error and with the same header, the output file
    holds one header row, that header with a [state] column appended,
    followed by the data rows of every input file in that order, each
    with the state code of its file appended: the letters of the name
    of the directory two levels above the file's table subfolder.  The
    row count reported is the number of data rows. *)
Theorem stream_concat_spec
    (cwd : list string) (csv_reader : list Byte.byte → list (list string) * bool)
    (csv_writer : list (list string) → list Byte.byte)
    (root_dir output_path : PurePath) (fs : filesystem) :
  let root := resolve cwd root_dir in
  let out := resolve cwd output_path in
  let inputs := bills_paths root fs in
  let run := stream_concat cwd csv_reader csv_writer root_dir output_path fs in
  (∀ k, k ∈ inputs ↔ ["CSV"; "bills.csv"] `suffix_of` k ∧ root ++ k ∈ rglob_star root fs) ∧
  StronglySorted path_le inputs ∧
  (inputs = [] → run = (inl NoBillsFound, fs)) ∧
  (∀ (header : list string) (fs0 : filesystem),
     inputs ≠ [] →
     parts root_dir ≠ [] →
     (∀ k, k ∈ inputs →
        root ++ k ≠ out ∧ reads_with_header cwd csv_reader root_dir header fs k) →
     mkdir_parents (resolve cwd (path_parent output_path)) fs = (inl tt, fs0) →
     fs0 !! out ≠ Some Dir →
     let body :=
       flat_map (λ k, map (λ row, row ++ [derived_state_code (parts root_dir ++ k)])
                          (data_rows csv_reader root fs k)) inputs in
     run = (inl (Done (length body) []),
            <[ out := File (csv_writer ((header ++ ["state"]) :: body)) ]> fs0)).
Proof.
  intros root out inputs run. split_and!.
  - apply elem_of_bills_paths.
  - apply (StronglySorted_merge_sort _).
  - intros Hnil. subst run. unfold stream_concat. fold root inputs. by rewrite Hnil.
  - intros header fs0 Hne Hroot Hgood Hmk Hout body.
    assert (Hbody : body = flat_map (tagged_rows cwd csv_reader root_dir fs) inputs).
    { subst body. apply flat_map_ext. intros k. unfold tagged_rows.
      by rewrite state_of_path_derived. }
    rewrite Hbody. clearbody body. clear Hbody.
    subst run. unfold stream_concat. fold root inputs.
    destruct inputs as [| k0 rest] eqn:Hinputs; [done |]. rewrite <- Hinputs in *.
    unfold mbind, M_bind, bind. rewrite Hmk. fold out.
    assert (write_file out [] fs0 = (inl tt, <[ out := File [] ]> fs0)) as ->.
    { unfold write_file. by destruct (fs0 !! out) as [[| ?] |]. }
    unfold copy_inputs. fold out.
    set (fs1 := <[ out := File [] ]> fs0).
    assert (Hsame : ∀ k, k ∈ inputs → fs1 !! (root ++ k) = fs !! (root ++ k)).
    { intros k Hk. destruct (Hgood k Hk) as [Hneq (bytes & rows & Hfile & _)].
      unfold fs1. rewrite lookup_insert_ne by done.
      transitivity (Some (File bytes)); [| symmetry; exact Hfile].
      eapply mkdir_parents_preserves; [exact Hmk | exact Hfile]. }
    destruct (foldl_concat_file cwd csv_reader root_dir header fs1 inputs Hroot
                writer_start) as (Hw & Ht & He).
    { intros k Hk. split; [by apply elem_of_bills_paths in Hk as [? _] |].
      destruct (Hgood k Hk) as [_ (bytes & rows & Hfile & Hread)].
      exists bytes, rows. split; [| done]. fold root. by rewrite Hsame. }
    simpl in Hw, Ht, He. rewrite Hw, Ht, He.
    rewrite (tagged_rows_ext cwd csv_reader root_dir fs fs1 inputs Hsame).
    unfold fs1. rewrite insert_insert_eq.
    by rewrite Hinputs.
Qed.

Lemma stream_concat_spec_witness :
  let run := stream_concat [] ExampleStream.simple_csv_reader ExampleStream.simple_csv_writer
               ExampleStream.root_dir ExampleStream.output_path ExampleStream.fs in
  derived_state_code ["data"; "2021-2022"; "AK-2021"; "s1"; "CSV"; "bills.csv"] = "AK" ∧
  run.1 = inl (Done 3 []) ∧
  run.2 !! ["data"; "concatenated-2021-2022"; "all-bills.csv"]
  = Some (ExampleStream.file
            [ ["bill_id"; "title"; "state"];
              ["1"; "Roads"; "AK"]; ["2"; "Fish"; "AK"]; ["7"; "Water"; "WY"] ]).
Proof.
  intros run. split; [vm_compute; reflexivity |].
  destruct (stream_concat_spec [] ExampleStream.simple_csv_reader
              ExampleStream.simple_csv_writer ExampleStream.root_dir
              ExampleStream.output_path ExampleStream.fs) as (_ & _ & _ & Hrun).
  subst run.
  set (r := mkdir_parents ["data"; "concatenated-2021-2022"] ExampleStream.fs).
  assert (Hr : r.1 = inl tt) by (vm_compute; reflexivity).
  rewrite (Hrun ["bill_id"; "title"] r.2).
  - split; vm_compute; reflexivity.
  - vm_compute. discriminate.
  - vm_compute. discriminate.
  - intros k Hk.
    assert (Hks : bills_paths (resolve [] ExampleStream.root_dir) ExampleStream.fs
                  = [["AK-2021"; "s1"; "CSV"; "bills.csv"]; ["WY"; "s1"; "CSV"; "bills.csv"]])
      by (vm_compute; reflexivity).
    rewrite Hks in Hk.
    apply elem_of_cons in Hk as [-> | Hk];
      [| apply elem_of_cons in Hk as [-> | Hk];
         [| apply not_elem_of_nil in Hk; destruct Hk]].
    + split; [by_evaluation |].
      eexists _, _. split; vm_compute; reflexivity.
    + split; [by_evaluation |].
      eexists _, _. split; vm_compute; reflexivity.
  - change (r = (inl tt, r.2)).
    destruct r as [[[] | e] fs0]; [reflexivity | discriminate].
  - by_evaluation.
Defined.

(** ** Corpus Builder, aggregate mode *)

Section DropDuplicatesProperties.

Context {cell : Type} `{EqDecision cell}.

Implicit Types (row : list cell) (seen rs : list (list cell)).

Lemma length_duplicated_from rs : ∀ seen,
  length (duplicated_from seen rs) = length rs.
Proof. induction rs as [| row rs IH]; intros seen; simpl; by rewrite ?IH. Qed.

(** The mask at a position says whether the row there occurs among
    the rows seen before it. *)
Lemma duplicated_from_lookup rs : ∀ seen i row,
  rs !! i = Some row →
  duplicated_from seen rs !! i = Some (bool_decide (row ∈ seen ++ take i rs)).
Proof.
  induction rs as [| r rs IH]; intros seen i row Hi; [done |].
  destruct i as [| i]; simpl in *.
  - simplify_eq. by rewrite app_nil_r.
  - rewrite (IH _ _ _ Hi). by rewrite <- (assoc_L (++)).
Qed.

Lemma duplicated_true_iff rs i :
  duplicated rs !! i = Some true ↔ duplicate_of_earlier rs i.
Proof.
  unfold duplicated, duplicate_of_earlier. split.
  - intros Hm.
    assert (i < length rs) as Hlt.
    { rewrite <- (length_duplicated_from rs []). by eapply lookup_lt_Some. }
    destruct (lookup_lt_is_Some_2 rs i Hlt) as [row Hrow].
    rewrite (duplicated_from_lookup rs [] i row Hrow) in Hm. simpl in Hm.
    injection Hm as Hm. apply bool_decide_eq_true in Hm.
    apply list_elem_of_lookup in Hm as [j Hj].
    apply lookup_take_Some in Hj as [Hj Hji]. by exists j, row.
  - intros (j & row & Hji & Hj & Hi).
    rewrite (duplicated_from_lookup rs [] i row Hi). simpl. f_equal.
    apply bool_decide_eq_true. apply list_elem_of_lookup. exists j.
    by apply lookup_take_Some.
Qed.

Lemma unmasked_cons row rs seen :
  unmasked (row :: rs) (duplicated_from seen (row :: rs))
  = if decide (row ∈ seen) then unmasked rs (duplicated_from (seen ++ [row]) rs)
    else row :: unmasked rs (duplicated_from (seen ++ [row]) rs).
Proof.
  unfold unmasked. simpl. rewrite filter_cons. simpl.
  destruct (decide (row ∈ seen)) as [Hin | Hnin].
  - rewrite (bool_decide_eq_true_2 _ Hin). by rewrite decide_False.
  - rewrite (bool_decide_eq_false_2 _ Hnin). by rewrite decide_True.
Qed.

(** What is kept: each row that was not seen before, once. *)
Lemma elem_of_unmasked rs : ∀ seen row,
  row ∈ unmasked rs (duplicated_from seen rs) ↔ row ∈ rs ∧ row ∉ seen.
Proof.
  induction rs as [| r rs IH]; intros seen row.
  - unfold unmasked. simpl. rewrite elem_of_nil. tauto.
  - rewrite unmasked_cons. destruct (decide (r ∈ seen)) as [Hin | Hnin].
    + rewrite IH, elem_of_app, list_elem_of_singleton, elem_of_cons.
      destruct (decide (row = r)) as [-> | ?]; tauto.
    + rewrite elem_of_cons, IH, elem_of_app, list_elem_of_singleton, elem_of_cons.
      destruct (decide (row = r)) as [-> | ?]; tauto.
Qed.

Lemma NoDup_unmasked rs : ∀ seen, NoDup (unmasked rs (duplicated_from seen rs)).
Proof.
  induction rs as [| r rs IH]; intros seen.
  - unfold unmasked. simpl. constructor.
  - rewrite unmasked_cons. destruct (decide (r ∈ seen)); [apply IH |].
    constructor; [| apply IH].
    rewrite elem_of_unmasked, elem_of_app, list_elem_of_singleton. tauto.
Qed.

Lemma sublist_unmasked rs : ∀ seen,
  unmasked rs (duplicated_from seen rs) `sublist_of` rs.
Proof.
  induction rs as [| r rs IH]; intros seen.
  - unfold unmasked. simpl. constructor.
  - rewrite unmasked_cons. destruct (decide (r ∈ seen)).
    + by apply sublist_cons.
    + by apply sublist_skip.
Qed.

(** Every row is either kept or masked as a duplicate. *)
Lemma length_unmasked rs : ∀ seen,
  length (unmasked rs (duplicated_from seen rs))
  + length (filter (λ b, b = true) (duplicated_from seen rs))
  = length rs.
Proof.
  induction rs as [| r rs IH]; intros seen; [done |].
  rewrite unmasked_cons. cbn [duplicated_from]. rewrite filter_cons.
  specialize (IH (seen ++ [r])).
  destruct (decide (r ∈ seen)) as [Hin | Hnin].
  - rewrite (bool_decide_eq_true_2 _ Hin), decide_True by done. simpl. lia.
  - rewrite (bool_decide_eq_false_2 _ Hnin), decide_False by done. simpl. lia.
Qed.

End DropDuplicatesProperties.

(** The rows that are kept are the rows at the positions that are not
    duplicates of an earlier row, in order; every position is either
    kept or one of the duplicates. *)
Lemma unmasked_positions {cell : Type} `{EqDecision cell} (all : list (list cell)) :
  ∀ (rest : list (list cell)) (i : nat),
  drop i all = rest →
  unmasked rest (duplicated_from (take i all) rest)
  = omap (λ j, all !! j)
         (filter (λ j, ¬ duplicate_of_earlier all j) (seq i (length rest))) ∧
  length (unmasked rest (duplicated_from (take i all) rest))
  + length (filter (duplicate_of_earlier all) (seq i (length rest)))
  = length rest.
Proof.
  induction rest as [| r rest IH]; intros i Hdrop; [done |].
  assert (Hi : all !! i = Some r).
  { rewrite <- (Nat.add_0_r i), <- lookup_drop. by rewrite Hdrop. }
  assert (Hdrop' : drop (S i) all = rest).
  { replace (S i) with (i + 1) by lia. by rewrite <- drop_drop, Hdrop. }
  assert (Htake : take (S i) all = take i all ++ [r]) by (by apply take_S_r).
  assert (Hdup : r ∈ take i all ↔ duplicate_of_earlier all i).
  { split.
    - intros [j Hj]%list_elem_of_lookup. apply lookup_take_Some in Hj as [Hj Hlt].
      by exists j, r.
    - intros (j & row & Hlt & Hj & Hi'). assert (row = r) as -> by congruence.
      apply list_elem_of_lookup. exists j. by apply lookup_take_Some. }
  destruct (IH (S i) Hdrop') as [IHrows IHlen]. rewrite Htake in IHrows, IHlen.
  rewrite unmasked_cons. cbn [length seq]. rewrite !filter_cons.
  destruct (decide (r ∈ take i all)) as [Hin | Hnin].
  - rewrite decide_False by (intros Hn; by apply Hn, Hdup).
    rewrite decide_True by (by apply Hdup).
    split; [done |]. simpl. lia.
  - rewrite decide_True by (intros Hd; by apply Hnin, Hdup).
    rewrite decide_False by (intros Hd; by apply Hnin, Hdup).
    split; [| simpl; lia]. simpl. rewrite Hi. simpl. by f_equal.
Qed.

(** C8.  Aggregate-mode deduplication removes exactly the rows that are
    equal, in every column, to a row before them: the rows left are the
    rows at the other positions, in order, so every row of the
    combined frame is kept once, where it first occurs.  The row count
    after never exceeds the count before, and the difference the script
    reports is the number of positions that hold a duplicate of an
    earlier row. *)
Theorem drop_duplicates_spec
    {cell : Type} `{EqDecision cell}
    (concat : list (@DataFrame cell) → @DataFrame cell)
    (to_csv : @DataFrame cell → list Byte.byte) (SAVE_PATH : list string)
    (reads : list (@DataFrame cell + error)) :
  let combined := concat (all_bills reads) in
  let deduplicated := drop_duplicates combined in
  let before := Z.of_nat (length (rows combined)) in
  let after := Z.of_nat (length (rows deduplicated)) in
  let positions := seq 0 (length (rows combined)) in
  let kept := filter (λ i, ¬ duplicate_of_earlier (rows combined) i) positions in
  let removed := filter (duplicate_of_earlier (rows combined)) positions in
  columns deduplicated = columns combined ∧
  rows deduplicated = omap (λ i, rows combined !! i) kept ∧
  (∀ i, duplicated (rows combined) !! i = Some true
        ↔ duplicate_of_earlier (rows combined) i) ∧
  (∀ row, row ∈ rows deduplicated ↔ row ∈ rows combined) ∧
  NoDup (rows deduplicated) ∧
  rows deduplicated `sublist_of` rows combined ∧
  (after ≤ before)%Z ∧
  (before - after)%Z = Z.of_nat (length removed) ∧
  (all_bills reads ≠ [] →
   concat_legiscan_combined concat to_csv SAVE_PATH reads
   = (mkdir_parents (parent SAVE_PATH) ;;
      write_file SAVE_PATH (to_csv deduplicated) ;;
      mret (WrittenCombined before after (Z.of_nat (length removed))))).
Proof.
  intros combined deduplicated before after positions kept removed.
  destruct (unmasked_positions (rows combined) (rows combined) 0 eq_refl)
    as [Hrows Hlen].
  fold positions kept in Hrows. fold positions removed in Hlen.
  change (length (rows deduplicated) + length removed = length (rows combined)) in Hlen.
  assert (Hdiff : (before - after)%Z = Z.of_nat (length removed))
    by (subst before after; lia).
  split_and!.
  - done.
  - exact Hrows.
  - intros i. apply duplicated_true_iff.
  - intros row. subst deduplicated. unfold drop_duplicates, duplicated. simpl.
    rewrite elem_of_unmasked, elem_of_nil. tauto.
  - apply NoDup_unmasked.
  - apply sublist_unmasked.
  - subst before after. lia.
  - exact Hdiff.
  - intros Hne. unfold concat_legiscan_combined.
    destruct (all_bills reads) as [| df frames] eqn:Hframes; [done |].
    fold combined deduplicated before after. by rewrite Hdiff.
Qed.

Lemma drop_duplicates_spec_witness :
  let reads := [inl ExampleCombined.ak; inr ParserError; inl ExampleCombined.ak_again] in
  let combined := ExampleCombined.concat_same_columns (all_bills reads) in
  filter (duplicate_of_earlier (rows combined)) (seq 0 (length (rows combined))) = [2; 4] ∧
  rows (drop_duplicates combined)
  = [ [Some "AK"; Some "1"; Some "2"]; [Some "AK"; Some "2"; Some "1"];
      [Some "AK"; Some "2"; Some "3"] ] ∧
  (concat_legiscan_combined ExampleCombined.concat_same_columns ExampleCombined.to_csv
     ExampleCombined.SAVE_PATH reads ExampleCombined.fs).1
  = inl (WrittenCombined 5 3 2).
Proof.
  intros reads combined.
  destruct (drop_duplicates_spec ExampleCombined.concat_same_columns
              ExampleCombined.to_csv ExampleCombined.SAVE_PATH reads)
    as (_ & Hrows & _ & _ & _ & _ & _ & _ & Hrun).
  split_and!.
  - vm_compute. reflexivity.
  - fold combined in Hrows. rewrite Hrows. vm_compute. reflexivity.
  - rewrite Hrun by (vm_compute; discriminate).
    vm_compute. reflexivity.
Defined.

(** * Further properties of the code *)

(** ** letters_only *)

Lemma letters_only_app (s1 s2 : string) :
  letters_only (String.append s1 s2)
  = String.append (letters_only s1) (letters_only s2).
Proof.
  induction s1 as [| c s1 IH]; simpl; [done |].
  destruct (is_ascii_letter c); simpl; by rewrite IH.
Qed.

Lemma letters_only_letters (s : string) :
  Forall (λ c, is_ascii_letter c = true) (list_ascii_of_string (letters_only s)).
Proof.
  induction s as [| c s IH]; simpl; [constructor |].
  destruct (is_ascii_letter c) eqn:Hc; simpl; [by constructor | done].
Qed.

Lemma letters_only_fixed (s : string) :
  Forall (λ c, is_ascii_letter c = true) (list_ascii_of_string s) →
  letters_only s = s.
Proof.
  induction s as [| c s IH]; simpl; [done |].
  intros [Hc Hs]%Forall_cons. rewrite Hc. by rewrite IH.
Qed.

(** X1.  [letters_only] returns the characters of its argument that are
    in [A-Za-z], in the order they have there, and nothing else.  So
    every character of the result is a letter, a string of letters is
    returned as it is and only such a string is, and the function is
    idempotent; it distributes over concatenation and never lengthens
    its argument. *)
Theorem letters_only_spec (s1 s2 : string) :
  list_ascii_of_string (letters_only s1) = filter A_Za_z (list_ascii_of_string s1) ∧
  Forall (λ c, is_ascii_letter c = true) (list_ascii_of_string (letters_only s1)) ∧
  letters_only (letters_only s1) = letters_only s1 ∧
  (letters_only s1 = s1 ↔
   Forall (λ c, is_ascii_letter c = true) (list_ascii_of_string s1)) ∧
  letters_only (String.append s1 s2)
  = String.append (letters_only s1) (letters_only s2) ∧
  (String.length (letters_only s1) ≤ String.length s1)%nat.
Proof.
  split_and!.
  - by rewrite letters_only_filter, list_ascii_of_string_of_list_ascii.
  - apply letters_only_letters.
  - apply letters_only_fixed, letters_only_letters.
  - split; [| apply letters_only_fixed].
    intros <-. apply letters_only_letters.
  - apply letters_only_app.
  - induction s1 as [| c s IH]; simpl; [done |].
    destruct (is_ascii_letter c); simpl; lia.
Qed.

(** ** Safe Extractor: what extraction does inside the destination *)

Lemma normalize_app (ps qs : list string) : ∀ acc : list string,
  normalize acc (ps ++ qs) = normalize (normalize acc ps) qs.
Proof.
  induction ps as [| p ps IH]; intros acc; simpl; [done |].
  destruct (String.eqb p ".."); [apply IH |].
  destruct (String.eqb p "."); apply IH.
Qed.

Lemma normalize_no_dotdot (ps : list string) : ∀ acc : list string,
  ".." ∉ ps → "." ∉ ps → normalize acc ps = acc ++ ps.
Proof.
  induction ps as [| p ps IH]; intros acc Hn Hd; simpl; [by rewrite app_nil_r |].
  apply not_elem_of_cons in Hn as [Hp Hn].
  apply not_elem_of_cons in Hd as [Hp' Hd].
  destruct (String.eqb_spec p "..") as [-> | _]; [done |].
  destruct (String.eqb_spec p ".") as [-> | _]; [done |].
  rewrite IH by done. by rewrite <- (assoc_L (++)).
Qed.

(** [Path] keeps no ["."] component. *)
Lemma Path_no_dot (s : string) : "." ∉ parts (Path s).
Proof.
  unfold Path. simpl. intros Hin. apply list_elem_of_filter in Hin as [[_ Hne] _].
  by apply Hne.
Qed.

Lemma resolve_joinpath_relative (cwd : list string) (a b : PurePath) :
  absolute b = false →
  resolve cwd (joinpath a b) = normalize (resolve cwd a) (parts b).
Proof.
  intros Hb. unfold joinpath, resolve. rewrite Hb. simpl.
  destruct (absolute a); apply normalize_app.
Qed.

(** X2.  An archive entry whose name is relative and has no [".."]
    component is never taken for unsafe: its target is the destination
    followed by the components of the name, which is inside the
    destination. *)
Theorem plain_entry_is_extracted_below_destination
    (cwd : list string) (dest_dir : PurePath) (m : ZipInfo) :
  absolute (Path (filename m)) = false →
  ".." ∉ parts (Path (filename m)) →
  out_path cwd dest_dir m = resolve cwd dest_dir ++ parts (Path (filename m)) ∧
  is_within_directory cwd dest_dir (out_path cwd dest_dir m) = true.
Proof.
  intros Hrel Hdots.
  assert (Hout : out_path cwd dest_dir m
                 = resolve cwd dest_dir ++ parts (Path (filename m))).
  { unfold out_path. rewrite resolve_joinpath_relative by done.
    apply normalize_no_dotdot; [done | apply Path_no_dot]. }
  split; [done |].
  unfold is_within_directory. rewrite Hout.
  apply bool_decide_eq_true_2. by apply prefix_app_r.
Qed.

Lemma plain_entry_is_extracted_below_destination_witness :
  out_path ExampleArchive.cwd ExampleArchive.dir_path ExampleArchive.good_file
  = ["data"; "2021-2022"; "AK"; "2021-2022_32nd_Legislature"; "csv"; "bills.csv"] ∧
  is_within_directory ExampleArchive.cwd ExampleArchive.dir_path
    (out_path ExampleArchive.cwd ExampleArchive.dir_path ExampleArchive.good_file) = true.
Proof.
  apply (plain_entry_is_extracted_below_destination ExampleArchive.cwd
           ExampleArchive.dir_path ExampleArchive.good_file).
  - reflexivity.
  - by_evaluation.
Defined.

(** What one step of extraction does to a path [p]: it keeps the node
    there, creates a directory there, or writes the member's bytes
    there. *)

Lemma mkdir_chain_target (rest : list string) : ∀ (pre : list string) (fs fs' : filesystem),
  mkdir_chain pre rest fs = Some fs' → rest ≠ [] → fs' !! (pre ++ rest) = Some Dir.
Proof.
  induction rest as [| x rest IH]; intros pre fs fs' Hmk Hne; [done |].
  simpl in Hmk.
  replace (pre ++ x :: rest) with ((pre ++ [x]) ++ rest)
    by (by rewrite <- (assoc_L (++))).
  destruct (fs !! (pre ++ [x])) as [[| data] |] eqn:Hq; [| done |].
  - destruct rest as [| y rest]; [| by apply (IH _ _ _ Hmk)].
    simpl in Hmk. simplify_eq. by rewrite app_nil_r.
  - destruct rest as [| y rest]; [| by apply (IH _ _ _ Hmk)].
    simpl in Hmk. simplify_eq. by rewrite app_nil_r, lookup_insert_eq.
Qed.

Lemma mkdir_parents_target (q : list string) (fs fs' : filesystem) :
  mkdir_parents q fs = (inl tt, fs') → q ≠ [] → fs' !! q = Some Dir.
Proof.
  unfold mkdir_parents. intros Hmk Hq.
  destruct (mkdir_chain [] q fs) as [fs1 |] eqn:Hc; simplify_eq.
  by apply (mkdir_chain_target q [] fs).
Qed.

Lemma mkdir_parents_keeps (q p : list string) (fs fs' : filesystem) (r : unit + error) (x : node) :
  mkdir_parents q fs = (r, fs') → fs !! p = Some x → fs' !! p = Some x.
Proof.
  unfold mkdir_parents. intros Hmk Hp.
  destruct (mkdir_chain [] q fs) as [fs1 |] eqn:Hc; simplify_eq; [| done].
  destruct (mkdir_chain_changes _ _ _ _ Hc p) as [E | (N & _)]; congruence.
Qed.

Lemma extract_member_keeps (cwd : list string) (dest : PurePath) (m : ZipInfo)
    (fs : filesystem) (p : list string) (x : node) :
  fs !! p = Some x →
  ∃ y, (extract_member cwd dest m fs).2 !! p = Some y ∧ same_kind x y ∧
       (y = x ∨ (is_junk m = false ∧ ZipInfo_is_dir m = false ∧
                 out_path cwd dest m = p ∧ y = File (content m))).
Proof.
  intros Hp. unfold extract_member.
  assert (Hsame : ∃ y, fs !! p = Some y ∧ same_kind x y ∧
            (y = x ∨ (is_junk m = false ∧ ZipInfo_is_dir m = false ∧
                      out_path cwd dest m = p ∧ y = File (content m)))).
  { exists x. split_and!; [done | by destruct x | by left]. }
  destruct (is_junk m) eqn:Hj; [done |].
  destruct (negb _); [done |].
  destruct (ZipInfo_is_dir m) eqn:Hd.
  - destruct (mkdir_parents (out_path cwd dest m) fs) as [r fs1] eqn:Hmk.
    exists x. split_and!; [| by destruct x | by left].
    by eapply mkdir_parents_keeps.
  - unfold mbind, M_bind, bind.
    destruct (mkdir_parents (parent (out_path cwd dest m)) fs) as [[[] | e] fs1] eqn:Hmk.
    + pose proof (mkdir_parents_keeps _ p _ _ _ x Hmk Hp) as Hp1.
      unfold write_file.
      destruct (fs1 !! out_path cwd dest m) as [[| d] |] eqn:Ho; simpl.
      * exists x. split_and!; [done | by destruct x | by left].
      * destruct (decide (out_path cwd dest m = p)) as [Heq | Hne].
        -- subst p. rewrite Hp1 in Ho. injection Ho as ->.
           exists (File (content m)). rewrite lookup_insert_eq.
           split_and!; [done | done | by right].
        -- exists x. rewrite lookup_insert_ne by done.
           split_and!; [done | by destruct x | by left].
      * destruct (decide (out_path cwd dest m = p)) as [Heq | Hne].
        -- subst p. congruence.
        -- exists x. rewrite lookup_insert_ne by done.
           split_and!; [done | by destruct x | by left].
    + exists x. split_and!; [| by destruct x | by left].
      by eapply mkdir_parents_keeps.
Qed.

Lemma same_kind_trans (x y z : node) : same_kind x y → same_kind y z → same_kind x z.
Proof. by destruct x, y, z. Qed.

Lemma same_kind_refl (x : node) : same_kind x x.
Proof. by destruct x. Qed.

Lemma extract_members_keeps (cwd : list string) (dest : PurePath) (ms : list ZipInfo) :
  ∀ (fs : filesystem) (p : list string) (x : node),
  fs !! p = Some x →
  ∃ y, (extract_members cwd dest ms fs).2 !! p = Some y ∧ same_kind x y ∧
       (y = x ∨ ∃ m, m ∈ ms ∧ written_to cwd dest p m ∧ y = File (content m)).
Proof.
  induction ms as [| m ms IH]; intros fs p x Hp.
  - exists x. split_and!; [done | apply same_kind_refl | by left].
  - simpl. unfold mbind, M_bind, bind.
    destruct (extract_member_keeps cwd dest m fs p x Hp) as (y & Hy & Hk & Hcase).
    destruct (extract_member cwd dest m fs) as [[[] | e] fs1]; simpl in Hy.
    + destruct (IH fs1 p y Hy) as (z & Hz & Hk' & Hcase').
      exists z. split_and!; [done | by eapply same_kind_trans |].
      destruct Hcase' as [-> | (m' & Hin & Hw & ->)].
      * destruct Hcase as [-> | (Hj & Hd & Ho & ->)]; [by left | right].
        exists m. split_and!; [apply list_elem_of_here | done | done].
      * right. exists m'. split_and!; [by apply list_elem_of_further | done | done].
    + exists y. split_and!; [done | done |].
      destruct Hcase as [-> | (Hj & Hd & Ho & ->)]; [by left | right].
      exists m. split_and!; [apply list_elem_of_here | done | done].
Qed.

(** X3.  Extraction removes nothing and changes the kind of nothing,
    whether it completes or fails: a directory that was there is still a
    directory, a file is still a file, and it holds what it held unless
    a file entry of the archive that is not junk has it as its target,
    in which case it holds the bytes of such an entry. *)
Theorem safe_extract_zip_keeps_existing
    (cwd : list string) (infolist : list Byte.byte → option (list ZipInfo))
    (zip_path dest_dir : PurePath) (fs : filesystem) (p : list string) (x : node) :
  fs !! p = Some x →
  ∃ y, (safe_extract_zip cwd infolist zip_path dest_dir fs).2 !! p = Some y ∧
       same_kind x y ∧
       (y = x ∨
        ∃ bytes ms m, fs !! resolve cwd zip_path = Some (File bytes) ∧
                      infolist bytes = Some ms ∧ m ∈ ms ∧
                      written_to cwd dest_dir p m ∧ y = File (content m)).
Proof.
  intros Hp. unfold safe_extract_zip.
  assert (Hsame : ∃ y, fs !! p = Some y ∧ same_kind x y ∧
            (y = x ∨
             ∃ bytes ms m, fs !! resolve cwd zip_path = Some (File bytes) ∧
                           infolist bytes = Some ms ∧ m ∈ ms ∧
                           written_to cwd dest_dir p m ∧ y = File (content m))).
  { exists x. split_and!; [done | apply same_kind_refl | by left]. }
  destruct (fs !! resolve cwd zip_path) as [[| bytes] |] eqn:Hz; [done | | done].
  destruct (infolist bytes) as [ms |] eqn:Hms; [| done].
  destruct (extract_members_keeps cwd dest_dir ms fs p x Hp) as (y & Hy & Hk & Hcase).
  exists y. split_and!; [done | done |].
  destruct Hcase as [-> | (m & Hin & Hw & ->)]; [by left | right].
  by exists bytes, ms, m.
Qed.

Lemma safe_extract_zip_keeps_existing_witness :
  let fs' := (safe_extract_zip ExampleArchive.cwd
                (ExampleArchive.infolist_of [ExampleArchive.good_dir; ExampleArchive.good_file])
                ExampleArchive.zip_path ExampleArchive.dir_path ExampleArchive.fs_both).2 in
  ∃ y, fs' !! ["data"; "2021-2022"; "stale.csv"] = Some y ∧
       same_kind (File [Byte.x30]) y.
Proof.
  intros fs'.
  destruct (safe_extract_zip_keeps_existing ExampleArchive.cwd
              (ExampleArchive.infolist_of [ExampleArchive.good_dir; ExampleArchive.good_file])
              ExampleArchive.zip_path ExampleArchive.dir_path ExampleArchive.fs_both
              ["data"; "2021-2022"; "stale.csv"] (File [Byte.x30]))
    as (y & Hy & Hk & _); [vm_compute; reflexivity |].
  by exists y.
Defined.

Lemma extract_member_result (cwd : list string) (dest : PurePath) (m : ZipInfo)
    (fs fs1 : filesystem) :
  extract_member cwd dest m fs = (inl tt, fs1) →
  is_junk m = false →
  resolve cwd dest `prefix_of` out_path cwd dest m ∧
  (ZipInfo_is_dir m = true → out_path cwd dest m ≠ [] →
     fs1 !! out_path cwd dest m = Some Dir) ∧
  (ZipInfo_is_dir m = false →
     fs1 !! out_path cwd dest m = Some (File (content m))).
Proof.
  unfold extract_member. intros Hex Hj. rewrite Hj in Hex.
  destruct (is_within_directory cwd dest (out_path cwd dest m)) eqn:Hw;
    simpl in Hex; [| done].
  unfold is_within_directory in Hw. apply bool_decide_eq_true in Hw.
  split; [done |].
  destruct (ZipInfo_is_dir m).
  - split; [| done]. intros _ Hne. by apply (mkdir_parents_target _ fs).
  - split; [done |]. intros _.
    unfold mbind, M_bind, bind in Hex.
    destruct (mkdir_parents (parent (out_path cwd dest m)) fs) as [[[] | e] fs0];
      [| done].
    unfold write_file in Hex.
    destruct (fs0 !! out_path cwd dest m) as [[| d] |]; simplify_eq;
      by rewrite lookup_insert_eq.
Qed.

(** X4.  When extraction completes, every entry that is not junk is in
    the file system at its target, inside the destination: a directory
    entry as a directory, a file entry as a file that holds the bytes of
    the last file entry with that target -- its own bytes when no later
    entry is written to the same target. *)
Theorem safe_extract_zip_extracts
    (cwd : list string) (infolist : list Byte.byte → option (list ZipInfo))
    (zip_path dest_dir : PurePath) (bytes : list Byte.byte)
    (pre : list ZipInfo) (m : ZipInfo) (post : list ZipInfo) (fs fs' : filesystem) :
  fs !! resolve cwd zip_path = Some (File bytes) →
  infolist bytes = Some (pre ++ m :: post) →
  safe_extract_zip cwd infolist zip_path dest_dir fs = (inl tt, fs') →
  is_junk m = false →
  let out := out_path cwd dest_dir m in
  resolve cwd dest_dir `prefix_of` out ∧
  (ZipInfo_is_dir m = true → out ≠ [] → fs' !! out = Some Dir) ∧
  (ZipInfo_is_dir m = false →
     (∃ m', m' ∈ m :: post ∧ written_to cwd dest_dir out m' ∧
            fs' !! out = Some (File (content m'))) ∧
     ((∀ m', m' ∈ post → ¬ written_to cwd dest_dir out m') →
      fs' !! out = Some (File (content m)))).
Proof.
  intros Hzip Hms Hrun Hj out. unfold safe_extract_zip in Hrun.
  rewrite Hzip, Hms, extract_members_app in Hrun.
  destruct (extract_members cwd dest_dir pre fs) as [[[] | e] fs1]; [| done].
  simpl in Hrun. unfold mbind, M_bind, bind in Hrun.
  destruct (extract_member cwd dest_dir m fs1) as [[[] | e] fs2] eqn:Hm; [| done].
  destruct (extract_member_result _ _ _ _ _ Hm Hj) as (Hin & Hdir & Hfile).
  fold out in Hin, Hdir, Hfile.
  split; [done |]. split.
  - intros Hd Hne.
    destruct (extract_members_keeps cwd dest_dir post fs2 out Dir (Hdir Hd Hne))
      as (y & Hy & Hk & _).
    rewrite Hrun in Hy. simpl in Hy. by destruct y.
  - intros Hd.
    destruct (extract_members_keeps cwd dest_dir post fs2 out _ (Hfile Hd))
      as (y & Hy & _ & Hcase).
    rewrite Hrun in Hy. simpl in Hy. split.
    + destruct Hcase as [-> | (m' & Hm' & Hw & ->)].
      * exists m. split_and!; [apply list_elem_of_here | done | done].
      * exists m'. split_and!; [by apply list_elem_of_further | done | done].
    + intros Hlast. destruct Hcase as [-> | (m' & Hm' & Hw & ->)]; [done |].
      by destruct (Hlast m' Hm').
Qed.

Lemma safe_extract_zip_extracts_witness :
  let fs' := (safe_extract_zip ExampleArchive.cwd
                (ExampleArchive.infolist_of
                   ([ExampleArchive.good_dir] ++ ExampleArchive.good_file :: []))
                ExampleArchive.zip_path ExampleArchive.dir_path
                ExampleArchive.fs_zip_only).2 in
  fs' !! ["data"; "2021-2022"; "AK"; "2021-2022_32nd_Legislature"; "csv"; "bills.csv"]
  = Some (File ExampleArchive.bills_csv).
Proof.
  intros fs'.
  destruct (safe_extract_zip_extracts ExampleArchive.cwd
              (ExampleArchive.infolist_of
                 ([ExampleArchive.good_dir] ++ ExampleArchive.good_file :: []))
              ExampleArchive.zip_path ExampleArchive.dir_path ExampleArchive.zip_bytes
              [ExampleArchive.good_dir] ExampleArchive.good_file []
              ExampleArchive.fs_zip_only fs')
    as (_ & _ & Hfile).
  - vm_compute. reflexivity.
  - vm_compute. reflexivity.
  - set (r := safe_extract_zip _ _ _ _ _) in *.
    assert (Hr : r.1 = inl tt) by (vm_compute; reflexivity).
    subst fs'. destruct r as [[[] | e] fs1]; [reflexivity | discriminate].
  - vm_compute. reflexivity.
  - apply Hfile; [vm_compute; reflexivity |].
    intros m' Hm'. by apply not_elem_of_nil in Hm'.
Defined.

(** ** Archive Resolver: what it touches and what it returns *)

Lemma rmtree_untouched (cwd : list string) (p : PurePath) (fs fs' : filesystem)
    (r : unit + error) :
  rmtree cwd p fs = (r, fs') → untouched_outside (resolve cwd p) fs fs'.
Proof.
  unfold rmtree. intros Hrm q Hq. left.
  destruct (fs !! resolve cwd p) as [[| d] |]; simplify_eq; [| done | done].
  destruct (rmdir_error cwd p); simplify_eq;
    (destruct (fs !! q) as [x |] eqn:Hx;
       [apply map_lookup_filter_Some_2; [done | simpl; tauto]
       | apply map_lookup_filter_None_2; by left]).
Qed.


Lemma path_exists_Some (cwd : list string) (p : PurePath) (fs : filesystem) :
  path_exists cwd p fs = true → is_Some (fs !! resolve cwd p).
Proof.
  unfold path_exists, is_dir, exists_.
  destruct (String.eqb (path_name p) "."); intros H%bool_decide_eq_true; [| done].
  by rewrite H.
Qed.

Lemma safe_extract_zip_untouched (cwd : list string)
    (infolist : list Byte.byte → option (list ZipInfo))
    (zip_path dest_dir : PurePath) (fs : filesystem) :
  untouched_outside (resolve cwd dest_dir) fs
    (safe_extract_zip cwd infolist zip_path dest_dir fs).2.
Proof.
  unfold safe_extract_zip.
  destruct (fs !! resolve cwd zip_path) as [[| bytes] |];
    try apply untouched_outside_refl.
  destruct (infolist bytes) as [ms |]; [| apply untouched_outside_refl].
  apply extract_members_untouched.
Qed.

Lemma extract_into_untouched (cwd : list string)
    (infolist : list Byte.byte → option (list ZipInfo))
    (zip_path dir_path : PurePath) (fs : filesystem) :
  untouched_outside (resolve cwd dir_path) fs
    (extract_into cwd infolist zip_path dir_path fs).2.
Proof.
  unfold extract_into, mbind, M_bind, bind.
  destruct (mkdir_parents (resolve cwd dir_path) fs) as [[[] | e] fs1] eqn:Hmk.
  - eapply untouched_outside_trans.
    + eapply mkdir_parents_untouched; [reflexivity | reflexivity | exact Hmk].
    + apply safe_extract_zip_untouched.
  - eapply mkdir_parents_untouched; [reflexivity | reflexivity | exact Hmk].
Qed.

Lemma resolve_root_dir_untouched (cwd : list string)
    (infolist : list Byte.byte → option (list ZipInfo))
    (st_mtime : list string → Z) (input_path zip_path dir_path : PurePath)
    (fs : filesystem) :
  zip_and_dir input_path = Some (zip_path, dir_path) →
  untouched_outside (resolve cwd dir_path) fs
    (resolve_root_dir cwd infolist st_mtime input_path fs).2.
Proof.
  intros Hpaths. unfold resolve_root_dir. rewrite Hpaths.
  destruct (path_exists cwd zip_path fs);
    [| destruct (path_exists cwd dir_path fs); apply untouched_outside_refl].
  unfold mbind, M_bind, bind.
  destruct (path_exists cwd dir_path fs).
  - destruct (_ >? _)%Z.
    + destruct (rmtree cwd dir_path fs) as [[[] | e] fs1] eqn:Hrm.
      * pose proof (extract_into_untouched cwd infolist zip_path dir_path fs1) as Hex.
        destruct (extract_into cwd infolist zip_path dir_path fs1) as [[[] | e] fs2];
          simpl in *;
          (eapply untouched_outside_trans; [by eapply rmtree_untouched | exact Hex]).
      * simpl. by eapply rmtree_untouched.
    + apply untouched_outside_refl.
  - pose proof (extract_into_untouched cwd infolist zip_path dir_path fs) as Hex.
    by destruct (extract_into cwd infolist zip_path dir_path fs) as [[[] | e] fs2].
Qed.

(** X5.  Whatever the Archive Resolver does (return, extract, delete
    and extract again, fail on the way), outside the directory it
    resolves no file is created, changed or removed; the only change
    there can be the creation of missing ancestor directories.  In
    particular an archive that does not lie below that directory is
    left as it is. *)
Theorem resolve_root_dir_untouched_outside
    (cwd : list string) (infolist : list Byte.byte → option (list ZipInfo))
    (st_mtime : list string → Z) (input_path zip_path dir_path : PurePath)
    (fs : filesystem) :
  zip_and_dir input_path = Some (zip_path, dir_path) →
  let fs' := (resolve_root_dir cwd infolist st_mtime input_path fs).2 in
  untouched_outside (resolve cwd dir_path) fs fs' ∧
  (∀ p data, ¬ resolve cwd dir_path `prefix_of` p →
             fs' !! p = Some (File data) ↔ fs !! p = Some (File data)) ∧
  (∀ bytes, fs !! resolve cwd zip_path = Some (File bytes) →
            ¬ resolve cwd dir_path `prefix_of` resolve cwd zip_path →
            fs' !! resolve cwd zip_path = Some (File bytes)).
Proof.
  intros Hpaths fs'.
  pose proof (resolve_root_dir_untouched cwd infolist st_mtime _ _ _ fs Hpaths) as Hout.
  fold fs' in Hout. split_and!; [done | |].
  - intros p data Hp. by apply (untouched_outside_files (resolve cwd dir_path)).
  - intros bytes Hbytes Hzip.
    destruct (Hout _ Hzip) as [E | (N & _)]; congruence.
Qed.

Lemma resolve_root_dir_untouched_outside_witness :
  let fs' := (resolve_root_dir ExampleArchive.cwd
                (ExampleArchive.infolist_of [ExampleArchive.good_dir; ExampleArchive.good_file])
                ExampleArchive.mtime_zip_newer ExampleArchive.dir_path
                ExampleArchive.fs_both).2 in
  untouched_outside ["data"; "2021-2022"] ExampleArchive.fs_both fs' ∧
  fs' !! ["data"; "2021-2022.zip"] = Some (File ExampleArchive.zip_bytes).
Proof.
  intros fs'.
  destruct (resolve_root_dir_untouched_outside ExampleArchive.cwd
              (ExampleArchive.infolist_of [ExampleArchive.good_dir; ExampleArchive.good_file])
              ExampleArchive.mtime_zip_newer ExampleArchive.dir_path
              ExampleArchive.zip_path ExampleArchive.dir_path ExampleArchive.fs_both)
    as (Hout & _ & Hzip); [vm_compute; reflexivity |].
  split; [exact Hout |].
  apply Hzip; [vm_compute; reflexivity |].
  by_evaluation.
Defined.

Lemma extract_into_directory (cwd : list string)
    (infolist : list Byte.byte → option (list ZipInfo))
    (zip_path dir_path : PurePath) (fs fs' : filesystem) (r : unit + error) :
  extract_into cwd infolist zip_path dir_path fs = (r, fs') →
  resolve cwd dir_path ≠ [] →
  r = inl tt →
  fs' !! resolve cwd dir_path = Some Dir.
Proof.
  unfold extract_into, mbind, M_bind, bind. intros Hex Hne ->.
  destruct (mkdir_parents (resolve cwd dir_path) fs) as [[[] | e] fs1] eqn:Hmk;
    [| done].
  pose proof (mkdir_parents_target _ _ _ Hmk Hne) as Hdir.
  unfold safe_extract_zip in Hex.
  destruct (fs1 !! resolve cwd zip_path) as [[| bytes] |]; [done | | done].
  destruct (infolist bytes) as [ms |]; [| done].
  destruct (extract_members_keeps cwd dir_path ms fs1 _ _ Hdir) as (y & Hy & Hk & _).
  rewrite Hex in Hy. simpl in Hy. by destruct y.
Qed.

(** X6.  When the Archive Resolver returns, it returns the directory
    path: the input itself unless the input has the suffix [".zip"], the
    input without that suffix otherwise.  That path exists in the file
    system it leaves, and it is a directory whenever the resolver
    changed anything. *)
Theorem resolve_root_dir_returns_existing_directory
    (cwd : list string) (infolist : list Byte.byte → option (list ZipInfo))
    (st_mtime : list string → Z) (input_path zip_path dir_path p : PurePath)
    (fs fs' : filesystem) :
  zip_and_dir input_path = Some (zip_path, dir_path) →
  resolve cwd dir_path ≠ [] →
  resolve_root_dir cwd infolist st_mtime input_path fs = (inl p, fs') →
  p = dir_path ∧
  (path_suffix input_path ≠ ".zip" → p = input_path) ∧
  (path_suffix input_path = ".zip" → with_suffix input_path "" = Some p) ∧
  is_Some (fs' !! resolve cwd p) ∧
  (fs' ≠ fs → fs' !! resolve cwd p = Some Dir).
Proof.
  intros Hpaths Hne Hrun.
  assert (Hp : p = dir_path ∧ is_Some (fs' !! resolve cwd dir_path) ∧
               (fs' ≠ fs → fs' !! resolve cwd dir_path = Some Dir)).
  { unfold resolve_root_dir in Hrun. rewrite Hpaths in Hrun.
    destruct (path_exists cwd zip_path fs).
    - unfold mbind, M_bind, bind in Hrun.
      destruct (path_exists cwd dir_path fs) eqn:Hd.
      + destruct (_ >? _)%Z.
        * destruct (rmtree cwd dir_path fs) as [[[] | e] fs1]; [| done].
          destruct (extract_into cwd infolist zip_path dir_path fs1)
            as [[[] | e] fs2] eqn:Hex; [| done].
          unfold ret in Hrun. simplify_eq.
          pose proof (extract_into_directory _ _ _ _ _ _ _ Hex Hne eq_refl) as Hdir.
          by rewrite Hdir.
        * unfold ret in Hrun. simplify_eq. apply path_exists_Some in Hd.
          split_and!; done.
      + destruct (extract_into cwd infolist zip_path dir_path fs)
          as [[[] | e] fs2] eqn:Hex; [| done].
        unfold ret in Hrun. simplify_eq.
        pose proof (extract_into_directory _ _ _ _ _ _ _ Hex Hne eq_refl) as Hdir.
        by rewrite Hdir.
    - destruct (path_exists cwd dir_path fs) eqn:Hd; [| done].
      unfold ret in Hrun. simplify_eq. apply path_exists_Some in Hd.
      split_and!; done. }
  destruct Hp as (-> & Hex & Hdir).
  unfold zip_and_dir in Hpaths. split_and!; try done.
  - intros Hs. apply String.eqb_neq in Hs. rewrite Hs in Hpaths.
    destruct (with_suffix input_path ".zip"); simpl in Hpaths; by simplify_eq.
  - intros Hs. apply String.eqb_eq in Hs. rewrite Hs in Hpaths.
    destruct (with_suffix input_path ""); simpl in Hpaths; by simplify_eq.
Qed.

Lemma resolve_root_dir_returns_existing_directory_witness :
  let run := resolve_root_dir ExampleArchive.cwd
               (ExampleArchive.infolist_of [ExampleArchive.good_dir; ExampleArchive.good_file])
               ExampleArchive.mtime_zip_newer ExampleArchive.zip_path
               ExampleArchive.fs_zip_only in
  run.1 = inl ExampleArchive.dir_path ∧
  is_Some (run.2 !! ["data"; "2021-2022"]).
Proof.
  intros run.
  assert (Hr : run.1 = inl ExampleArchive.dir_path) by (vm_compute; reflexivity).
  split; [exact Hr |].
  destruct (resolve_root_dir_returns_existing_directory ExampleArchive.cwd
              (ExampleArchive.infolist_of [ExampleArchive.good_dir; ExampleArchive.good_file])
              ExampleArchive.mtime_zip_newer ExampleArchive.zip_path
              ExampleArchive.zip_path ExampleArchive.dir_path ExampleArchive.dir_path
              ExampleArchive.fs_zip_only run.2)
    as (_ & _ & _ & Hex & _).
  - vm_compute. reflexivity.
  - vm_compute. discriminate.
  - change (run = (inl ExampleArchive.dir_path, run.2)). clearbody run.
    destruct run as [[q | e] fs1]; simpl in Hr; [| discriminate].
    by injection Hr as ->.
  - exact Hex.
Defined.

(** ** Archive Resolver: the decision table *)







Section ResolverProperties.

Variable cwd : list string.
Variable infolist : list Byte.byte → option (list ZipInfo).
Variable st_mtime : list string → Z.
Variables input_path zip_path dir_path : PurePath.
Hypothesis Hpaths : zip_and_dir input_path = Some (zip_path, dir_path).

Local Abbreviation run := (resolve_root_dir cwd infolist st_mtime input_path).
Local Abbreviation zip := (resolve cwd zip_path).
Local Abbreviation dir := (resolve cwd dir_path).








End ResolverProperties.



(** ** From the archive to the datasets *)

Lemma mkdir_chain_prefixes (rest : list string) :
  ∀ (pre : list string) (fs fs' : filesystem),
  mkdir_chain pre rest fs = Some fs' →
  ∀ j, (0 < j ≤ length rest)%nat → fs' !! (pre ++ take j rest) = Some Dir.
Proof.
  induction rest as [| x rest IH]; intros pre fs fs' Hmk j Hj; [simpl in Hj; lia |].
  simpl in Hmk.
  assert (Hhead : ∀ fs0 : filesystem,
            fs0 !! (pre ++ [x]) = Some Dir →
            mkdir_chain (pre ++ [x]) rest fs0 = Some fs' →
            fs' !! (pre ++ take j (x :: rest)) = Some Dir).
  { intros fs0 Hq Hrest. destruct j as [| j]; [lia |]. simpl.
    rewrite cons_middle, (assoc_L (++)).
    destruct j as [| j].
    - rewrite take_0, app_nil_r.
      destruct (mkdir_chain_changes _ _ _ _ Hrest (pre ++ [x])) as [E | (N & _)];
        congruence.
    - apply (IH _ _ _ Hrest). simpl in Hj. lia. }
  destruct (fs !! (pre ++ [x])) as [[| data] |] eqn:Hq; [| done |].
  - by apply (Hhead fs).
  - apply (Hhead (<[pre ++ [x] := Dir]> fs)); [apply lookup_insert_eq | done].
Qed.

Lemma mkdir_parents_prefixes (q p : list string) (fs fs' : filesystem) :
  mkdir_parents q fs = (inl tt, fs') → p `prefix_of` q → p ≠ [] → fs' !! p = Some Dir.
Proof.
  unfold mkdir_parents. intros Hmk [k ->] Hp.
  destruct (mkdir_chain [] (p ++ k) fs) as [fs1 |] eqn:Hc; simplify_eq.
  replace p with ([] ++ take (length p) (p ++ k)) by (by rewrite take_app_length).
  apply (mkdir_chain_prefixes _ _ _ _ Hc). rewrite length_app.
  destruct p; [done | simpl; lia].
Qed.

(** After a member is extracted as a file, its target is a file and
    the directories above it, up to the root, are directories. *)
Lemma extract_member_file (cwd : list string) (dest : PurePath) (m : ZipInfo)
    (fs fs1 : filesystem) :
  extract_member cwd dest m fs = (inl tt, fs1) →
  is_junk m = false → ZipInfo_is_dir m = false →
  fs1 !! out_path cwd dest m = Some (File (content m)) ∧
  ∀ p, p `prefix_of` parent (out_path cwd dest m) → p ≠ [] → fs1 !! p = Some Dir.
Proof.
  unfold extract_member. intros Hex Hj Hd. rewrite Hj, Hd in Hex.
  destruct (negb _); [done |].
  unfold mbind, M_bind, bind in Hex.
  destruct (mkdir_parents (parent (out_path cwd dest m)) fs) as [[[] | e] fs0] eqn:Hmk;
    [| done].
  unfold write_file in Hex.
  assert (Hdirs : ∀ p, p `prefix_of` parent (out_path cwd dest m) → p ≠ [] →
                       fs0 !! p = Some Dir).
  { intros p Hp Hne. by apply (mkdir_parents_prefixes _ _ _ _ Hmk). }
  assert (Hother : ∀ p, p `prefix_of` parent (out_path cwd dest m) → p ≠ [] →
                        p ≠ out_path cwd dest m).
  { intros p Hp Hne ->. specialize (Hdirs _ Hp Hne).
    destruct (fs0 !! out_path cwd dest m) as [[| d] |]; simplify_eq. }
  destruct (fs0 !! out_path cwd dest m) as [[| d] |] eqn:Ho; simplify_eq;
    (split; [by rewrite lookup_insert_eq |]);
    intros p Hp Hne; (rewrite lookup_insert_ne by (by apply not_eq_sym, Hother));
    by apply Hdirs.
Qed.

(** X7.  From the archive to the datasets: when extraction completes and
    the archive holds, as file entries that are not junk, the six
    required files of a folder [d] below the destination, Dataset
    Discovery run on the destination finds [d]. *)
Theorem extracted_dataset_is_discovered
    (cwd : list string) (dest_dir : PurePath) (ms : list ZipInfo)
    (fs fs' : filesystem) (d : list string) :
  extract_members cwd dest_dir ms fs = (inl tt, fs') →
  resolve cwd dest_dir ≠ [] →
  d ≠ [] →
  (∀ f, f ∈ REQUIRED_FILES →
     ∃ m, m ∈ ms ∧ is_junk m = false ∧ ZipInfo_is_dir m = false ∧
          out_path cwd dest_dir m = resolve cwd dest_dir ++ d ++ [f]) →
  resolve cwd dest_dir ++ d ∈ discover_csv_dirs (resolve cwd dest_dir) fs'.
Proof.
  intros Hrun Hroot Hd Hfiles.
  assert (Hafter : ∀ f, f ∈ REQUIRED_FILES →
            (∃ data, fs' !! (resolve cwd dest_dir ++ d ++ [f]) = Some (File data)) ∧
            ∀ p, p `prefix_of` resolve cwd dest_dir ++ d → p ≠ [] → fs' !! p = Some Dir).
  { intros f Hf. destruct (Hfiles f Hf) as (m & Hin & Hj & Hdir & Hout).
    apply list_elem_of_split in Hin as (pre & post & ->).
    rewrite extract_members_app in Hrun.
    destruct (extract_members cwd dest_dir pre fs) as [[[] | e] fs1]; [| done].
    simpl in Hrun. unfold mbind, M_bind, bind in Hrun.
    destruct (extract_member cwd dest_dir m fs1) as [[[] | e] fs2] eqn:Hm; [| done].
    destruct (extract_member_file _ _ _ _ _ Hm Hj Hdir) as [Hfile Hdirs].
    rewrite Hout in Hfile, Hdirs.
    assert (Hparent : parent (resolve cwd dest_dir ++ d ++ [f]) = resolve cwd dest_dir ++ d).
    { unfold parent. by rewrite (assoc_L (++)), removelast_last. }
    rewrite Hparent in Hdirs. split.
    - destruct (extract_members_keeps cwd dest_dir post fs2 _ _ Hfile)
        as (y & Hy & Hk & _).
      rewrite Hrun in Hy. simpl in Hy. destruct y as [| data]; [done |]. by exists data.
    - intros p Hp Hne.
      destruct (extract_members_keeps cwd dest_dir post fs2 _ _ (Hdirs p Hp Hne))
        as (y & Hy & Hk & _).
      rewrite Hrun in Hy. simpl in Hy. by destruct y. }
  destruct (Hafter "bills.csv") as [_ Hdirs]; [apply list_elem_of_here |].
  unfold discover_csv_dirs.
  rewrite merge_sort_Permutation, list_elem_of_filter, elem_of_rglob_star,
    has_required_files_spec.
  assert (Hdir : fs' !! (resolve cwd dest_dir ++ d) = Some Dir).
  { apply Hdirs; [done |]. by destruct (resolve cwd dest_dir). }
  split_and!.
  - unfold is_dir. by apply bool_decide_eq_true_2.
  - intros f Hf. rewrite <- (assoc_L (++)). by apply Hafter.
  - by eexists.
  - exists d. split_and!; [done | done |]. intros j Hj. apply Hdirs.
    + apply prefix_app, prefix_take.
    + by destruct (resolve cwd dest_dir).
Qed.

Lemma extracted_dataset_is_discovered_witness :
  let run := extract_members ExampleArchive.cwd ExampleArchive.dir_path
               ExampleDatasetArchive.members ExampleArchive.fs_zip_only in
  run.1 = inl tt ∧
  ["data"; "2021-2022"; "AK"; "s1"; "csv"] ∈ discover_csv_dirs ["data"; "2021-2022"] run.2.
Proof.
  intros run.
  assert (Hr : run.1 = inl tt) by (vm_compute; reflexivity).
  split; [exact Hr |].
  apply (extracted_dataset_is_discovered ExampleArchive.cwd ExampleArchive.dir_path
           ExampleDatasetArchive.members ExampleArchive.fs_zip_only run.2
           ["AK"; "s1"; "csv"]).
  - change (run = (inl tt, run.2)). clearbody run.
    destruct run as [[[] | e] fs1]; [reflexivity | discriminate].
  - vm_compute. discriminate.
  - discriminate.
  - intros f Hf. exists (mkZipInfo (String.append "AK/s1/csv/" f) [Byte.x61]).
    split; [apply list_elem_of_further, list_elem_of_fmap; by exists f |].
    unfold REQUIRED_FILES in Hf.
    repeat (apply elem_of_cons in Hf as [-> | Hf];
            [split_and!; vm_compute; reflexivity |]).
    by apply not_elem_of_nil in Hf.
Defined.

(** ** Choice of the datasets in join_legiscan_csvs.py *)

Lemma discovered_contains_required_files (root : list string) (fs : filesystem)
    (d : list string) :
  d ∈ discover_csv_dirs root fs → contains_required_files fs d.
Proof.
  unfold discover_csv_dirs.
  rewrite merge_sort_Permutation, list_elem_of_filter, has_required_files_spec.
  by intros [[_ Hreq] _].
Qed.

Section LoopAccounting.

Context {ident : Type} `{EqDecision ident}.
Variable ident_compare : ident → ident → comparison.
Variable read_tables : list string → filesystem → @dataset ident + error.
Variable to_csv : list (@output_row ident) → list Byte.byte.
Variables OUTPUT_DIR out_dir : list string.

Lemma jlc_progress_numbers (n : nat) (csv_dirs : list (list string)) :
  ∀ (i : nat) (fs : filesystem),
  progress_numbers
    (JoinCsvs.main_loop ident_compare read_tables to_csv out_dir n i csv_dirs fs).1
  = map (λ j, (j, n)) (seq i (length csv_dirs)).
Proof.
  induction csv_dirs as [| d rest IH]; intros i fs; [done |].
  cbn [JoinCsvs.main_loop].
  destruct (JoinCsvs.process_csv_dir _ _ _ d _ fs) as [[out | e] fs'];
    specialize (IH (S i) fs');
    destruct (JoinCsvs.main_loop _ _ _ _ n (S i) rest fs') as [log fs''];
    simpl in *; by rewrite IH.
Qed.

Lemma cwj_accounting (n : nat) (csv_dirs : list (list string)) :
  ∀ (i total : nat) (fs : filesystem),
  let r := ConcatWithJoin.main_loop ident_compare read_tables to_csv OUTPUT_DIR
             n i csv_dirs total fs in
  r.1.2 = total + rows_written r.1.1 ∧
  progress_numbers r.1.1 = map (λ j, (j, n)) (seq i (length csv_dirs)) ∧
  length r.1.1 = 2 * length csv_dirs.
Proof.
  induction csv_dirs as [| d rest IH]; intros i total fs; [simpl; split_and!; [lia | done | done] |].
  cbn [ConcatWithJoin.main_loop].
  destruct (ConcatWithJoin.process_csv_dir _ _ _ d _ fs) as [[rows | e] fs'].
  - specialize (IH (S i) (total + rows) fs').
    destruct (ConcatWithJoin.main_loop _ _ _ _ n (S i) rest _ fs') as [[log t] fs''].
    simpl in *. destruct IH as (-> & -> & ->). split_and!; [lia | done | lia].
  - specialize (IH (S i) total fs').
    destruct (ConcatWithJoin.main_loop _ _ _ _ n (S i) rest _ fs') as [[log t] fs''].
    simpl in *. destruct IH as (-> & -> & ->). split_and!; [lia | done | lia].
Qed.

End LoopAccounting.

(** X8.  [main] of join_legiscan_csvs.py.  Every directory it processes
    directly contains the six required files.  A target that contains
    them itself is the only directory processed (datasets below it are
    not looked for); otherwise the directories are those discovered
    below the target.  The run exits with status 1 exactly when there is
    none; otherwise it attempts each of them, in order, numbering its
    progress lines from 1 to their number. *)
Theorem join_legiscan_csvs_target
    {ident : Type} `{EqDecision ident} (ident_compare : ident → ident → comparison)
    (read_tables : list string → filesystem → @dataset ident + error)
    (to_csv : list (@output_row ident) → list Byte.byte)
    (out_dir target : list string) (fs : filesystem) :
  let dirs := JoinCsvsMain.csv_dirs target fs in
  (∀ d, d ∈ dirs → contains_required_files fs d) ∧
  (contains_required_files fs target → dirs = [target]) ∧
  (¬ contains_required_files fs target → dirs = discover_csv_dirs target fs) ∧
  (dirs = [] ↔
   JoinCsvsMain.main ident_compare read_tables to_csv out_dir target fs = None) ∧
  (∀ log fs',
     JoinCsvsMain.main ident_compare read_tables to_csv out_dir target fs = Some (log, fs') →
     attempted log = dirs ∧
     progress_numbers log = map (λ i, (i, length dirs)) (seq 1 (length dirs))).
Proof.
  intros dirs. split_and!.
  - subst dirs. unfold JoinCsvsMain.csv_dirs. intros d.
    destruct (has_required_files target fs) eqn:Hreq.
    + intros ->%list_elem_of_singleton. by apply has_required_files_spec.
    + apply discovered_contains_required_files.
  - intros Hreq%has_required_files_spec. subst dirs.
    unfold JoinCsvsMain.csv_dirs. by rewrite Hreq.
  - intros Hreq. subst dirs. unfold JoinCsvsMain.csv_dirs.
    destruct (has_required_files target fs) eqn:Hr; [| done].
    by apply has_required_files_spec in Hr.
  - unfold JoinCsvsMain.main. fold dirs. by destruct dirs.
  - intros log fs'. unfold JoinCsvsMain.main. fold dirs.
    destruct dirs as [| d rest] eqn:Hdirs; [done |]. rewrite <- Hdirs.
    intros [= Hrun]. split.
    + rewrite <- (jlc_attempted ident_compare read_tables to_csv out_dir
                    (length dirs) dirs 1 fs). by rewrite Hrun.
    + rewrite <- (jlc_progress_numbers ident_compare read_tables to_csv out_dir
                    (length dirs) dirs 1 fs). by rewrite Hrun.
Qed.

(** ** Output files of the Per-Bill Aggregator *)

Lemma list_ascii_of_string_app (s1 s2 : string) :
  list_ascii_of_string (String.append s1 s2)
  = list_ascii_of_string s1 ++ list_ascii_of_string s2.
Proof. induction s1 as [| c s1 IH]; simpl; [done | by rewrite IH]. Qed.

Lemma list_ascii_of_string_inj (s1 s2 : string) :
  list_ascii_of_string s1 = list_ascii_of_string s2 → s1 = s2.
Proof.
  intros Heq. rewrite <- (string_of_list_ascii_of_string s1),
    <- (string_of_list_ascii_of_string s2). by rewrite Heq.
Qed.

Lemma append_inj_r (s1 s2 t : string) :
  String.append s1 t = String.append s2 t → s1 = s2.
Proof.
  intros Heq. apply list_ascii_of_string_inj.
  apply (f_equal list_ascii_of_string) in Heq.
  rewrite !list_ascii_of_string_app in Heq. by apply app_inv_tail in Heq.
Qed.

(** The first underscore of a name splits it, when what is before it
    has no underscore. *)
Lemma append_underscore_inj (s1 s2 r1 r2 : string) :
  Forall (λ c, is_ascii_letter c = true) (list_ascii_of_string s1) →
  Forall (λ c, is_ascii_letter c = true) (list_ascii_of_string s2) →
  String.append s1 (String "_"%char r1) = String.append s2 (String "_"%char r2) →
  s1 = s2 ∧ r1 = r2.
Proof.
  revert s2. induction s1 as [| c s1 IH]; intros [| c' s2]; simpl; intros H1 H2 Heq.
  - by simplify_eq.
  - apply Forall_cons in H2 as [Hc _]. by simplify_eq.
  - apply Forall_cons in H1 as [Hc _]. by simplify_eq.
  - apply Forall_cons in H1 as [_ H1]. apply Forall_cons in H2 as [_ H2].
    injection Heq as -> Heq. destruct (IH s2 H1 H2 Heq) as [-> ->]. done.
Qed.

Lemma output_name_inj (s1 s2 t1 t2 : string) :
  output_name (letters_only s1) t1 = output_name (letters_only s2) t2 →
  letters_only s1 = letters_only s2 ∧ t1 = t2.
Proof.
  unfold output_name. intros Heq.
  apply append_underscore_inj in Heq as [Hs Ht];
    [| apply letters_only_letters ..].
  split; [done |]. by apply append_inj_r in Ht.
Qed.

Lemma substring_append_r (a b : string) (n : nat) :
  substring (String.length a) n (String.append a b) = substring 0 n b.
Proof. induction a as [| c a IH]; simpl; [done | apply IH]. Qed.

Lemma substring_all (s : string) : substring 0 (String.length s) s = s.
Proof. induction s as [| c s IH]; simpl; [done | by rewrite IH]. Qed.

Lemma length_append (a b : string) :
  String.length (String.append a b) = String.length a + String.length b.
Proof. induction a as [| c a IH]; simpl; [done | by rewrite IH]. Qed.

Lemma endswith_append (a b : string) : endswith (String.append a b) b = true.
Proof.
  unfold endswith. rewrite length_append.
  destruct (Nat.leb_spec (String.length b) (String.length a + String.length b));
    [| lia].
  replace (String.length a + String.length b - String.length b)
    with (String.length a) by lia.
  rewrite substring_append_r, substring_all. apply String.eqb_refl.
Qed.

Lemma append_assoc (a b c : string) :
  String.append (String.append a b) c = String.append a (String.append b c).
Proof.
  apply list_ascii_of_string_inj. rewrite !list_ascii_of_string_app.
  by rewrite (assoc_L (++)).
Qed.

Lemma output_name_endswith_csv (s t : string) : endswith (output_name s t) ".csv" = true.
Proof.
  unfold output_name. rewrite <- !append_assoc. apply endswith_append.
Qed.

(** X9.  [derive_output_path] of concat_with_join_legiscan.py.  Two dataset
    directories get the same output file exactly when they have the same
    state code (the letters of the state folder) and the same session
    folder; the output file lies directly in [OUTPUT_DIR] and its name
    ends with [".csv"]. *)
Theorem derive_output_path_spec (OUTPUT_DIR csv_dir1 csv_dir2 : list string) :
  (ConcatWithJoin.derive_output_path OUTPUT_DIR csv_dir1
   = ConcatWithJoin.derive_output_path OUTPUT_DIR csv_dir2
   ↔ ConcatWithJoin.state_code csv_dir1 = ConcatWithJoin.state_code csv_dir2 ∧
     session_folder csv_dir1 = session_folder csv_dir2) ∧
  parent (ConcatWithJoin.derive_output_path OUTPUT_DIR csv_dir1) = OUTPUT_DIR ∧
  endswith (List.last (ConcatWithJoin.derive_output_path OUTPUT_DIR csv_dir1) "") ".csv"
  = true.
Proof.
  unfold ConcatWithJoin.derive_output_path, ConcatWithJoin.state_code, parent.
  split_and!.
  - split.
    + intros Heq. apply (inj (app OUTPUT_DIR)) in Heq. injection Heq as Heq.
      by apply output_name_inj.
    + by intros [-> ->].
  - apply removelast_last.
  - rewrite last_last. apply output_name_endswith_csv.
Qed.

(** ** What processing one dataset writes *)

(** X10.  When [process_csv_dir] returns, the six tables were read, the
    number returned is the number of rows of [bills.csv], the output
    file holds the CSV of the joined table with the state code of the
    dataset, the directory of the output file is a directory, and every
    other node of the file system is as it was. *)
Theorem process_csv_dir_writes
    {ident : Type} `{EqDecision ident} (ident_compare : ident → ident → comparison)
    (read_tables : list string → filesystem → @dataset ident + error)
    (to_csv : list (@output_row ident) → list Byte.byte)
    (csv_dir out_path : list string) (fs fs' : filesystem) (rows : nat) :
  ConcatWithJoin.process_csv_dir ident_compare read_tables to_csv csv_dir out_path fs
  = (inl rows, fs') →
  ∃ ds, read_tables csv_dir fs = inl ds ∧
        rows = length (bills ds) ∧
        fs' !! out_path
        = Some (File (to_csv (join_tables ident_compare
                                (letters_only (state_folder csv_dir)) ds))) ∧
        (parent out_path ≠ [] → fs' !! parent out_path = Some Dir) ∧
        (∀ p x, p ≠ out_path → fs !! p = Some x → fs' !! p = Some x).
Proof.
  unfold ConcatWithJoin.process_csv_dir, ConcatWithJoin.state_code. intros Hrun.
  destruct (read_tables csv_dir fs) as [ds | e]; [| done].
  exists ds. split; [done |].
  unfold mbind, M_bind, bind, mret, M_ret, ret in Hrun.
  destruct (mkdir_parents (parent out_path) fs) as [[[] | e] fs1] eqn:Hmk; [| done].
  unfold write_file in Hrun.
  assert (Hrows : length (join_tables ident_compare (letters_only (state_folder csv_dir)) ds)
                  = length (bills ds)).
  { unfold join_tables. by rewrite length_map. }
  assert (Hdir : parent out_path ≠ [] → fs1 !! parent out_path = Some Dir).
  { intros Hne. by apply (mkdir_parents_target _ fs). }
  assert (Hkeep : ∀ p x, fs !! p = Some x → fs1 !! p = Some x).
  { intros p x. by apply (mkdir_parents_keeps _ _ _ _ _ _ Hmk). }
  destruct (fs1 !! out_path) as [[| d] |] eqn:Hout; [done | |];
    simplify_eq; (split_and!;
      [ done
      | by rewrite lookup_insert_eq
      | intros Hne; rewrite lookup_insert_ne; [by apply Hdir | ];
        intros Heq; pose proof (Hdir Hne) as Hd; rewrite <- Heq in Hd; congruence
      | intros p x Hp Hx; rewrite lookup_insert_ne by done; by apply Hkeep ]).
Qed.

Lemma process_csv_dir_writes_witness :
  ∃ ds, ExampleRun.read_tables ExampleRun.dir_AK ExampleRun.fs = inl ds ∧
        2 = length (bills ds) ∧
        (ConcatWithJoin.process_csv_dir Z.compare ExampleRun.read_tables ExampleRun.to_csv
           ExampleRun.dir_AK ["out"; "AK_s1.csv"] ExampleRun.fs).2 !! ["out"; "AK_s1.csv"]
        = Some (File (ExampleRun.to_csv (join_tables Z.compare "AK" ds))).
Proof.
  set (r := ConcatWithJoin.process_csv_dir Z.compare ExampleRun.read_tables ExampleRun.to_csv
              ExampleRun.dir_AK ["out"; "AK_s1.csv"] ExampleRun.fs).
  assert (Hr : r.1 = inl 2) by (vm_compute; reflexivity).
  destruct (process_csv_dir_writes Z.compare ExampleRun.read_tables ExampleRun.to_csv
              ExampleRun.dir_AK ["out"; "AK_s1.csv"] ExampleRun.fs r.2 2)
    as (ds & Hds & Hrows & Hfile & _).
  - change (r = (inl 2, r.2)). clearbody r.
    destruct r as [[n | e] fs1]; simpl in Hr; [| discriminate]. by injection Hr as ->.
  - exists ds. split_and!; [exact Hds | exact Hrows | exact Hfile].
Defined.

(** ** The two implementations on a state folder named with letters only *)

Section TwoImplementations.

Context {ident : Type} `{EqDecision ident}.
Variable ident_compare : ident → ident → comparison.
Variable read_tables : list string → filesystem → @dataset ident + error.
Variable to_csv : list (@output_row ident) → list Byte.byte.
Variable OUTPUT_DIR : list string.

Lemma process_csv_dir_agree (csv_dir : list string) (fs : filesystem) :
  letters_only (state_folder csv_dir) = state_folder csv_dir →
  let out_path := ConcatWithJoin.derive_output_path OUTPUT_DIR csv_dir in
  let r1 := ConcatWithJoin.process_csv_dir ident_compare read_tables to_csv
              csv_dir out_path fs in
  let r2 := JoinCsvs.process_csv_dir ident_compare read_tables to_csv
              csv_dir OUTPUT_DIR fs in
  r2.2 = r1.2 ∧
  match r1.1, r2.1 with
  | inl _, inl p => p = out_path
  | inr e1, inr e2 => e1 = e2
  | _, _ => False
  end.
Proof.
  intros Hletters out_path r1 r2. subst r1 r2 out_path.
  unfold ConcatWithJoin.process_csv_dir, JoinCsvs.process_csv_dir,
    ConcatWithJoin.derive_output_path, ConcatWithJoin.state_code, JoinCsvs.state_code.
  rewrite Hletters. unfold parent. rewrite removelast_last.
  destruct (read_tables csv_dir fs) as [ds | e]; [| done].
  unfold mbind, M_bind, bind, mret, M_ret, ret.
  destruct (mkdir_parents OUTPUT_DIR fs) as [[[] | e] fs1]; [| done].
  by destruct (write_file _ _ fs1) as [[[] | e] fs2].
Qed.

Lemma main_loop_agree (n : nat) (csv_dirs : list (list string)) :
  Forall (λ d, letters_only (state_folder d) = state_folder d) csv_dirs →
  ∀ (i total : nat) (fs : filesystem),
  let r1 := ConcatWithJoin.main_loop ident_compare read_tables to_csv OUTPUT_DIR
              n i csv_dirs total fs in
  let r2 := JoinCsvs.main_loop ident_compare read_tables to_csv OUTPUT_DIR
              n i csv_dirs fs in
  r2.2 = r1.2 ∧ r2.1 = map without_rows r1.1.1.
Proof.
  induction 1 as [| d rest Hd Hrest IH]; intros i total fs; [done |].
  cbn [ConcatWithJoin.main_loop JoinCsvs.main_loop].
  destruct (process_csv_dir_agree d fs Hd) as [Hfs Hres]. cbn zeta in Hfs, Hres.
  destruct (ConcatWithJoin.process_csv_dir _ _ _ d _ fs) as [[rows | e1] fs1];
    destruct (JoinCsvs.process_csv_dir _ _ _ d _ fs) as [[p | e2] fs2];
    simpl in Hfs, Hres; try done; subst.
  - specialize (IH (S i) (total + rows) fs1). cbn zeta in IH.
    destruct (ConcatWithJoin.main_loop _ _ _ _ n (S i) rest _ fs1) as [[log1 t1] fs1'].
    destruct (JoinCsvs.main_loop _ _ _ _ n (S i) rest fs1) as [log2 fs2'].
    simpl in *. destruct IH as [-> ->]. done.
  - specialize (IH (S i) total fs1). cbn zeta in IH.
    destruct (ConcatWithJoin.main_loop _ _ _ _ n (S i) rest _ fs1) as [[log1 t1] fs1'].
    destruct (JoinCsvs.main_loop _ _ _ _ n (S i) rest fs1) as [log2 fs2'].
    simpl in *. destruct IH as [-> ->]. done.
Qed.

End TwoImplementations.

(** X11.  On datasets whose state folder is named with letters only, the
    loops of the two implementations leave the same file system and
    print the same lines, but for the row count that only
    concat_with_join_legiscan.py prints. *)
Theorem implementations_agree_on_letter_states
    {ident : Type} `{EqDecision ident} (ident_compare : ident → ident → comparison)
    (read_tables : list string → filesystem → @dataset ident + error)
    (to_csv : list (@output_row ident) → list Byte.byte)
    (OUTPUT_DIR : list string) (n i total : nat) (csv_dirs : list (list string))
    (fs : filesystem) :
  Forall (λ d, letters_only (state_folder d) = state_folder d) csv_dirs →
  let cwj := ConcatWithJoin.main_loop ident_compare read_tables to_csv OUTPUT_DIR
               n i csv_dirs total fs in
  let jlc := JoinCsvs.main_loop ident_compare read_tables to_csv OUTPUT_DIR
               n i csv_dirs fs in
  jlc.2 = cwj.2 ∧ jlc.1 = map without_rows cwj.1.1.
Proof. intros Hletters. by apply main_loop_agree. Qed.

Lemma implementations_agree_on_letter_states_witness :
  let dirs := [ExampleRun.dir_AK; ExampleRun.dir_CO; ExampleRun.dir_WY] in
  (JoinCsvs.main_loop Z.compare ExampleRun.read_tables ExampleRun.to_csv
     ExampleRun.OUTPUT_DIR 3 1 dirs ExampleRun.fs).1
  = map without_rows
      (ConcatWithJoin.main_loop Z.compare ExampleRun.read_tables ExampleRun.to_csv
         ExampleRun.OUTPUT_DIR 3 1 dirs 0 ExampleRun.fs).1.1.
Proof.
  intros dirs.
  apply (implementations_agree_on_letter_states Z.compare ExampleRun.read_tables
           ExampleRun.to_csv ExampleRun.OUTPUT_DIR 3 1 0 dirs ExampleRun.fs).
  repeat constructor.
Defined.

(** ** The row count and the numbering of a run *)

(** X12.  The loop of [main] over the datasets prints two lines per dataset,
    numbers its progress lines [1/n] to [n/n], and the total it reports
    is the sum of the row counts of the lines that report a written
    file. *)
Theorem main_loop_accounting
    {ident : Type} `{EqDecision ident} (ident_compare : ident → ident → comparison)
    (read_tables : list string → filesystem → @dataset ident + error)
    (to_csv : list (@output_row ident) → list Byte.byte)
    (OUTPUT_DIR : list string) (csv_dirs : list (list string)) (fs : filesystem) :
  let n := length csv_dirs in
  let run := ConcatWithJoin.main_loop ident_compare read_tables to_csv OUTPUT_DIR
               n 1 csv_dirs 0 fs in
  run.1.2 = rows_written run.1.1 ∧
  progress_numbers run.1.1 = map (λ j, (j, n)) (seq 1 n) ∧
  length run.1.1 = 2 * n.
Proof.
  intros n run.
  destruct (cwj_accounting ident_compare read_tables to_csv OUTPUT_DIR n csv_dirs 1 0 fs)
    as (Ht & Hp & Hl).
  by split_and!.
Qed.

(** ** The order of the rows within a bill *)

Section SortValues.

Context {A : Type} (leb : A → A → bool).
Hypothesis leb_total : ∀ a b, leb a b = true ∨ leb b a = true.
Hypothesis leb_trans : ∀ a b c, leb a b = true → leb b c = true → leb a c = true.

Local Abbreviation le := (λ a b : A, leb a b = true).

Lemma insert_sorted_sorted (x : A) (l : list A) :
  StronglySorted le l → StronglySorted le (insert_sorted leb x l).
Proof.
  induction 1 as [| y l Hl IH Hy]; simpl.
  - repeat constructor.
  - destruct (leb x y) eqn:Hxy.
    + constructor; [by constructor |]. constructor; [done |].
      eapply Forall_impl; [exact Hy |]. intros z Hz. by eapply leb_trans.
    + constructor; [done |].
      rewrite insert_sorted_Permutation. constructor; [| done].
      destruct (leb_total x y); congruence.
Qed.

Lemma sort_values_sorted (l : list A) : StronglySorted le (sort_values leb l).
Proof.
  induction l as [| x l IH]; simpl; [constructor |]. by apply insert_sorted_sorted.
Qed.

Lemma insert_sorted_least (x : A) (l : list A) :
  Forall (le x) l → insert_sorted leb x l = x :: l.
Proof. intros Hl. destruct Hl as [| y l Hy _]; simpl; [done | by rewrite Hy]. Qed.

Context (P : A → Prop) `{∀ x, Decision (P x)}.

Lemma filter_insert_sorted_in (x : A) (l : list A) :
  StronglySorted le l → P x →
  filter P (insert_sorted leb x l) = insert_sorted leb x (filter P l).
Proof.
  intros Hl Hx. induction Hl as [| y l Hl IH Hy]; simpl.
  - by rewrite filter_cons, decide_True.
  - destruct (leb x y) eqn:Hxy.
    + rewrite filter_cons, decide_True by done.
      rewrite (filter_cons _ y). destruct (decide (P y)).
      * simpl. by rewrite Hxy.
      * rewrite insert_sorted_least; [done |].
        apply list.Forall_forall. intros z [_ Hz]%list_elem_of_filter.
        rewrite list.Forall_forall in Hy. simpl.
        apply (leb_trans x y z); [done | by apply Hy].
    + rewrite !(filter_cons _ y). destruct (decide (P y)).
      * simpl. by rewrite Hxy, IH.
      * done.
Qed.

Lemma filter_insert_sorted_out (x : A) (l : list A) :
  ¬ P x → filter P (insert_sorted leb x l) = filter P l.
Proof.
  intros Hx. induction l as [| y l IH]; simpl.
  - by rewrite filter_cons, decide_False.
  - destruct (leb x y).
    + by rewrite filter_cons, decide_False.
    + rewrite !(filter_cons _ y). by rewrite IH.
Qed.

(** Selecting rows of a sorted table gives the selected rows, sorted:
    the sort is stable. *)
Lemma filter_sort_values (l : list A) :
  filter P (sort_values leb l) = sort_values leb (filter P l).
Proof.
  induction l as [| x l IH]; [done |].
  cbn [sort_values foldr]. fold (sort_values leb l).
  rewrite filter_cons. destruct (decide (P x)).
  - rewrite filter_insert_sorted_in by (done || apply sort_values_sorted).
    by rewrite IH.
  - by rewrite filter_insert_sorted_out.
Qed.

End SortValues.

Lemma insert_sorted_ext {A} (leb leb' : A → A → bool) (x : A) (l : list A) :
  (∀ y, y ∈ l → leb x y = leb' x y) →
  insert_sorted leb x l = insert_sorted leb' x l.
Proof.
  induction l as [| y l IH]; intros Hext; simpl; [done |].
  rewrite <- (Hext y) by apply list_elem_of_here.
  rewrite IH; [done |]. intros z Hz. by apply Hext, list_elem_of_further.
Qed.

Lemma sort_values_ext {A} (leb leb' : A → A → bool) (l : list A) :
  (∀ x y, x ∈ l → y ∈ l → leb x y = leb' x y) →
  sort_values leb l = sort_values leb' l.
Proof.
  induction l as [| x l IH]; intros Hext; simpl; [done |].
  fold (sort_values leb l) (sort_values leb' l).
  rewrite <- IH.
  - apply insert_sorted_ext. intros y Hy.
    rewrite sort_values_Permutation in Hy.
    apply Hext; [apply list_elem_of_here | by apply list_elem_of_further].
  - intros y z Hy Hz. apply Hext; by apply list_elem_of_further.
Qed.

Lemma last_sorted_greatest {A} (R : relation A) (l : list A) (x : A) :
  Reflexive R → StronglySorted R (l ++ [x]) → ∀ y, y ∈ l ++ [x] → R y x.
Proof.
  intros Hrefl Hs y [Hy | ->%list_elem_of_singleton]%elem_of_app; [| done].
  eapply StronglySorted_app_1_elem_of; [exact Hs | done | apply list_elem_of_here].
Qed.

(** *** The comparisons of rows are orders *)

Lemma weak_order_key {A K} (key : A → K) (cmp : K → K → comparison) :
  total_order cmp → weak_order (λ a b, cmp (key a) (key b)).
Proof.
  intros [Heq Hanti Htrans]. split.
  - intros x. by apply Heq.
  - intros x y. apply Hanti.
  - intros o x y z. apply Htrans.
  - intros o x y z Hxy%Heq. by rewrite Hxy.
  - intros o x y z Hxy Hyz%Heq. by rewrite <- Hyz.
Qed.

Lemma total_order_nan_last {K} (cmp : K → K → comparison) :
  total_order cmp → total_order (nan_last cmp).
Proof.
  intros [Heq Hanti Htrans]. split.
  - intros [x |] [y |]; simpl; try done. rewrite Heq. split; congruence.
  - intros [x |] [y |]; simpl; try done.
  - intros o [x |] [y |] [z |]; simpl; try congruence. apply Htrans.
Qed.

Lemma weak_order_then_by {A} (c1 c2 : A → A → comparison) :
  weak_order c1 → weak_order c2 → weak_order (λ a b, then_by (c1 a b) (c2 a b)).
Proof.
  intros [r1 a1 t1 l1 e1] [r2 a2 t2 l2 e2]. split.
  - intros x. unfold then_by. by rewrite r1.
  - intros x y. unfold then_by. rewrite (a1 x y).
    destruct (c1 x y); simpl; [apply a2 | done | done].
  - intros o x y z. unfold then_by.
    destruct (c1 x y) eqn:E1, (c1 y z) eqn:E2; intros H1 H2; subst; try done;
      first [ rewrite (l1 _ _ _ _ E1 E2) | rewrite (e1 _ _ _ _ E1 E2)
            | rewrite (t1 _ _ _ _ E1 E2) ]; eauto.
  - intros o x y z. unfold then_by.
    destruct (c1 x y) eqn:E1; [| done | done].
    destruct (c2 x y) eqn:E2; [| done | done]. intros _.
    destruct (c1 y z) eqn:E3; rewrite (l1 _ _ _ _ E1 E3); [| done | done].
    intros H2. by rewrite (l2 _ _ _ _ E2 H2).
  - intros o x y z. unfold then_by. intros H1.
    destruct (c1 y z) eqn:E1; [| done | done].
    destruct (c2 y z) eqn:E2; [| done | done]. intros _.
    destruct (c1 x y) eqn:E3; rewrite (e1 _ _ _ _ E3 E1); [| done | done].
    by rewrite (e2 _ _ _ _ H1 E2).
Qed.

Lemma leb_of_total {A} (cmp : A → A → comparison) :
  weak_order cmp → ∀ a b, leb_of cmp a b = true ∨ leb_of cmp b a = true.
Proof.
  intros [_ Hanti _ _ _] a b. unfold leb_of. rewrite (Hanti a b).
  destruct (cmp a b); simpl; auto.
Qed.

Lemma leb_of_trans {A} (cmp : A → A → comparison) :
  weak_order cmp →
  ∀ a b c, leb_of cmp a b = true → leb_of cmp b c = true → leb_of cmp a c = true.
Proof.
  intros [_ _ Htrans Hl Hr] a b c. unfold leb_of.
  destruct (cmp a b) eqn:E1; [| | done]; destruct (cmp b c) eqn:E2; try done; intros _ _.
  - by rewrite (Hl _ _ _ _ E1 E2).
  - by rewrite (Hl _ _ _ _ E1 E2).
  - by rewrite (Hr _ _ _ _ E1 E2).
  - by rewrite (Htrans _ _ _ _ E1 E2).
Qed.

Lemma total_order_Z : total_order Z.compare.
Proof.
  split.
  - apply Z.compare_eq_iff.
  - intros x y. apply Z.compare_antisym.
  - intros o x y z <-.
    destruct (Z.compare_spec x y) as [-> | L | G]; [done | |].
    + intros H. assert (y < z)%Z as H' by done.
      enough (x < z)%Z by done. lia.
    + intros H. assert (z < y)%Z as H' by (by apply Z.compare_gt_iff).
      enough (z < x)%Z by (by apply Z.compare_gt_iff). lia.
Qed.

Lemma total_order_string : total_order String.compare.
Proof.
  split.
  - apply string_compare_eq.
  - intros x y. apply String.compare_antisym.
  - apply string_compare_trans.
Qed.

Section RowOrderProperties.

Context {ident : Type} `{EqDecision ident}.
Variable ident_compare : ident → ident → comparison.
Hypothesis ident_order : total_order ident_compare.

Implicit Types (r : @sponsor_row ident) (e : @history_event ident).

Lemma sponsor_row_leb_compare r1 r2 :
  sponsor_row_leb ident_compare r1 r2 = leb_of (sponsor_row_compare ident_compare) r1 r2.
Proof.
  unfold sponsor_row_leb, leb_of, sponsor_row_compare, then_by.
  by destruct (nan_last ident_compare (m_bill_id r1) (m_bill_id r2)),
    (nan_last Z.compare (m_position r1) (m_position r2)).
Qed.

Lemma history_leb_compare e1 e2 :
  history_leb ident_compare e1 e2 = leb_of (history_compare ident_compare) e1 e2.
Proof.
  unfold history_leb, leb_of, history_compare, then_by.
  by destruct (nan_last ident_compare (h_bill_id e1) (h_bill_id e2)),
    (nan_last String.compare (date e1) (date e2)),
    (nan_last Z.compare (sequence e1) (sequence e2)).
Qed.

Lemma weak_order_sponsor_row : weak_order (sponsor_row_compare ident_compare).
Proof.
  apply (weak_order_then_by
           (λ a b, nan_last ident_compare (m_bill_id a) (m_bill_id b))
           (λ a b, nan_last Z.compare (m_position a) (m_position b)));
    apply weak_order_key, total_order_nan_last; [done | apply total_order_Z].
Qed.

Lemma weak_order_history : weak_order (history_compare ident_compare).
Proof.
  apply (weak_order_then_by
           (λ a b, nan_last ident_compare (h_bill_id a) (h_bill_id b))
           (λ a b, then_by (nan_last String.compare (date a) (date b))
                           (nan_last Z.compare (sequence a) (sequence b)))).
  - by apply weak_order_key, total_order_nan_last.
  - apply (weak_order_then_by
             (λ a b, nan_last String.compare (date a) (date b))
             (λ a b, nan_last Z.compare (sequence a) (sequence b)));
      apply weak_order_key, total_order_nan_last;
      [apply total_order_string | apply total_order_Z].
Qed.

End RowOrderProperties.

Section GroupOrder.

Context {ident : Type} `{EqDecision ident}.
Variable ident_compare : ident → ident → comparison.
Hypothesis ident_order : total_order ident_compare.

Implicit Types (b : @bill ident) (r : @sponsor_row ident) (e : @history_event ident).

Lemma nan_last_same (k : option ident) : nan_last ident_compare k k = Eq.
Proof. by apply (to_eq _ (total_order_nan_last _ ident_order)). Qed.

(** The rows of a bill in the sorted table of sponsors are the rows of
    the bill, sorted by position. *)
Lemma referencing_sorted_sponsors b (rows : list (@sponsor_row ident)) :
  referencing m_bill_id b (sort_values (sponsor_row_leb ident_compare) rows)
  = sort_values position_leb (referencing m_bill_id b rows).
Proof.
  unfold referencing. rewrite filter_sort_values.
  - apply sort_values_ext. intros x y [[_ Hx] _]%list_elem_of_filter
      [[_ Hy] _]%list_elem_of_filter.
    rewrite sponsor_row_leb_compare. unfold position_leb, leb_of, sponsor_row_compare.
    by rewrite Hx, Hy, nan_last_same.
  - intros x y. rewrite !sponsor_row_leb_compare.
    by apply leb_of_total, weak_order_sponsor_row.
  - intros x y z. rewrite !sponsor_row_leb_compare.
    by apply leb_of_trans, weak_order_sponsor_row.
Qed.

(** The same for the history table, sorted by date and sequence. *)
Lemma referencing_sorted_history b (rows : list (@history_event ident)) :
  referencing h_bill_id b (sort_values (history_leb ident_compare) rows)
  = sort_values chronological_leb (referencing h_bill_id b rows).
Proof.
  unfold referencing. rewrite filter_sort_values.
  - apply sort_values_ext. intros x y [[_ Hx] _]%list_elem_of_filter
      [[_ Hy] _]%list_elem_of_filter.
    rewrite history_leb_compare. unfold chronological_leb, leb_of, history_compare.
    by rewrite Hx, Hy, nan_last_same.
  - intros x y. rewrite !history_leb_compare.
    by apply leb_of_total, weak_order_history.
  - intros x y z. rewrite !history_leb_compare.
    by apply leb_of_trans, weak_order_history.
Qed.

Lemma weak_order_position :
  weak_order (λ r1 r2, nan_last Z.compare (m_position r1) (m_position r2)).
Proof. apply weak_order_key, total_order_nan_last, total_order_Z. Qed.

Lemma weak_order_chronological :
  weak_order (λ e1 e2, then_by (nan_last String.compare (date e1) (date e2))
                               (nan_last Z.compare (sequence e1) (sequence e2))).
Proof.
  apply (weak_order_then_by
           (λ e1 e2 : @history_event ident, nan_last String.compare (date e1) (date e2))
           (λ e1 e2, nan_last Z.compare (sequence e1) (sequence e2)));
    apply weak_order_key, total_order_nan_last;
    [apply total_order_string | apply total_order_Z].
Qed.

End GroupOrder.

Lemma referencing_nil_Permutation {ident R} `{EqDecision ident} (key : R → option ident)
    (b : @bill ident) (l1 l2 : list R) :
  l1 ≡ₚ l2 → referencing key b l1 = [] → referencing key b l2 = [].
Proof.
  intros HP Hnil. apply Permutation_nil_r. rewrite <- Hnil.
  unfold referencing. by rewrite HP.
Qed.

Lemma has_key_referencing {ident R} `{EqDecision ident} (key : R → option ident) (b : @bill ident)
    (rows : list R) :
  referencing key b rows ≠ [] → has_key key rows.
Proof.
  destruct (referencing key b rows) as [| r l] eqn:Href; [done |]. intros _.
  assert (r ∈ referencing key b rows) as Hin by (rewrite Href; apply list_elem_of_here).
  unfold referencing in Hin. apply list_elem_of_filter in Hin as [[Hsome Hkey] Hin].
  exists r. split; [done |]. by rewrite Hkey.
Qed.

Lemma sort_values_nil {A} (leb : A → A → bool) (l : list A) :
  sort_values leb l = [] ↔ l = [].
Proof.
  split; [| by intros ->]. intros Hnil.
  apply Permutation_nil_r. rewrite <- Hnil. by rewrite sort_values_Permutation.
Qed.

Lemma referencing_merge_people_nil {ident} `{EqDecision ident} (b : @bill ident)
    (sps : list (@sponsorship ident)) (ps : list (@person ident)) :
  referencing m_bill_id b (merge_people sps ps) = []
  ↔ referencing sp_bill_id b sps = [].
Proof.
  induction sps as [| s sps IH]; [done |].
  rewrite merge_people_cons, referencing_app, referencing_joined_rows.
  unfold referencing at 2. rewrite filter_cons.
  destruct (decide (is_Some (bill_id b) ∧ sp_bill_id s = bill_id b)).
  - pose proof (joined_rows_not_nil s ps) as Hne.
    destruct (joined_rows s ps); [done |]. split; discriminate.
  - exact IH.
Qed.

(** X13.  [sponsor_names] and [sponsor_parties] of a bill list the names and
    the parties (those that are not missing) of the rows that the left
    join gives for the bill, in the order of their positions, rows with
    the same position in the order of the file and rows without a
    position last.  A bill without sponsorship rows has a missing value
    in both columns. *)
Theorem sponsor_names_in_position_order
    {ident : Type} `{EqDecision ident} (ident_compare : ident → ident → comparison)
    (state_code : string) (ds : @dataset ident) (o : @output_row ident) :
  total_order ident_compare →
  o ∈ join_tables ident_compare state_code ds →
  has_key sp_bill_id (sponsors ds) →
  let group := sort_values position_leb
                 (referencing m_bill_id (out_bill o)
                    (merge_people (sponsors ds) (people ds))) in
  StronglySorted (λ r1 r2, position_leb r1 r2 = true) group ∧
  (group = [] ↔ referencing sp_bill_id (out_bill o) (sponsors ds) = []) ∧
  (group ≠ [] →
     out_sponsor_names o = Some (Some (join " | " (omap m_name group))) ∧
     out_sponsor_parties o = Some (Some (join " | " (omap m_party group)))) ∧
  (group = [] →
     out_sponsor_names o = Some None ∧ out_sponsor_parties o = Some None).
Proof.
  intros Horder Hin Hkey group.
  unfold join_tables in Hin. apply list_elem_of_fmap in Hin as (b & -> & Hb).
  cbn [out_bill out_sponsor_names out_sponsor_parties] in *.
  unfold aggregate_sponsors.
  rewrite merge_left_groupby_apply by (by apply has_key_sorted_sponsors).
  unfold sorted_sponsors. rewrite (referencing_sorted_sponsors _ Horder). fold group.
  split_and!.
  - apply sort_values_sorted.
    + by apply leb_of_total, weak_order_position.
    + by apply leb_of_trans, weak_order_position.
  - subst group. rewrite sort_values_nil. apply referencing_merge_people_nil.
  - intros Hne. by rewrite decide_False.
  - intros Hnil. by rewrite decide_True.
Qed.

Lemma sponsor_names_in_position_order_witness :
  ∃ o, join_tables Z.compare "AK" ExampleDataset.scenario !! 0%nat = Some o ∧
       out_sponsor_names o = Some (Some "Ann Lee | Bob Ray") ∧
       out_sponsor_parties o = Some (Some "D | R").
Proof.
  eexists. split; [vm_compute; reflexivity |].
  match goal with |- out_sponsor_names ?row = _ ∧ _ => set (o := row) end.
  assert (Hin : o ∈ join_tables Z.compare "AK" ExampleDataset.scenario).
  { apply list_elem_of_lookup. exists 0%nat. vm_compute. reflexivity. }
  assert (Hkey : has_key sp_bill_id (sponsors ExampleDataset.scenario))
    by first_row_has_key.
  destruct (sponsor_names_in_position_order Z.compare "AK" ExampleDataset.scenario o
              total_order_Z Hin Hkey) as (_ & _ & Hnames & _).
  destruct Hnames as [Hn Hp]; [vm_compute; discriminate |].
  rewrite Hn, Hp. split; vm_compute; reflexivity.
Defined.

Lemma last_map_snoc {A B} (f : A → B) (l : list A) (x : A) (d : B) :
  List.last (map f (l ++ [x])) d = f x.
Proof. rewrite List.map_app. simpl. apply last_last. Qed.

(** X14.  [last_history_action] of a bill with history rows is the action
    of one of them that no other row of the bill comes after in
    (date, sequence) order: the last of the bill's rows once sorted by
    date, then sequence. *)
Theorem last_history_action_is_latest
    {ident : Type} `{EqDecision ident} (ident_compare : ident → ident → comparison)
    (state_code : string) (ds : @dataset ident) (o : @output_row ident) :
  total_order ident_compare →
  o ∈ join_tables ident_compare state_code ds →
  let events := referencing h_bill_id (out_bill o) (history ds) in
  events ≠ [] →
  out_last_history_action o
  = Some (List.last (map action (sort_values chronological_leb events)) None) ∧
  ∃ e, e ∈ events ∧
       out_last_history_action o = Some (action e) ∧
       ∀ e', e' ∈ events → chronological_leb e' e = true.
Proof.
  intros Horder Hin events Hne.
  unfold join_tables in Hin. apply list_elem_of_fmap in Hin as (b & -> & Hb).
  cbn [out_bill out_last_history_action] in *.
  unfold aggregate_history.
  rewrite merge_left_groupby_apply.
  2:{ eapply has_key_Permutation; [symmetry; apply sort_values_Permutation |].
      by apply (has_key_referencing _ b). }
  rewrite (referencing_sorted_history _ Horder). fold events.
  assert (Hsorted : StronglySorted (λ e1 e2, chronological_leb e1 e2 = true)
                      (sort_values chronological_leb events)).
  { apply sort_values_sorted.
    - intros e1 e2. apply leb_of_total, (weak_order_chronological (ident := ident)).
    - intros e1 e2 e3. apply leb_of_trans, (weak_order_chronological (ident := ident)). }
  rewrite decide_False by (by rewrite sort_values_nil).
  cbn [nan_col mbind option_bind last_history_action history_agg_group].
  split; [done |].
  assert (Hperm : sort_values chronological_leb events ≡ₚ events)
    by apply sort_values_Permutation.
  destruct (sort_values chronological_leb events) as [| e0 l] eqn:Hs using rev_ind.
  { symmetry in Hperm. apply Permutation_nil_r in Hperm. done. }
  clear IHl. exists e0. split_and!.
  - rewrite <- Hperm. apply elem_of_app. right. apply list_elem_of_here.
  - by rewrite last_map_snoc.
  - intros e' He'. rewrite <- Hperm in He'.
    apply (last_sorted_greatest (λ e1 e2, chronological_leb e1 e2 = true) l e0);
      [| done | done].
    intros e. unfold chronological_leb, leb_of.
    by rewrite (wo_refl _ (weak_order_chronological (ident := ident))).
Qed.

Lemma last_history_action_is_latest_witness :
  ∃ o, join_tables Z.compare "AK" ExampleDataset.scenario !! 0%nat = Some o ∧
       out_last_history_action o = Some (Some "Passed").
Proof.
  eexists. split; [vm_compute; reflexivity |].
  match goal with |- out_last_history_action ?row = _ => set (o := row) end.
  assert (Hin : o ∈ join_tables Z.compare "AK" ExampleDataset.scenario).
  { apply list_elem_of_lookup. exists 0%nat. vm_compute. reflexivity. }
  destruct (last_history_action_is_latest Z.compare "AK" ExampleDataset.scenario o
              total_order_Z Hin) as [Hlast _]; [vm_compute; discriminate |].
  rewrite Hlast. vm_compute. reflexivity.
Defined.

(** X15.  [document_types] of a bill with document rows lists every document
    type of its rows once, in the order of first appearance;
    [document_urls] lists the URLs of its rows in the order of the
    file. *)
Theorem document_columns
    {ident : Type} `{EqDecision ident} (ident_compare : ident → ident → comparison)
    (state_code : string) (ds : @dataset ident) (o : @output_row ident) :
  o ∈ join_tables ident_compare state_code ds →
  let docs := referencing d_bill_id (out_bill o) (documents ds) in
  let types := unique (omap document_type docs) in
  docs ≠ [] →
  out_document_types o = Some (Some (join " | " types)) ∧
  out_document_urls o = Some (Some (join " | " (omap url docs))) ∧
  NoDup types ∧
  (∀ t, t ∈ types ↔ ∃ d, d ∈ docs ∧ document_type d = Some t).
Proof.
  intros Hin docs types Hne.
  unfold join_tables in Hin. apply list_elem_of_fmap in Hin as (b & -> & Hb).
  cbn [out_bill out_document_types out_document_urls] in *.
  unfold aggregate_documents.
  rewrite merge_left_groupby_apply by (by apply (has_key_referencing _ b)).
  fold docs. rewrite decide_False by done.
  split_and!; [done | done | apply NoDup_unique |].
  intros t. subst types. rewrite elem_of_unique, list_elem_of_omap. done.
Qed.

Lemma document_columns_witness :
  ∃ o, join_tables Z.compare "AK" ExampleDataset.scenario !! 0%nat = Some o ∧
       out_document_types o = Some (Some "Introduced") ∧
       out_document_urls o = Some (Some "https://legiscan.com/AK/text/HB1").
Proof.
  eexists. split; [vm_compute; reflexivity |].
  match goal with |- out_document_types ?row = _ ∧ _ => set (o := row) end.
  assert (Hin : o ∈ join_tables Z.compare "AK" ExampleDataset.scenario).
  { apply list_elem_of_lookup. exists 0%nat. vm_compute. reflexivity. }
  destruct (document_columns Z.compare "AK" ExampleDataset.scenario o Hin)
    as (Ht & Hu & _); [vm_compute; discriminate |].
  rewrite Ht, Hu. split; vm_compute; reflexivity.
Defined.

(** ** [main] of concat_with_join_legiscan.py *)

Section MainProperties.

Context {ident : Type} `{EqDecision ident}.
Variable ident_compare : ident → ident → comparison.
Variable read_tables : list string → filesystem → @dataset ident + error.
Variable to_csv : list (@output_row ident) → list Byte.byte.
Variable cwd : list string.
Variable infolist : list Byte.byte → option (list ZipInfo).
Variable csv_reader : list Byte.byte → list (list string) * bool.
Variable csv_writer : list (list string) → list Byte.byte.
Variables OUTPUT_DIR COMBINED_PATH : list string.

Lemma gather_app (pre post : list (PurePath * (list string → Z))) :
  ∀ fs : filesystem,
  ConcatWithJoinMain.gather cwd infolist (pre ++ post) fs
  = match ConcatWithJoinMain.gather cwd infolist pre fs with
    | (inr e, fs1) => (inr e, fs1)
    | (inl found, fs1) =>
        match ConcatWithJoinMain.gather cwd infolist post fs1 with
        | (inr e, fs2) => (inr e, fs2)
        | (inl more, fs2) => (inl (found ++ more), fs2)
        end
    end.
Proof.
  induction pre as [| [x mt] pre IH]; intros fs; simpl.
  - by destruct (ConcatWithJoinMain.gather cwd infolist post fs) as [[more | e] fs2].
  - destruct (resolve_root_dir cwd infolist mt x fs) as [[root_dir | e] fs1]; [| done].
    rewrite IH.
    destruct (ConcatWithJoinMain.gather cwd infolist pre fs1) as [[found | e] fs2];
      [| done].
    destruct (ConcatWithJoinMain.gather cwd infolist post fs2) as [[more | e] fs3];
      [| done].
    by rewrite (assoc_L (++)).
Qed.

(** Processing a dataset keeps every node as the kind it is. *)
Lemma process_csv_dir_keeps (csv_dir out_path p : list string) (fs : filesystem)
    (x : node) :
  fs !! p = Some x →
  ∃ y, (ConcatWithJoin.process_csv_dir ident_compare read_tables to_csv
          csv_dir out_path fs).2 !! p = Some y ∧ same_kind x y.
Proof.
  intros Hp. unfold ConcatWithJoin.process_csv_dir.
  destruct (read_tables csv_dir fs) as [ds | e];
    [| exists x; split; [done | apply same_kind_refl]].
  unfold mbind, M_bind, bind, mret, M_ret, ret.
  destruct (mkdir_parents (parent out_path) fs) as [[[] | e] fs1] eqn:Hmk.
  - pose proof (mkdir_parents_keeps _ p _ _ _ x Hmk Hp) as Hp1.
    unfold write_file.
    destruct (fs1 !! out_path) as [[| d] |] eqn:Hout; simpl.
    + exists x. split; [done | apply same_kind_refl].
    + destruct (decide (out_path = p)) as [-> | Hne].
      * rewrite lookup_insert_eq. eexists. split; [done |].
        rewrite Hp1 in Hout. by injection Hout as ->.
      * rewrite lookup_insert_ne by done. exists x. split; [done | apply same_kind_refl].
    + destruct (decide (out_path = p)) as [-> | Hne]; [congruence |].
      rewrite lookup_insert_ne by done. exists x. split; [done | apply same_kind_refl].
  - exists x. split; [| apply same_kind_refl]. by eapply mkdir_parents_keeps.
Qed.

Lemma main_loop_keeps (n : nat) (csv_dirs : list (list string)) :
  ∀ (i total : nat) (fs : filesystem) (p : list string) (x : node),
  fs !! p = Some x →
  ∃ y, (ConcatWithJoin.main_loop ident_compare read_tables to_csv OUTPUT_DIR
          n i csv_dirs total fs).2 !! p = Some y ∧ same_kind x y.
Proof.
  induction csv_dirs as [| d rest IH]; intros i total fs p x Hp.
  - exists x. split; [done | apply same_kind_refl].
  - cbn [ConcatWithJoin.main_loop].
    destruct (process_csv_dir_keeps d (ConcatWithJoin.derive_output_path OUTPUT_DIR d)
                p fs x Hp) as (y & Hy & Hk).
    destruct (ConcatWithJoin.process_csv_dir _ _ _ d _ fs) as [[rows | e] fs1];
      simpl in Hy.
    + destruct (IH (S i) (total + rows) fs1 p y Hy) as (z & Hz & Hk').
      destruct (ConcatWithJoin.main_loop _ _ _ _ n (S i) rest _ fs1) as [[log t] fs2].
      exists z. split; [done | by eapply same_kind_trans].
    + destruct (IH (S i) total fs1 p y Hy) as (z & Hz & Hk').
      destruct (ConcatWithJoin.main_loop _ _ _ _ n (S i) rest _ fs1) as [[log t] fs2].
      exists z. split; [done | by eapply same_kind_trans].
Qed.

(** Every file that the loop reports as written is, when the loop ends,
    a file in [OUTPUT_DIR] whose name ends with [".csv"]. *)
Lemma main_loop_wrote (n : nat) (csv_dirs : list (list string)) :
  OUTPUT_DIR ≠ [] →
  ∀ (i total : nat) (fs : filesystem) (p : list string) (rows : nat),
  let run := ConcatWithJoin.main_loop ident_compare read_tables to_csv OUTPUT_DIR
               n i csv_dirs total fs in
  Wrote p rows ∈ run.1.1 →
  (∃ d, d ∈ csv_dirs ∧ p = ConcatWithJoin.derive_output_path OUTPUT_DIR d) ∧
  is_file p run.2 = true ∧ is_dir OUTPUT_DIR run.2 = true.
Proof.
  intros Hout. induction csv_dirs as [| d rest IH]; intros i total fs p rows run Hin.
  - subst run. simpl in Hin. by apply not_elem_of_nil in Hin.
  - subst run. cbn [ConcatWithJoin.main_loop] in *.
    destruct (ConcatWithJoin.process_csv_dir _ _ _ d _ fs) as [[rows1 | e] fs1] eqn:Hproc.
    + specialize (IH (S i) (total + rows1) fs1 p rows).
      pose proof (main_loop_keeps n rest (S i) (total + rows1) fs1) as Hkeep.
      destruct (ConcatWithJoin.main_loop _ _ _ _ n (S i) rest _ fs1) as [[log t] fs2].
      simpl in *.
      apply elem_of_cons in Hin as [Hin | Hin]; [done |].
      apply elem_of_cons in Hin as [Hin | Hin].
      * injection Hin as -> ->. split; [exists d; split; [apply list_elem_of_here | done] |].
        unfold ConcatWithJoin.process_csv_dir in Hproc.
        destruct (read_tables d fs) as [ds | e]; [| done].
        unfold mbind, M_bind, bind, mret, M_ret, ret in Hproc.
        destruct (mkdir_parents _ fs) as [[[] | e] fs0] eqn:Hmk; [| done].
        assert (Hdir : fs0 !! OUTPUT_DIR = Some Dir).
        { apply (mkdir_parents_target _ fs); [| done].
          unfold ConcatWithJoin.derive_output_path, parent in Hmk.
          by rewrite removelast_last in Hmk. }
        assert (Hne : ConcatWithJoin.derive_output_path OUTPUT_DIR d ≠ OUTPUT_DIR).
        { unfold ConcatWithJoin.derive_output_path. intros Heq.
          apply (f_equal length) in Heq. rewrite length_app in Heq. simpl in Heq. lia. }
        unfold write_file in Hproc.
        destruct (fs0 !! ConcatWithJoin.derive_output_path OUTPUT_DIR d)
          as [[| data] |] eqn:Ho; [done | |]; simplify_eq.
        -- destruct (Hkeep (ConcatWithJoin.derive_output_path OUTPUT_DIR d) (File _)
                       (lookup_insert_eq _ _ _)) as (y & Hy & Hk).
           destruct (Hkeep OUTPUT_DIR Dir) as (z & Hz & Hk');
             [by rewrite lookup_insert_ne | ].
           unfold is_file, is_dir. rewrite Hy, Hz.
           by destruct y, z.
        -- destruct (Hkeep (ConcatWithJoin.derive_output_path OUTPUT_DIR d) (File _)
                       (lookup_insert_eq _ _ _)) as (y & Hy & Hk).
           destruct (Hkeep OUTPUT_DIR Dir) as (z & Hz & Hk');
             [by rewrite lookup_insert_ne | ].
           unfold is_file, is_dir. rewrite Hy, Hz.
           by destruct y, z.
      * destruct (IH Hin) as ((d' & Hd' & ->) & Hf & Hd).
        split; [exists d'; split; [by apply list_elem_of_further | done] | done].
    + specialize (IH (S i) total fs1 p rows).
      destruct (ConcatWithJoin.main_loop _ _ _ _ n (S i) rest _ fs1) as [[log t] fs2].
      simpl in *.
      apply elem_of_cons in Hin as [Hin | Hin]; [done |].
      apply elem_of_cons in Hin as [Hin | Hin]; [done |].
      destruct (IH Hin) as ((d' & Hd' & ->) & Hf & Hd).
      split; [exists d'; split; [by apply list_elem_of_further | done] | done].
Qed.

Lemma elem_of_glob_csv (dir p : list string) (fs : filesystem) :
  p ∈ glob_csv dir fs ↔
  is_Some (fs !! p) ∧ is_dir dir fs = true ∧ p ≠ [] ∧ parent p = dir ∧
  endswith (List.last p "") ".csv" = true.
Proof.
  unfold glob_csv. rewrite merge_sort_Permutation, list_elem_of_filter, list_elem_of_fmap.
  split.
  - intros [Hp ([p' x] & -> & Hin)]. apply elem_of_map_to_list in Hin. simpl in *.
    split; [by eexists | done].
  - intros [[x Hx] Hp]. split; [done |]. exists (p, x). split; [done |].
    by apply elem_of_map_to_list.
Qed.

End MainProperties.

(** X16.  [main] of concat_with_join_legiscan.py resolves its inputs one
    after the other before it processes anything.  When an input does
    not resolve, the run ends with that failure, on the file system as
    the inputs before it and the failed attempt left it: no later input
    is resolved and no dataset is processed. *)
Theorem unresolvable_input_aborts
    {ident : Type} `{EqDecision ident} (ident_compare : ident → ident → comparison)
    (read_tables : list string → filesystem → @dataset ident + error)
    (to_csv : list (@output_row ident) → list Byte.byte)
    (cwd : list string) (infolist : list Byte.byte → option (list ZipInfo))
    (csv_reader : list Byte.byte → list (list string) * bool)
    (csv_writer : list (list string) → list Byte.byte)
    (OUTPUT_DIR COMBINED_PATH : list string)
    (pre post : list (PurePath * (list string → Z)))
    (input_path : PurePath) (st_mtime : list string → Z)
    (found : list (list string)) (e : error) (fs fs1 fs2 : filesystem) :
  ConcatWithJoinMain.gather cwd infolist pre fs = (inl found, fs1) →
  resolve_root_dir cwd infolist st_mtime input_path fs1 = (inr e, fs2) →
  ConcatWithJoinMain.main ident_compare read_tables to_csv cwd infolist
    csv_reader csv_writer OUTPUT_DIR COMBINED_PATH
    (pre ++ (input_path, st_mtime) :: post) fs
  = (inr e, fs2).
Proof.
  intros Hpre Hfail. unfold ConcatWithJoinMain.main.
  rewrite gather_app, Hpre. simpl. by rewrite Hfail.
Qed.

Lemma unresolvable_input_aborts_witness :
  ConcatWithJoinMain.main Z.compare ExampleRun.read_tables ExampleRun.to_csv
    ExampleArchive.cwd
    (ExampleArchive.infolist_of [ExampleArchive.good_dir; ExampleArchive.good_file])
    ExampleStream.simple_csv_reader ExampleStream.simple_csv_writer
    ["out"] ["combined"; "all.csv"]
    ([(ExampleArchive.dir_path, ExampleArchive.mtime_zip_older)]
     ++ (Path "/data/2023-2024.zip", ExampleArchive.mtime_zip_older)
     :: [(ExampleArchive.zip_path, ExampleArchive.mtime_zip_older)])
    ExampleArchive.fs_both
  = (inr FileNotFoundError, ExampleArchive.fs_both).
Proof.
  apply (unresolvable_input_aborts Z.compare ExampleRun.read_tables ExampleRun.to_csv
           ExampleArchive.cwd
           (ExampleArchive.infolist_of [ExampleArchive.good_dir; ExampleArchive.good_file])
           ExampleStream.simple_csv_reader ExampleStream.simple_csv_writer
           ["out"] ["combined"; "all.csv"]
           [(ExampleArchive.dir_path, ExampleArchive.mtime_zip_older)]
           [(ExampleArchive.zip_path, ExampleArchive.mtime_zip_older)]
           (Path "/data/2023-2024.zip") ExampleArchive.mtime_zip_older []
           FileNotFoundError ExampleArchive.fs_both ExampleArchive.fs_both
           ExampleArchive.fs_both).
  - set (r := ConcatWithJoinMain.gather _ _ _ _).
    assert (Hr : r.1 = inl [] ∧ bool_decide (r.2 = ExampleArchive.fs_both) = true)
      by (split; vm_compute; reflexivity).
    destruct Hr as [H1 H2]. apply bool_decide_eq_true in H2.
    destruct r as [r1 r2]. simpl in *. by subst.
  - set (r := resolve_root_dir _ _ _ _ _).
    assert (Hr : r.1 = inr FileNotFoundError
                 ∧ bool_decide (r.2 = ExampleArchive.fs_both) = true)
      by (split; vm_compute; reflexivity).
    destruct Hr as [H1 H2]. apply bool_decide_eq_true in H2.
    destruct r as [r1 r2]. simpl in *. by subst.
Defined.

(** X17.  A run of [main] that finishes attempted every dataset it had
    gathered, reports as total the sum of the rows written, and every
    file its loop reported as written is one of the files that the final
    concatenation reads: the concatenation then does not report that
    there is nothing to concatenate. *)
Theorem written_sessions_are_concatenated
    {ident : Type} `{EqDecision ident} (ident_compare : ident → ident → comparison)
    (read_tables : list string → filesystem → @dataset ident + error)
    (to_csv : list (@output_row ident) → list Byte.byte)
    (cwd : list string) (infolist : list Byte.byte → option (list ZipInfo))
    (csv_reader : list Byte.byte → list (list string) * bool)
    (csv_writer : list (list string) → list Byte.byte)
    (OUTPUT_DIR COMBINED_PATH : list string)
    (filenames : list (PurePath * (list string → Z)))
    (log : list log_line) (total : nat) (report : sessions_report)
    (fs fs' : filesystem) :
  OUTPUT_DIR ≠ [] →
  ConcatWithJoinMain.main ident_compare read_tables to_csv cwd infolist
    csv_reader csv_writer OUTPUT_DIR COMBINED_PATH filenames fs
  = (inl (Finished log total report), fs') →
  ∃ csv_dirs fs1 fs2,
    ConcatWithJoinMain.gather cwd infolist filenames fs = (inl csv_dirs, fs1) ∧
    csv_dirs ≠ [] ∧
    attempted log = csv_dirs ∧
    total = rows_written log ∧
    concat_sessions csv_reader csv_writer OUTPUT_DIR COMBINED_PATH fs2 = (inl report, fs') ∧
    (∀ p rows, Wrote p rows ∈ log →
       p ∈ glob_csv OUTPUT_DIR fs2 ∧ report ≠ NoSessionCsvs).
Proof.
  intros Hout Hrun. unfold ConcatWithJoinMain.main in Hrun.
  destruct (ConcatWithJoinMain.gather cwd infolist filenames fs)
    as [[csv_dirs | e] fs1]; [| done].
  destruct csv_dirs as [| d0 dirs] eqn:Hdirs; [done |]. rewrite <- Hdirs in *.
  pose proof (cwj_attempted ident_compare read_tables to_csv OUTPUT_DIR
                (length csv_dirs) csv_dirs 1 0 fs1) as Hatt.
  destruct (cwj_accounting ident_compare read_tables to_csv OUTPUT_DIR
              (length csv_dirs) csv_dirs 1 0 fs1) as (Htotal & _ & _).
  pose proof (main_loop_wrote ident_compare read_tables to_csv OUTPUT_DIR
                (length csv_dirs) csv_dirs Hout 1 0 fs1) as Hwrote.
  destruct (ConcatWithJoin.main_loop ident_compare read_tables to_csv OUTPUT_DIR
              (length csv_dirs) 1 csv_dirs 0 fs1) as [[log1 total1] fs2].
  simpl in Hatt, Htotal, Hwrote.
  destruct (concat_sessions csv_reader csv_writer OUTPUT_DIR COMBINED_PATH fs2)
    as [[report1 | e] fs3] eqn:Hconcat; [| done].
  injection Hrun as <- <- <- <-.
  exists csv_dirs, fs1, fs2. split_and!; [done | by rewrite Hdirs | done | done | done |].
  intros p rows Hin. destruct (Hwrote p rows Hin) as ((d & Hd & ->) & Hfile & Hdir).
  assert (Hglob : ConcatWithJoin.derive_output_path OUTPUT_DIR d ∈ glob_csv OUTPUT_DIR fs2).
  { apply elem_of_glob_csv. unfold ConcatWithJoin.derive_output_path, parent.
    rewrite removelast_last, last_last. split_and!.
    - unfold is_file, ConcatWithJoin.derive_output_path in Hfile.
      destruct (fs2 !! _) as [[| data] |]; [done | by eexists | done].
    - done.
    - by destruct OUTPUT_DIR.
    - done.
    - apply output_name_endswith_csv. }
  split; [done |].
  unfold concat_sessions in Hconcat.
  destruct (glob_csv OUTPUT_DIR fs2) as [| p0 ps]; [by apply not_elem_of_nil in Hglob |].
  unfold mbind, M_bind, bind, copy_sessions in Hconcat.
  destruct (mkdir_parents _ fs2) as [[[] | e] fs4]; [| done].
  destruct (write_file _ _ fs4) as [[[] | e] fs5]; [| done].
  by injection Hconcat as <- <-.
Qed.

Lemma written_sessions_are_concatenated_witness :
  let run := ConcatWithJoinMain.main Z.compare ExampleRun.read_tables ExampleRun.to_csv
               [] (λ _, None) ExampleStream.simple_csv_reader
               ExampleStream.simple_csv_writer ["out"] ["combined"; "all.csv"]
               [(Path "/d", λ _, 0%Z)] ExampleTree.fs in
  ∃ log report,
    run.1 = inl (Finished log 4 report) ∧
    attempted log = [["d"; "AK"; "s1"; "csv"]; ["d"; "WY"; "s1"; "csv"]] ∧
    report ≠ NoSessionCsvs.
Proof.
  intros run.
  assert (Hr : ∃ log report, run.1 = inl (Finished log 4 report) ∧
                             Wrote ["out"; "AK_s1.csv"] 2 ∈ log).
  { eexists _, _. split; [vm_compute; reflexivity |].
    apply list_elem_of_further, list_elem_of_here. }
  destruct Hr as (log & report & Hr & Hin). exists log, report.
  destruct (written_sessions_are_concatenated Z.compare ExampleRun.read_tables
              ExampleRun.to_csv [] (λ _, None) ExampleStream.simple_csv_reader
              ExampleStream.simple_csv_writer ["out"] ["combined"; "all.csv"]
              [(Path "/d", λ _, 0%Z)] log 4 report ExampleTree.fs run.2)
    as (csv_dirs & fs1 & fs2 & Hg & _ & Hatt & _ & _ & Hw).
  - discriminate.
  - change (run = (inl (Finished log 4 report), run.2)). clearbody run.
    destruct run as [[res | e] fs1]; simpl in Hr; [| discriminate].
    by injection Hr as ->.
  - split_and!; [exact Hr | | exact (proj2 (Hw _ _ Hin))].
    rewrite Hatt.
    set (g := ConcatWithJoinMain.gather _ _ _ _) in Hg.
    assert (Hg1 : g.1 = inl [["d"; "AK"; "s1"; "csv"]; ["d"; "WY"; "s1"; "csv"]])
      by (vm_compute; reflexivity).
    rewrite Hg in Hg1. simpl in Hg1. by injection Hg1.
Defined.

(** ** The concatenation at the end of [main] *)

Section ConcatSessionsProperties.

Variable csv_reader : list Byte.byte → list (list string) * bool.

Lemma concat_session_file_good (fs : filesystem) (st : writer_state) (p : list string) :
  reads_well csv_reader fs p →
  concat_session_file csv_reader fs st p
  = {| header_written := true;
       written := written st
                  ++ (if header_written st then [] else [hd [] (rows_of csv_reader fs p)])
                  ++ tail (rows_of csv_reader fs p);
       total_rows := total_rows st + length (tail (rows_of csv_reader fs p));
       errors := errors st |}.
Proof.
  intros (bytes & header & data & Hfile & Hread).
  unfold concat_session_file, rows_of. by rewrite Hfile, Hread.
Qed.

Lemma foldl_concat_session_file (fs : filesystem) (inputs : list (list string)) :
  ∀ st : writer_state,
  (∀ p, p ∈ inputs → reads_well csv_reader fs p) →
  let st' := foldl (concat_session_file csv_reader fs) st inputs in
  written st'
  = written st
    ++ (if header_written st then []
        else match inputs with
             | [] => []
             | p0 :: _ => [hd [] (rows_of csv_reader fs p0)]
             end)
    ++ flat_map (λ p, tail (rows_of csv_reader fs p)) inputs ∧
  total_rows st'
  = total_rows st + length (flat_map (λ p, tail (rows_of csv_reader fs p)) inputs) ∧
  errors st' = errors st.
Proof.
  induction inputs as [| p inputs IH]; intros st Hgood; simpl.
  - split_and!; [| lia | done]. destruct (header_written st); by rewrite app_nil_r.
  - rewrite (concat_session_file_good fs st p) by apply Hgood, list_elem_of_here.
    destruct (IH {| header_written := true;
                    written := written st
                      ++ (if header_written st then []
                          else [hd [] (rows_of csv_reader fs p)])
                      ++ tail (rows_of csv_reader fs p);
                    total_rows := total_rows st
                      + length (tail (rows_of csv_reader fs p));
                    errors := errors st |})
      as (Hw & Ht & He).
    { intros p' Hp'. by apply Hgood, list_elem_of_further. }
    simpl in *. rewrite Hw, Ht, He. split_and!; [| rewrite length_app; lia | done].
    destruct (header_written st); simpl; by rewrite <- !(assoc_L (++)).
Qed.

End ConcatSessionsProperties.

(** X18.  The concatenation at the end of [main].  Its inputs are the
    entries of [OUTPUT_DIR] whose name ends with [".csv"], sorted.
    Without any, it reports so and leaves the file system as it is.
    When they all read without error, the combined file holds the header
    of the first of them followed by the data rows of all of them, in
    order, whatever the headers of the others are; the count reported is
    the number of data rows. *)
Theorem concat_sessions_spec
    (csv_reader : list Byte.byte → list (list string) * bool)
    (csv_writer : list (list string) → list Byte.byte)
    (OUTPUT_DIR COMBINED_PATH : list string) (fs : filesystem) :
  let csv_paths := glob_csv OUTPUT_DIR fs in
  let run := concat_sessions csv_reader csv_writer OUTPUT_DIR COMBINED_PATH fs in
  (∀ p, p ∈ csv_paths ↔
        is_Some (fs !! p) ∧ is_dir OUTPUT_DIR fs = true ∧ p ≠ [] ∧
        parent p = OUTPUT_DIR ∧ endswith (List.last p "") ".csv" = true) ∧
  StronglySorted path_le csv_paths ∧
  (csv_paths = [] → run = (inl NoSessionCsvs, fs)) ∧
  (∀ (p0 : list string) (rest : list (list string)) (fs0 : filesystem),
     csv_paths = p0 :: rest →
     (∀ p, p ∈ csv_paths → p ≠ COMBINED_PATH ∧ reads_well csv_reader fs p) →
     mkdir_parents (parent COMBINED_PATH) fs = (inl tt, fs0) →
     fs0 !! COMBINED_PATH ≠ Some Dir →
     let body := flat_map (λ p, tail (rows_of csv_reader fs p)) csv_paths in
     run = (inl (WrittenSessions (length body) []),
            <[ COMBINED_PATH := File (csv_writer (hd [] (rows_of csv_reader fs p0) :: body)) ]>
              fs0)).
Proof.
  intros csv_paths run. split_and!.
  - intros p. apply elem_of_glob_csv.
  - apply (StronglySorted_merge_sort _).
  - intros Hnil. subst run. unfold concat_sessions. fold csv_paths. by rewrite Hnil.
  - intros p0 rest fs0 Hpaths Hgood Hmk Hout body.
    subst run. unfold concat_sessions. fold csv_paths. rewrite Hpaths.
    rewrite <- Hpaths. unfold mbind, M_bind, bind. rewrite Hmk.
    assert (write_file COMBINED_PATH [] fs0
            = (inl tt, <[ COMBINED_PATH := File [] ]> fs0)) as ->.
    { unfold write_file. by destruct (fs0 !! COMBINED_PATH) as [[| ?] |]. }
    unfold copy_sessions. set (fs1 := <[ COMBINED_PATH := File [] ]> fs0).
    assert (Hsame : ∀ p, p ∈ csv_paths → fs1 !! p = fs !! p).
    { intros p Hp. destruct (Hgood p Hp) as [Hneq (bytes & header & data & Hfile & _)].
      unfold fs1. rewrite lookup_insert_ne by done.
      transitivity (Some (File bytes)); [| symmetry; exact Hfile].
      eapply mkdir_parents_preserves; [exact Hmk | exact Hfile]. }
    assert (Hrows : ∀ p, p ∈ csv_paths → rows_of csv_reader fs1 p = rows_of csv_reader fs p).
    { intros p Hp. unfold rows_of. by rewrite Hsame. }
    destruct (foldl_concat_session_file csv_reader fs1 csv_paths writer_start)
      as (Hw & Ht & He).
    { intros p Hp. destruct (Hgood p Hp) as [_ (bytes & header & data & Hfile & Hread)].
      exists bytes, header, data. split; [| done]. by rewrite Hsame. }
    simpl in Hw, Ht, He. rewrite Hw, Ht, He.
    assert (Hbody : flat_map (λ p, tail (rows_of csv_reader fs1 p)) csv_paths = body).
    { subst body. clear -Hrows. induction csv_paths as [| p l IH]; [done |]. simpl.
      rewrite Hrows by apply list_elem_of_here.
      rewrite IH; [done |]. intros p' Hp'. by apply Hrows, list_elem_of_further. }
    rewrite Hbody. unfold fs1. rewrite insert_insert_eq.
    rewrite Hpaths at 1. rewrite Hrows by (rewrite Hpaths; apply list_elem_of_here).
    done.
Qed.

(** ** Raw streaming mode: what holds whatever fails *)

Section StreamConcatInvariant.

Variable cwd : list string.
Variable csv_reader : list Byte.byte → list (list string) * bool.
Variable csv_writer : list (list string) → list Byte.byte.
Variable root_dir : PurePath.

Lemma concat_file_step (fs : filesystem) (all : list (list string))
    (st : writer_state) (k : list string) :
  k ∈ all →
  well_formed_output root_dir all (written st) (total_rows st) →
  (header_written st = false ↔ written st = []) →
  let st1 := concat_file cwd csv_reader root_dir fs st k in
  well_formed_output root_dir all (written st1) (total_rows st1) ∧
  (header_written st1 = false ↔ written st1 = []) ∧
  (errors st1 = errors st ∨ ∃ e, errors st1 = errors st ++ [(k, e)]).
Proof.
  intros Hk Hst Hnone st1. subst st1. unfold concat_file.
  destruct (parents_2_state (parts root_dir ++ k)) as [state |] eqn:Hstate;
    [| by split_and!; [| | right; eexists]].
  destruct (fs !! (resolve cwd root_dir ++ k)) as [[| bytes] |];
    [by split_and!; [| | right; eexists] | | by split_and!; [| | right; eexists]].
  destruct (csv_reader bytes) as [[| header data] raises];
    [by split_and!; [| | right; eexists] |].
  cbn [header_written written total_rows errors].
  assert (Hdata : Forall (tagged_by root_dir all) (map (λ row, row ++ [state]) data)).
  { apply list.Forall_forall. intros row (row0 & -> & _)%list_elem_of_fmap.
    exists k, state. split_and!; [done | done | apply last_last]. }
  split_and!; [| | destruct raises; [right; by eexists | by left]].
  - destruct (header_written st) eqn:Hh.
    + destruct (written st) as [| first body] eqn:Hw.
      { discriminate (proj2 Hnone eq_refl). }
      destruct Hst as (Hfirst & Hlen & Hbody). simpl. split_and!; [done | |].
      * rewrite length_app, length_map. lia.
      * by apply Forall_app.
    + rewrite (proj1 Hnone eq_refl) in *. simpl in *. rewrite Hst.
      split_and!; [by eexists | by rewrite length_map | done].
  - split; [done |]. destruct (header_written st) eqn:Hh.
    + destruct (written st) as [| first body] eqn:Hw; [| done].
      discriminate (proj2 Hnone eq_refl).
    + by rewrite (proj1 Hnone eq_refl).
Qed.

Lemma foldl_concat_file_invariant (fs : filesystem) (all inputs : list (list string)) :
  (∀ k, k ∈ inputs → k ∈ all) →
  ∀ st : writer_state,
  well_formed_output root_dir all (written st) (total_rows st) →
  (header_written st = false ↔ written st = []) →
  let st' := foldl (concat_file cwd csv_reader root_dir fs) st inputs in
  well_formed_output root_dir all (written st') (total_rows st') ∧
  ∃ new, errors st' = errors st ++ new ∧ new.*1 `sublist_of` inputs.
Proof.
  induction inputs as [| k inputs IH]; intros Hall st Hst Hnone; simpl.
  - split; [done |]. exists []. by rewrite app_nil_r.
  - destruct (concat_file_step fs all st k) as (Hst1 & Hnone1 & Herr);
      [apply Hall, list_elem_of_here | done | done |].
    destruct (IH (λ k' Hk', Hall k' (list_elem_of_further _ _ _ Hk')) _ Hst1 Hnone1)
      as (Hst' & new & Hnew & Hsub).
    split; [done |].
    destruct Herr as [Heq | [e Heq]]; rewrite Hnew, Heq.
    + exists new. split; [done |]. by apply sublist_cons.
    + exists ((k, e) :: new). rewrite <- (assoc_L (++)). split; [done |].
      simpl. by apply sublist_skip.
Qed.

(** No input file is listed twice. *)
Lemma NoDup_bills_paths (root : list string) (fs : filesystem) :
  NoDup (bills_paths root fs).
Proof.
  unfold bills_paths, rglob_csv_bills. rewrite merge_sort_Permutation.
  apply NoDup_filter. apply NoDup_fmap_2_strong.
  - intros p q Hp Hq Heq. unfold rglob_star in Hp, Hq.
    apply list_elem_of_filter in Hp as [([kp ->] & _) _].
    apply list_elem_of_filter in Hq as [([kq ->] & _) _].
    rewrite !drop_app_length in Heq. by rewrite Heq.
  - unfold rglob_star. apply NoDup_filter, NoDup_fst_map_to_list.
Qed.

End StreamConcatInvariant.

(** X19.  Whatever fails while the input files are read, raw streaming
    concatenation leaves a well-formed output: either nothing was
    written and the count is 0, or there is one header row ending with
    the [state] column, followed by exactly as many rows as the run
    reports, each ending with the state code of one of the input files.
    Every error reported names an input file, no file is named by two
    errors, and the errors come in the order of the input files. *)
Theorem stream_concat_counts_what_it_writes
    (cwd : list string) (csv_reader : list Byte.byte → list (list string) * bool)
    (csv_writer : list (list string) → list Byte.byte)
    (root_dir output_path : PurePath) (fs fs' : filesystem)
    (n : nat) (errs : list (list string * error)) :
  stream_concat cwd csv_reader csv_writer root_dir output_path fs
  = (inl (Done n errs), fs') →
  let inputs := bills_paths (resolve cwd root_dir) fs in
  ∃ rows, fs' !! resolve cwd output_path = Some (File (csv_writer rows)) ∧
          well_formed_output root_dir inputs rows n ∧
          Forall (λ ke, ke.1 ∈ inputs) errs ∧
          (length errs ≤ length inputs)%nat ∧
          NoDup errs.*1 ∧
          errs.*1 `sublist_of` inputs.
Proof.
  intros Hrun inputs. unfold stream_concat in Hrun. fold inputs in Hrun.
  destruct inputs as [| k0 rest] eqn:Hinputs; [done |]. rewrite <- Hinputs in *.
  unfold mbind, M_bind, bind in Hrun.
  destruct (mkdir_parents _ fs) as [[[] | e] fs0]; [| done].
  destruct (write_file _ [] fs0) as [[[] | e] fs1]; [| done].
  unfold copy_inputs in Hrun.
  destruct (foldl_concat_file_invariant cwd csv_reader root_dir fs1 inputs inputs
              (λ k Hk, Hk) writer_start) as (Hst & new & Hnew & Hsub);
    [done | done |].
  injection Hrun as <- <- <-. simpl in Hnew. rewrite Hnew.
  eexists. rewrite lookup_insert_eq. split_and!; [done | done | | | | done].
  - apply list.Forall_forall. intros ke Hke.
    eapply elem_of_sublist; [| exact Hsub]. by apply list_elem_of_fmap_2.
  - rewrite <- (length_fmap fst). by apply sublist_length.
  - eapply sublist_NoDup; [| exact Hsub]. apply NoDup_bills_paths.
Qed.

Lemma stream_concat_counts_what_it_writes_witness :
  let run := stream_concat [] ExampleStream.simple_csv_reader ExampleStream.simple_csv_writer
               ExampleStream.root_dir ExampleStream.output_path ExampleStream.fs in
  ∃ rows, run.2 !! ["data"; "concatenated-2021-2022"; "all-bills.csv"]
          = Some (File (ExampleStream.simple_csv_writer rows)) ∧
          well_formed_output ExampleStream.root_dir
            (bills_paths ["data"; "2021-2022"] ExampleStream.fs) rows 3.
Proof.
  intros run.
  assert (Hr : run.1 = inl (Done 3 [])) by (vm_compute; reflexivity).
  destruct (stream_concat_counts_what_it_writes [] ExampleStream.simple_csv_reader
              ExampleStream.simple_csv_writer ExampleStream.root_dir
              ExampleStream.output_path ExampleStream.fs run.2 3 [])
    as (rows & Hfile & Hwf & _).
  - change (run = (inl (Done 3 []), run.2)). clearbody run.
    destruct run as [[rep | e] fs1]; simpl in Hr; [| discriminate].
    by injection Hr as ->.
  - exists rows. split; [exact Hfile | exact Hwf].
Defined.

(** ** Raw streaming mode: input files with different headers *)

Section StreamConcatHeaders.

Variable cwd : list string.
Variable csv_reader : list Byte.byte → list (list string) * bool.
Variable root_dir : PurePath.

(** Once the header is written, a file that reads without error adds
    its data rows, whatever its own header is. *)
Lemma foldl_concat_file_headers (fs : filesystem) (inputs : list (list string)) :
  parts root_dir ≠ [] →
  ∀ st : writer_state,
  header_written st = true →
  (∀ k, k ∈ inputs → ["CSV"; "bills.csv"] `suffix_of` k ∧
        ∃ header, reads_with_header cwd csv_reader root_dir header fs k) →
  let st' := foldl (concat_file cwd csv_reader root_dir fs) st inputs in
  written st' = written st ++ flat_map (tagged_rows cwd csv_reader root_dir fs) inputs ∧
  total_rows st'
  = total_rows st + length (flat_map (tagged_rows cwd csv_reader root_dir fs) inputs) ∧
  errors st' = errors st.
Proof.
  intros Hroot. induction inputs as [| k inputs IH]; intros st Hh Hgood; simpl.
  - split_and!; [by rewrite app_nil_r | lia | done].
  - destruct (Hgood k (list_elem_of_here _ _)) as [Hsuf [header Hread]].
    rewrite (concat_file_good cwd csv_reader root_dir header fs st k Hroot Hsuf Hread).
    rewrite Hh.
    destruct (IH {| header_written := true;
                    written := written st ++ [] ++ tagged_rows cwd csv_reader root_dir fs k;
                    total_rows := total_rows st
                      + length (tagged_rows cwd csv_reader root_dir fs k);
                    errors := errors st |})
      as (Hw & Ht & He); [done | |].
    { intros k' Hk'. by apply Hgood, list_elem_of_further. }
    simpl in *. rewrite Hw, Ht, He.
    split_and!; [by rewrite <- !(assoc_L (++)) | rewrite length_app; lia | done].
Qed.

End StreamConcatHeaders.

(** X20.  Raw streaming concatenation does not compare headers: when the
    input files all read without error, the output holds the header of
    the first file (with the [state] column appended) and the data rows
    of every file, whatever header the other files have. *)
Theorem stream_concat_keeps_first_header
    (cwd : list string) (csv_reader : list Byte.byte → list (list string) * bool)
    (csv_writer : list (list string) → list Byte.byte)
    (root_dir output_path : PurePath) (fs fs0 : filesystem)
    (k0 : list string) (rest : list (list string)) (header0 : list string) :
  let root := resolve cwd root_dir in
  let out := resolve cwd output_path in
  bills_paths root fs = k0 :: rest →
  parts root_dir ≠ [] →
  reads_with_header cwd csv_reader root_dir header0 fs k0 →
  (∀ k, k ∈ rest → ∃ header, reads_with_header cwd csv_reader root_dir header fs k) →
  (∀ k, k ∈ k0 :: rest → root ++ k ≠ out) →
  mkdir_parents (resolve cwd (path_parent output_path)) fs = (inl tt, fs0) →
  fs0 !! out ≠ Some Dir →
  let body := flat_map (tagged_rows cwd csv_reader root_dir fs) (k0 :: rest) in
  stream_concat cwd csv_reader csv_writer root_dir output_path fs
  = (inl (Done (length body) []),
     <[ out := File (csv_writer ((header0 ++ ["state"]) :: body)) ]> fs0).
Proof.
  intros root out Hinputs Hroot Hfirst Hrest Hneq Hmk Hout body.
  unfold stream_concat. fold root. rewrite Hinputs.
  unfold mbind, M_bind, bind. rewrite Hmk. fold out.
  assert (write_file out [] fs0 = (inl tt, <[ out := File [] ]> fs0)) as ->.
  { unfold write_file. by destruct (fs0 !! out) as [[| ?] |]. }
  unfold copy_inputs. fold out.
  set (fs1 := <[ out := File [] ]> fs0).
  assert (Hreads : ∀ k, k ∈ k0 :: rest →
            ∃ header, reads_with_header cwd csv_reader root_dir header fs k).
  { intros k [-> | Hk]%elem_of_cons; [by exists header0 | by apply Hrest]. }
  assert (Hsame : ∀ k, k ∈ k0 :: rest → fs1 !! (root ++ k) = fs !! (root ++ k)).
  { intros k Hk. destruct (Hreads k Hk) as (header & bytes & rows & Hfile & _).
    unfold fs1. rewrite lookup_insert_ne by (by apply not_eq_sym, Hneq).
    transitivity (Some (File bytes)); [| symmetry; exact Hfile].
    eapply mkdir_parents_preserves; [exact Hmk | exact Hfile]. }
  assert (Hsuf : ∀ k, k ∈ k0 :: rest → ["CSV"; "bills.csv"] `suffix_of` k).
  { intros k Hk. rewrite <- Hinputs in Hk.
    by apply (elem_of_bills_paths cwd root_dir) in Hk as [? _]. }
  assert (Hreads1 : ∀ k header, k ∈ k0 :: rest →
            reads_with_header cwd csv_reader root_dir header fs k →
            reads_with_header cwd csv_reader root_dir header fs1 k).
  { intros k header Hk (bytes & rows & Hfile & Hread). exists bytes, rows.
    split; [| done]. fold root. by rewrite Hsame. }
  cbn [foldl].
  rewrite (concat_file_good cwd csv_reader root_dir header0 fs1 writer_start k0 Hroot);
    [| apply Hsuf, list_elem_of_here | apply Hreads1; [apply list_elem_of_here | done]].
  destruct (foldl_concat_file_headers cwd csv_reader root_dir fs1 rest Hroot
              {| header_written := true;
                 written := written writer_start
                   ++ (if header_written writer_start then [] else [header0 ++ ["state"]])
                   ++ tagged_rows cwd csv_reader root_dir fs1 k0;
                 total_rows := total_rows writer_start
                   + length (tagged_rows cwd csv_reader root_dir fs1 k0);
                 errors := errors writer_start |}) as (Hw & Ht & He); [done | |].
  { intros k Hk. split; [by apply Hsuf, list_elem_of_further |].
    destruct (Hrest k Hk) as [header Hread]. exists header.
    apply Hreads1; [by apply list_elem_of_further | done]. }
  rewrite Hw, Ht, He. cbn [written total_rows errors writer_start header_written app].
  pose proof (tagged_rows_ext cwd csv_reader root_dir fs fs1 (k0 :: rest) Hsame) as Hext.
  cbn [flat_map] in Hext. unfold fs1. rewrite insert_insert_eq.
  subst body. cbn [flat_map]. rewrite <- Hext, length_app. done.
Qed.

Lemma stream_concat_keeps_first_header_witness :
  let run := stream_concat [] ExampleStream.simple_csv_reader ExampleStream.simple_csv_writer
               ExampleStream.root_dir ExampleStream.output_path ExampleHeaders.fs in
  run.1 = inl (Done 2 []) ∧
  run.2 !! ["data"; "concatenated-2021-2022"; "all-bills.csv"]
  = Some (ExampleStream.file
            [ ["bill_id"; "title"; "state"];
              ["1"; "Roads"; "AK"]; ["7"; "Water"; "1"; "WY"] ]).
Proof.
  intros run. subst run.
  set (r := mkdir_parents ["data"; "concatenated-2021-2022"] ExampleHeaders.fs).
  assert (Hr : r.1 = inl tt) by (vm_compute; reflexivity).
  rewrite (stream_concat_keeps_first_header [] ExampleStream.simple_csv_reader
             ExampleStream.simple_csv_writer ExampleStream.root_dir
             ExampleStream.output_path ExampleHeaders.fs r.2
             ["AK"; "s1"; "CSV"; "bills.csv"] [["WY"; "s1"; "CSV"; "bills.csv"]]
             ["bill_id"; "title"]).
  - split; vm_compute; reflexivity.
  - vm_compute. reflexivity.
  - vm_compute. discriminate.
  - eexists _, _. split; vm_compute; reflexivity.
  - intros k ->%list_elem_of_singleton. exists ["id"; "name"; "status"].
    eexists _, _. split; vm_compute; reflexivity.
  - intros k [-> | ->%list_elem_of_singleton]%elem_of_cons; by_evaluation.
  - change (r = (inl tt, r.2)).
    destruct r as [[[] | e] fs0]; [reflexivity | discriminate].
  - by_evaluation.
Defined.

(** ** Raw streaming mode: the state code of an input file *)

Lemma parents_2_state_snoc3 (p : list string) (a b c : string) :
  parents_2_state (p ++ [a; b; c]) = Some (letters_only (List.last p "")).
Proof.
  unfold parents_2_state, state_of_path. rewrite length_app. simpl.
  destruct (Nat.ltb_spec (length p + 3) 3) as [Hlt | _]; [lia |].
  replace (length p + 3 - 3) with (length p) by lia.
  by rewrite take_app_length.
Qed.

(** X21.  The state code of an input file of raw streaming concatenation is
    the name, letters only, of the directory three levels above the
    file: the state folder for a file at
    [<state>/<session>/CSV/bills.csv] below the root (at any depth), the
    root's own name for a file at [<session>/CSV/bills.csv], the name of
    the root's parent for [CSV/bills.csv]; an input path of two
    components has no such directory. *)
Theorem state_code_by_depth (root_dir : PurePath) (pre : list string)
    (state session : string) :
  parents_2_state (parts root_dir ++ pre ++ [state; session; "CSV"; "bills.csv"])
  = Some (letters_only state) ∧
  parents_2_state (parts root_dir ++ [session; "CSV"; "bills.csv"])
  = Some (letters_only (path_name root_dir)) ∧
  (parts root_dir ≠ [] →
   parents_2_state (parts root_dir ++ ["CSV"; "bills.csv"])
   = Some (letters_only (path_name (path_parent root_dir)))) ∧
  (parts root_dir = [] →
   parents_2_state (parts root_dir ++ ["CSV"; "bills.csv"]) = None).
Proof.
  split_and!.
  - replace (parts root_dir ++ pre ++ [state; session; "CSV"; "bills.csv"])
      with ((parts root_dir ++ pre ++ [state]) ++ [session; "CSV"; "bills.csv"])
      by (by rewrite <- !(assoc_L (++))).
    rewrite parents_2_state_snoc3. by rewrite (assoc_L (++)), last_last.
  - apply parents_2_state_snoc3.
  - intros Hne. unfold path_name, path_parent. simpl.
    rewrite (app_removelast_last "" Hne) at 1.
    rewrite <- (assoc_L (++)). simpl. apply parents_2_state_snoc3.
  - by intros ->.
Qed.

(** ** The two spellings of an input: archive and directory *)

Lemma append_nil_r (s : string) : String.append s "" = s.
Proof.
  apply list_ascii_of_string_inj. rewrite list_ascii_of_string_app. apply app_nil_r.
Qed.

Lemma substring_append_l (a b : string) :
  substring 0 (String.length a) (String.append a b) = a.
Proof.
  induction a as [| c a IH]; [by destruct b |].
  change (String.append (String c a) b) with (String c (String.append a b)).
  simpl. by rewrite IH.
Qed.

Lemma rfind_dot_append (a b : string) :
  rfind_dot (String.append a b)
  = match rfind_dot b with
    | Some i => Some (String.length a + i)
    | None => rfind_dot a
    end.
Proof.
  induction a as [| c a IH].
  - change (String.append "" b) with b. by destruct (rfind_dot b).
  - change (String.append (String c a) b) with (String c (String.append a b)).
    cbn [rfind_dot String.length]. rewrite IH.
    destruct (rfind_dot b); [done |]. by destruct (rfind_dot a).
Qed.

Lemma suffix_of_name_zip (nm : string) :
  nm ≠ "" → suffix_of_name (String.append nm ".zip") = ".zip".
Proof.
  intros Hne. unfold suffix_of_name. rewrite rfind_dot_append, length_append. simpl.
  assert (0 < String.length nm)%nat as Hlen by (destruct nm; [done | simpl; lia]).
  rewrite Nat.add_0_r.
  destruct (Nat.ltb_spec 0 (String.length nm)) as [_ | ?]; [| lia].
  destruct (Nat.ltb_spec (String.length nm) (String.length nm + 4 - 1)) as [_ | ?];
    [| lia].
  simpl. replace (String.length nm + 4 - String.length nm) with 4 by lia.
  by rewrite substring_append_r.
Qed.

Lemma stem_of_zip (nm : string) :
  substring 0 (String.length (String.append nm ".zip") - String.length ".zip")
    (String.append nm ".zip") = nm.
Proof.
  rewrite length_append. simpl.
  replace (String.length nm + 4 - 4) with (String.length nm) by lia.
  apply substring_append_l.
Qed.

Lemma path_name_not_empty (p : PurePath) :
  path_name p ≠ "" → parts p = removelast (parts p) ++ [path_name p].
Proof.
  unfold path_name. intros Hne. apply app_removelast_last.
  intros Hnil. by rewrite Hnil in Hne.
Qed.

Lemma with_suffix_zip (p : PurePath) :
  path_name p ≠ "" → path_suffix p = "" →
  with_suffix p ".zip"
  = Some {| absolute := absolute p;
            parts := removelast (parts p) ++ [String.append (path_name p) ".zip"] |}.
Proof.
  unfold path_suffix, with_suffix. intros Hne Hsuf.
  apply String.eqb_neq in Hne. rewrite Hne, Hsuf. simpl.
  by rewrite Nat.sub_0_r, substring_all.
Qed.

Lemma with_suffix_unzip (a : bool) (init : list string) (nm : string) :
  nm ≠ "" →
  with_suffix {| absolute := a; parts := init ++ [String.append nm ".zip"] |} ""
  = Some {| absolute := a; parts := init ++ [nm] |}.
Proof.
  intros Hne. unfold with_suffix, path_name. simpl. rewrite last_last, removelast_last.
  assert (String.append nm ".zip" ≠ "") as Hz by (by destruct nm).
  apply String.eqb_neq in Hz. rewrite Hz.
  by rewrite (suffix_of_name_zip nm Hne), stem_of_zip, append_nil_r.
Qed.

(** X22.  An archive and its directory are two spellings of one input: for
    a path [p] whose name has no suffix, [p] and [p.zip] name the same
    archive and the same directory, the Archive Resolver does the same
    on both, and concat_bills.py derives the same output path from
    both. *)
Theorem archive_and_directory_name_one_input (p : PurePath) :
  path_name p ≠ "" → path_suffix p = "" →
  ∃ pz, with_suffix p ".zip" = Some pz ∧
        zip_and_dir p = Some (pz, p) ∧
        zip_and_dir pz = Some (pz, p) ∧
        (∀ cwd infolist st_mtime fs,
           resolve_root_dir cwd infolist st_mtime pz fs
           = resolve_root_dir cwd infolist st_mtime p fs) ∧
        ConcatBills.derive_output_path pz = ConcatBills.derive_output_path p.
Proof.
  intros Hne Hsuf. eexists. split; [by apply with_suffix_zip |].
  assert (Hp : zip_and_dir p
               = Some ({| absolute := absolute p;
                          parts := removelast (parts p)
                                   ++ [String.append (path_name p) ".zip"] |}, p)).
  { unfold zip_and_dir. rewrite Hsuf. simpl. by rewrite with_suffix_zip. }
  assert (Hz : zip_and_dir {| absolute := absolute p;
                              parts := removelast (parts p)
                                       ++ [String.append (path_name p) ".zip"] |}
               = Some ({| absolute := absolute p;
                          parts := removelast (parts p)
                                   ++ [String.append (path_name p) ".zip"] |}, p)).
  { unfold zip_and_dir, path_suffix. unfold path_name at 1. simpl. rewrite last_last.
    rewrite (suffix_of_name_zip _ Hne). simpl.
    rewrite (with_suffix_unzip _ _ _ Hne). simpl.
    rewrite <- (path_name_not_empty p Hne). by destruct p. }
  split_and!; [done | done | |].
  - intros cwd infolist st_mtime fs. unfold resolve_root_dir. by rewrite Hp, Hz.
  - set (pz := {| absolute := absolute p;
                  parts := removelast (parts p) ++ [String.append (path_name p) ".zip"] |}).
    assert (Hname : path_name pz = String.append (path_name p) ".zip").
    { unfold path_name at 1. simpl. apply last_last. }
    assert (Hbz : ConcatBills.base_name pz = path_name p).
    { unfold ConcatBills.base_name, path_suffix. rewrite Hname.
      rewrite (suffix_of_name_zip _ Hne). simpl.
      unfold pz. rewrite (with_suffix_unzip _ _ _ Hne).
      unfold path_name at 1. simpl. apply last_last. }
    assert (Hb : ConcatBills.base_name p = path_name p).
    { unfold ConcatBills.base_name. by rewrite Hsuf. }
    unfold ConcatBills.derive_output_path. rewrite Hbz, Hb. simpl.
    by rewrite removelast_last.
Qed.

Lemma archive_and_directory_name_one_input_witness :
  zip_and_dir (Path "/data/2021-2022") = zip_and_dir (Path "/data/2021-2022.zip") ∧
  ConcatBills.derive_output_path (Path "/data/2021-2022.zip")
  = Path "/data/concatenated-2021-2022/all-bills.csv".
Proof.
  destruct (archive_and_directory_name_one_input (Path "/data/2021-2022"))
    as (pz & Hpz & Hd & Hz & _ & Hout); [vm_compute; discriminate | reflexivity |].
  injection Hpz as <-. split.
  - rewrite Hd. symmetry. exact Hz.
  - etrans; [exact Hout | reflexivity].
Defined.

(** ** Where concat_bills.py writes *)

Section ConcatBillsProperties.

Variable cwd : list string.

Lemma dir_path_parts (input_path zip_path dir_path : PurePath) :
  zip_and_dir input_path = Some (zip_path, dir_path) →
  absolute dir_path = absolute input_path ∧
  parts dir_path = removelast (parts input_path) ++ [ConcatBills.base_name input_path].
Proof.
  unfold zip_and_dir, ConcatBills.base_name.
  destruct (String.eqb (path_suffix input_path) ".zip").
  - destruct (with_suffix input_path "") as [p |] eqn:Hw; simpl; [| done].
    intros [= <- <-]. unfold with_suffix in Hw.
    destruct (String.eqb (path_name input_path) ""); [done |].
    injection Hw as <-. split; [done |]. unfold path_name. simpl.
    by rewrite last_last.
  - destruct (with_suffix input_path ".zip") as [p |] eqn:Hw; simpl; [| done].
    intros [= <- <-]. split; [done |]. unfold with_suffix in Hw.
    destruct (String.eqb_spec (path_name input_path) "") as [| Hne]; [done |].
    by apply path_name_not_empty.
Qed.

Lemma normalize_snoc (acc : list string) (x : string) :
  x ≠ ".." → x ≠ "." → normalize acc [x] = acc ++ [x].
Proof.
  intros Hx Hx'. simpl. destruct (String.eqb_spec x ".."); [done |].
  by destruct (String.eqb_spec x ".").
Qed.

Lemma concatenated_not_dotdot (s : string) : String.append "concatenated-" s ≠ "..".
Proof. intros Heq. vm_compute in Heq. discriminate. Qed.

Lemma concatenated_not_dot (s : string) : String.append "concatenated-" s ≠ ".".
Proof. intros Heq. vm_compute in Heq. discriminate. Qed.

(** The output path resolves to the directory of the input followed by
    the two names [derive_output_path] appends. *)
Lemma resolve_derive_output_path (input_path : PurePath) :
  resolve cwd (ConcatBills.derive_output_path input_path)
  = normalize (if absolute input_path then [] else cwd) (removelast (parts input_path))
    ++ [String.append "concatenated-" (ConcatBills.base_name input_path); "all-bills.csv"].
Proof.
  unfold resolve, ConcatBills.derive_output_path. simpl.
  destruct (absolute input_path); rewrite normalize_app;
    (rewrite normalize_no_dotdot; [done | |]);
    intros [Hin | Hin]%elem_of_cons;
    first [ by apply eq_sym, concatenated_not_dotdot in Hin
          | by apply eq_sym, concatenated_not_dot in Hin
          | apply list_elem_of_singleton in Hin; discriminate Hin ].
Qed.

Lemma concatenated_not_same (s : string) : s ≠ String.append "concatenated-" s.
Proof.
  intros Heq. apply (f_equal String.length) in Heq.
  rewrite length_append in Heq. simpl in Heq. lia.
Qed.

(** The output file lies next to the root directory, not below it. *)
Lemma output_not_below_root (input_path zip_path dir_path : PurePath) :
  zip_and_dir input_path = Some (zip_path, dir_path) →
  ConcatBills.base_name input_path ≠ ".." →
  ConcatBills.base_name input_path ≠ "." →
  ¬ resolve cwd dir_path `prefix_of` resolve cwd (ConcatBills.derive_output_path input_path).
Proof.
  intros Hpaths Hbase Hbase'. destruct (dir_path_parts _ _ _ Hpaths) as [Habs Hparts].
  rewrite resolve_derive_output_path.
  assert (Hdir : resolve cwd dir_path
                 = normalize (if absolute input_path then [] else cwd)
                     (removelast (parts input_path))
                   ++ [ConcatBills.base_name input_path]).
  { unfold resolve. rewrite Habs, Hparts.
    destruct (absolute input_path); by rewrite normalize_app, normalize_snoc. }
  rewrite Hdir. intros Hpre%prefix_app_inv.
  destruct Hpre as [k Hk]. injection Hk as Hk _.
  by apply eq_sym, concatenated_not_same in Hk.
Qed.

End ConcatBillsProperties.

(** X23.  The output file of concat_bills.py is named [all-bills.csv], so
    it is never one of the input files of the concatenation, which are
    named [bills.csv]; and it lies next to the root directory, not below
    it, unless the input is named so that its base name is ["."] or
    [".."]. *)
Theorem output_is_never_an_input
    (cwd : list string) (input_path zip_path dir_path : PurePath) :
  zip_and_dir input_path = Some (zip_path, dir_path) →
  let root := resolve cwd dir_path in
  let out := resolve cwd (ConcatBills.derive_output_path input_path) in
  (ConcatBills.base_name input_path ≠ ".." → ConcatBills.base_name input_path ≠ "." →
   ¬ root `prefix_of` out) ∧
  (∀ (fs : filesystem) (k : list string), k ∈ bills_paths root fs → root ++ k ≠ out) ∧
  path_name (ConcatBills.derive_output_path input_path) = "all-bills.csv".
Proof.
  intros Hpaths root out. split_and!.
  - by apply (output_not_below_root cwd _ _ _ Hpaths).
  - intros fs k Hk Heq. apply (elem_of_bills_paths cwd dir_path) in Hk as [[k' ->] _].
    subst out. rewrite resolve_derive_output_path in Heq.
    apply (f_equal (λ l, List.last l "")) in Heq. revert Heq.
    rewrite !(assoc_L (++)), (cons_middle "CSV"), (assoc_L (++)), last_last.
    rewrite cons_middle, (assoc_L (++)), last_last. discriminate.
  - unfold path_name, ConcatBills.derive_output_path. simpl.
    rewrite cons_middle, (assoc_L (++)). apply last_last.
Qed.

Lemma output_is_never_an_input_witness :
  ¬ ["data"; "2021-2022"] `prefix_of`
      resolve ExampleArchive.cwd
        (ConcatBills.derive_output_path (Path "/data/2021-2022.zip")) ∧
  resolve ExampleArchive.cwd (ConcatBills.derive_output_path (Path "/data/2021-2022.zip"))
  = ["data"; "concatenated-2021-2022"; "all-bills.csv"].
Proof.
  split; [| reflexivity].
  apply (output_is_never_an_input ExampleArchive.cwd (Path "/data/2021-2022.zip")
           (Path "/data/2021-2022.zip") (Path "/data/2021-2022")).
  - reflexivity.
  - vm_compute. discriminate.
  - vm_compute. discriminate.
Defined.

(** X24.  [main] of concat_bills.py without [--overwrite], when the output
    file exists and the answer is not [y]: nothing is concatenated, the
    file system is as the Archive Resolver left it, and the output file
    is as it was.  The base name of the input is a name, neither ["."]
    nor [".."]: the output file is then not below the directory the
    resolver may delete. *)
Theorem declined_overwrite_keeps_output
    (cwd : list string) (infolist : list Byte.byte → option (list ZipInfo))
    (csv_reader : list Byte.byte → list (list string) * bool)
    (csv_writer : list (list string) → list Byte.byte)
    (input_path : PurePath) (confirm : string) (st_mtime : list string → Z)
    (fs : filesystem) :
  ConcatBills.base_name input_path ≠ ".." →
  ConcatBills.base_name input_path ≠ "." →
  confirm ≠ "y" →
  let out := resolve cwd (ConcatBills.derive_output_path input_path) in
  is_Some (fs !! out) →
  let resolved := resolve_root_dir cwd infolist st_mtime input_path fs in
  let run := ConcatBills.main cwd infolist csv_reader csv_writer input_path false
               confirm st_mtime fs in
  run.2 = resolved.2 ∧
  run.2 !! out = fs !! out ∧
  match resolved.1 with
  | inl _ => run.1 = inl Stopping
  | inr e => run.1 = inr e
  end.
Proof.
  intros Hbase Hbase' Hconfirm out Hexists resolved run.
  assert (Hout : resolved.2 !! out = fs !! out).
  { subst resolved. destruct (zip_and_dir input_path) as [[zip_path dir_path] |] eqn:Hpaths.
    - pose proof (resolve_root_dir_untouched cwd infolist st_mtime _ _ _ fs Hpaths) as Hun.
      destruct (Hun out (output_not_below_root cwd _ _ _ Hpaths Hbase Hbase'))
        as [E | (N & _)]; [done |].
      rewrite N in Hexists. by destruct Hexists.
    - unfold resolve_root_dir. by rewrite Hpaths. }
  subst run. unfold ConcatBills.main. fold resolved. fold out.
  destruct resolved as [[root_dir | e] fs1]; simpl in *; [| done].
  assert (exists_ out fs1 = true) as ->.
  { apply bool_decide_eq_true_2. by rewrite Hout. }
  apply String.eqb_neq in Hconfirm. rewrite Hconfirm. simpl. done.
Qed.

Lemma declined_overwrite_keeps_output_witness :
  let fs := <[ ["data"; "concatenated-2021-2022"; "all-bills.csv"] := File [Byte.x31] ]>
              ExampleStream.fs in
  let run := ConcatBills.main [] (λ _, None) ExampleStream.simple_csv_reader
               ExampleStream.simple_csv_writer (Path "/data/2021-2022") false "n"
               (λ _, 0%Z) fs in
  run.1 = inl Stopping ∧
  run.2 !! ["data"; "concatenated-2021-2022"; "all-bills.csv"] = Some (File [Byte.x31]).
Proof.
  intros fs run.
  destruct (declined_overwrite_keeps_output [] (λ _, None) ExampleStream.simple_csv_reader
              ExampleStream.simple_csv_writer (Path "/data/2021-2022") "n" (λ _, 0%Z) fs)
    as (_ & Hout & Hres).
  - vm_compute. discriminate.
  - vm_compute. discriminate.
  - discriminate.
  - vm_compute. eexists. reflexivity.
  - split.
    + assert (Hr : (resolve_root_dir [] (λ _, None) (λ _, 0%Z) (Path "/data/2021-2022") fs).1
                   = inl (Path "/data/2021-2022")) by (vm_compute; reflexivity).
      rewrite Hr in Hres. exact Hres.
    + etrans; [exact Hout |]. vm_compute. reflexivity.
Defined.

(** ** Aggregate mode: frames without duplicates *)

Section CombinedProperties.

Context {cell : Type} `{EqDecision cell}.

Implicit Types (df : @DataFrame cell) (row : list cell) (rs seen : list (list cell)).

Lemma unmasked_NoDup rs : ∀ seen,
  NoDup rs → (∀ row, row ∈ rs → row ∉ seen) →
  unmasked rs (duplicated_from seen rs) = rs.
Proof.
  induction rs as [| r rs IH]; intros seen Hnd Hseen; [done |].
  apply NoDup_cons in Hnd as [Hr Hnd]. rewrite unmasked_cons.
  rewrite decide_False by apply Hseen, list_elem_of_here.
  rewrite IH; [done | done |].
  intros row Hrow [Hin | ->%list_elem_of_singleton]%elem_of_app; [| done].
  by apply (Hseen row); [apply list_elem_of_further |].
Qed.

End CombinedProperties.

(** X26.  Deduplication is idempotent, and it is the identity exactly on
    the frames without two equal rows. *)
Theorem drop_duplicates_idempotent
    {cell : Type} `{EqDecision cell} (df : @DataFrame cell) :
  drop_duplicates (drop_duplicates df) = drop_duplicates df ∧
  (NoDup (rows df) ↔ drop_duplicates df = df).
Proof.
  assert (Hfix : ∀ df' : @DataFrame cell, NoDup (rows df') → drop_duplicates df' = df').
  { intros [cols rs] Hnd. unfold drop_duplicates, duplicated. simpl in *. f_equal.
    apply unmasked_NoDup; [done |]. intros row _. apply not_elem_of_nil. }
  split_and!.
  - apply Hfix. unfold drop_duplicates, duplicated. simpl. apply NoDup_unmasked.
  - split; [apply Hfix |]. intros <-. unfold drop_duplicates, duplicated. simpl.
    apply NoDup_unmasked.
Qed.

(** ** Aggregate mode: files that do not read *)

Lemma all_bills_app {cell : Type} (reads1 reads2 : list (@DataFrame cell + error)) :
  all_bills (reads1 ++ reads2) = all_bills reads1 ++ all_bills reads2.
Proof. unfold all_bills. apply omap_app. Qed.

(** X27.  Aggregate mode leaves out a per-dataset file that does not read:
    the run is the run without that file.  When no file reads, it
    reports that there is nothing to concatenate and writes nothing. *)
Theorem unreadable_file_is_left_out
    {cell : Type} `{EqDecision cell}
    (concat : list (@DataFrame cell) → @DataFrame cell)
    (to_csv : @DataFrame cell → list Byte.byte) (SAVE_PATH : list string)
    (pre post : list (@DataFrame cell + error)) (e : error) (fs : filesystem) :
  concat_legiscan_combined concat to_csv SAVE_PATH (pre ++ inr e :: post) fs
  = concat_legiscan_combined concat to_csv SAVE_PATH (pre ++ post) fs ∧
  (∀ errs : list error,
     concat_legiscan_combined concat to_csv SAVE_PATH (map inr errs) fs
     = (inl NoCsvFiles, fs)) ∧
  length (all_bills (pre ++ inr e :: post)) = length (all_bills pre) + length (all_bills post).
Proof.
  assert (Hskip : all_bills (pre ++ inr e :: post) = all_bills (pre ++ post)).
  { by rewrite !all_bills_app. }
  assert (Hnone : ∀ errs : list error,
            all_bills (map inr errs : list (@DataFrame cell + error)) = []).
  { intros errs. induction errs as [| e' errs IH]; [done | exact IH]. }
  split_and!.
  - unfold concat_legiscan_combined. by rewrite Hskip.
  - intros errs. unfold concat_legiscan_combined. by rewrite (Hnone errs).
  - by rewrite Hskip, all_bills_app, length_app.
Qed.
